(** * LIP: spectral refinement of a weight matrix learned from noisy labels

    A shallow embedding of [src/main.py] (the function [lip]), the
    properties of its specification, and further properties of the code.

    Modelling choices, all read off the source:

    - a tensor entry is a floating-point number.  Rounding is not modelled:
      a finite entry is an element of an ordered field [F] (exact
      arithmetic), and the IEEE special values (the two infinities and NaN)
      are kept, with the IEEE rules for the four operations the code uses
      ([+], [-], [*] and the unguarded [/] of line 41).  Zero carries no
      sign.  A statement on finite values therefore holds of the
      floating-point program up to rounding, as long as no product or sum
      of the run overflows or underflows; the properties of the results
      are stated for both outcomes of a run: finite refined singular
      values, or a special value among them.
    - a 2-D tensor is its shape and its entries; a 1-D tensor is the list of
      its entries.  PyTorch's shape checks ([@], broadcasting, advanced
      indexing) are modelled with the errors they raise.
    - [torch.linalg.svd] is a library routine: it is a parameter [svd] of
      the embedding, and the theorems that need it state what they assume of
      its result.
    - the function body is written once, over an interface of tensor
      operations; it is run on tensor values (for the functional
      properties) and on a store of tensor storages addressed by
      strided views (for the frame property). *)

From Stdlib Require Import List Arith ZArith Lia Bool.
From Stdlib Require Import QArith Qcanon.
From Stdlib Require Import Ring Field.
Import ListNotations.

Set Implicit Arguments.
Local Open Scope nat_scope.

(* ================================================================= *)
(** * The field of finite entries *)

(** The finite values: a field with a decidable equality and a decidable,
    total order (the sign of a value decides the sign of an infinity). *)
Class OrderedField : Type := {
  F : Type;
  F0 : F;
  F1 : F;
  Fadd : F -> F -> F;
  Fmul : F -> F -> F;
  Fsub : F -> F -> F;
  Fopp : F -> F;
  Fdiv : F -> F -> F;
  Finv : F -> F;
  Feqb : F -> F -> bool;
  Fleb : F -> F -> bool;
  Fth : field_theory F0 F1 Fadd Fmul Fsub Fopp Fdiv Finv (@eq F);
  Feqb_spec : forall x y, Feqb x y = true <-> x = y;
  Fleb_refl : forall x, Fleb x x = true;
  Fleb_trans : forall x y z, Fleb x y = true -> Fleb y z = true -> Fleb x z = true;
  Fleb_antisym : forall x y, Fleb x y = true -> Fleb y x = true -> x = y;
  Fleb_total : forall x y, Fleb x y = true \/ Fleb y x = true;
  Fleb_add : forall x y z, Fleb x y = true -> Fleb (Fadd x z) (Fadd y z) = true;
  Fleb_mul : forall x y, Fleb F0 x = true -> Fleb F0 y = true -> Fleb F0 (Fmul x y) = true
}.

Declare Scope F_scope.
Delimit Scope F_scope with F.
Infix "+" := Fadd : F_scope.
Infix "*" := Fmul : F_scope.
Infix "-" := Fsub : F_scope.
Infix "/" := Fdiv : F_scope.
Notation "- x" := (Fopp x) : F_scope.
Notation "0" := F0 : F_scope.
Notation "1" := F1 : F_scope.
Infix "=?" := Feqb : F_scope.
Infix "<=?" := Fleb : F_scope.
Notation "x <= y" := (Fleb x y = true) : F_scope.

(** The rationals are such a field; every finite floating-point number is
    one of them. *)
Definition Qc_eqb (x y : Qc) : bool := Qeq_bool x y.
Definition Qc_leb (x y : Qc) : bool := Qle_bool x y.

#[export, refine] Instance Qc_field : OrderedField := {|
  F := Qc; F0 := 0%Qc; F1 := 1%Qc;
  Fadd := Qcplus; Fmul := Qcmult; Fsub := Qcminus; Fopp := Qcopp;
  Fdiv := Qcdiv; Finv := Qcinv;
  Feqb := Qc_eqb; Fleb := Qc_leb;
  Fth := Qcft |}.
Proof.
  all: assert (Hle : forall x y : Qc, Qc_leb x y = true <-> (x <= y)%Qc)
    by (intros x y; unfold Qc_leb, Qcle; apply Qle_bool_iff).
  - intros x y. unfold Qc_eqb. rewrite Qeq_bool_iff. split.
    + apply Qc_is_canon.
    + intros ->. reflexivity.
  - intros x. apply Hle, Qcle_refl.
  - intros x y z. rewrite !Hle. apply Qcle_trans.
  - intros x y. rewrite !Hle. apply Qcle_antisym.
  - intros x y. rewrite !Hle.
    destruct (Qclt_le_dec x y) as [H|H]; [left; apply Qclt_le_weak, H | right; exact H].
  - intros x y z. rewrite !Hle. intros H.
    apply Qcplus_le_compat; [exact H | apply Qcle_refl].
  - intros x y. rewrite !Hle. intros Hx Hy.
    replace 0%Qc with (0 * y)%Qc by ring.
    apply Qcmult_le_compat_r; assumption.
Defined.

(* ================================================================= *)
(** * Tensor entries: finite values and the IEEE special values *)

Section Scalars.
Context {OF : OrderedField}.

(** [Inf false] is +inf, [Inf true] is -inf. *)
Inductive scalar : Type :=
| Num (x : F)
| Inf (neg : bool)
| NaN.

Definition Fneg (x : F) : bool := negb (0 <=? x)%F.

Definition sadd (a b : scalar) : scalar :=
  match a, b with
  | NaN, _ | _, NaN => NaN
  | Num x, Num y => Num (x + y)%F
  | Inf s, Num _ | Num _, Inf s => Inf s
  | Inf s, Inf t => if eqb s t then Inf s else NaN
  end.

Definition ssub (a b : scalar) : scalar :=
  match a, b with
  | NaN, _ | _, NaN => NaN
  | Num x, Num y => Num (x - y)%F
  | Inf s, Num _ => Inf s
  | Num _, Inf t => Inf (negb t)
  | Inf s, Inf t => if eqb s t then NaN else Inf s
  end.

Definition smul (a b : scalar) : scalar :=
  match a, b with
  | NaN, _ | _, NaN => NaN
  | Num x, Num y => Num (x * y)%F
  | Inf s, Num y | Num y, Inf s => if (y =? 0)%F then NaN else Inf (xorb s (Fneg y))
  | Inf s, Inf t => Inf (xorb s t)
  end.

(** Division never raises: a zero divisor yields an infinity, or NaN for
    0/0. *)
Definition sdiv (a b : scalar) : scalar :=
  match a, b with
  | NaN, _ | _, NaN => NaN
  | Num x, Num y =>
      if (y =? 0)%F then (if (x =? 0)%F then NaN else Inf (Fneg x))
      else Num (x / y)%F
  | Num _, Inf _ => Num 0%F
  | Inf s, Num y => Inf (xorb s (Fneg y))
  | Inf _, Inf _ => NaN
  end.

Definition is_finite (a : scalar) : bool :=
  match a with Num _ => true | _ => false end.

Definition scalar_eqb (a b : scalar) : bool :=
  match a, b with
  | Num x, Num y => (x =? y)%F
  | Inf s, Inf t => eqb s t
  | NaN, NaN => true
  | _, _ => false
  end.

(** The finite value of an entry (0 for a special value). *)
Definition num_of (a : scalar) : F :=
  match a with Num x => x | _ => 0%F end.

End Scalars.

(* ================================================================= *)
(** * Exceptions *)

(** The exceptions PyTorch raises on the paths of [lip]. *)
Inductive exn : Type :=
| ShapeError      (* RuntimeError: shapes cannot be multiplied / broadcast *)
| IndexError      (* index out of range in advanced indexing *)
| LinAlgError.    (* torch.linalg.svd failed *)

Inductive result (A : Type) : Type :=
| Ok (a : A)
| Raise (e : exn).

Arguments Ok {A} a.
Arguments Raise {A} e.

Definition is_ok {A} (r : result A) : bool :=
  match r with Ok _ => true | Raise _ => false end.

(* ================================================================= *)
(** * Tensor values *)

(** [tab n f] is the list [f 0; ...; f (n-1)]. *)
Definition tab {A} (n : nat) (f : nat -> A) : list A := map f (seq 0 n).

(** Python's bound of a slice [:k] or [k:] over a dimension of length
    [len]: a negative bound counts from the end, and the result is clamped
    to [0, len]. *)
Definition slice_index (k : Z) (len : nat) : nat :=
  if (k <? 0)%Z then Z.to_nat (Z.max 0 (k + Z.of_nat len))
  else Nat.min (Z.to_nat k) len.

Section Tensors.
Context {OF : OrderedField}.

(** A 2-D tensor: its shape and its rows. *)
Record matrix : Type := Mat {
  nrows : nat;
  ncols : nat;
  rowsof : list (list scalar)
}.

(** A 1-D tensor. *)
Definition vector : Type := list scalar.

Definition mget (m : matrix) (i j : nat) : scalar :=
  nth j (nth i (rowsof m) []) (Num 0%F).

Definition vget (v : vector) (i : nat) : scalar := nth i v (Num 0%F).

Definition mtab (r c : nat) (f : nat -> nat -> scalar) : matrix :=
  Mat r c (tab r (fun i => tab c (f i))).

(** The rows of a well-formed matrix agree with its shape. *)
Definition wf_matrix (m : matrix) : Prop :=
  m = mtab (nrows m) (ncols m) (mget m).

(** [ssum n f] is [f 0 + ... + f (n-1)], summed from the left; the empty
    sum is 0. *)
Fixpoint ssum (n : nat) (f : nat -> scalar) : scalar :=
  match n with
  | O => Num 0%F
  | S n' => sadd (ssum n' f) (f n')
  end.

(** ** Views: transposition and slicing *)

(** [m.t()], [m.transpose(-2, -1)] *)
Definition mT (m : matrix) : matrix :=
  mtab (ncols m) (nrows m) (fun i j => mget m j i).

(** [m[:, :k]] *)
Definition mcols_to (m : matrix) (k : Z) : matrix :=
  mtab (nrows m) (slice_index k (ncols m)) (mget m).

(** [m[:, k:]] *)
Definition mcols_from (m : matrix) (k : Z) : matrix :=
  let k' := slice_index k (ncols m) in
  mtab (nrows m) (ncols m - k') (fun i j => mget m i (k' + j)).

(** [v[:k]] *)
Definition vtake (v : vector) (k : Z) : vector :=
  firstn (slice_index k (length v)) v.

(** ** Operations that build a new tensor *)

(** [torch.diag(v)] of a 1-D tensor. *)
Definition mdiag (v : vector) : matrix :=
  mtab (length v) (length v) (fun i j => if i =? j then vget v i else Num 0%F).

(** The product of two matrices whose inner dimensions agree. *)
Definition mmul (a b : matrix) : matrix :=
  mtab (nrows a) (ncols b)
       (fun i j => ssum (ncols a) (fun t => smul (mget a i t) (mget b t j))).

(** [a @ b]: PyTorch raises when the inner dimensions differ. *)
Definition matmul_v (a b : matrix) : result matrix :=
  if ncols a =? nrows b then Ok (mmul a b) else Raise ShapeError.

(** Broadcasting of one dimension: equal sizes, or one of them is 1. *)
Definition bdim (a b : nat) : result nat :=
  if a =? b then Ok a
  else if a =? 1 then Ok b
  else if b =? 1 then Ok a
  else Raise ShapeError.

(** The entry of [m] that broadcasting reads at [(i, j)]. *)
Definition bget (m : matrix) (i j : nat) : scalar :=
  mget m (if nrows m =? 1 then 0 else i) (if ncols m =? 1 then 0 else j).

(** An elementwise binary operation, with broadcasting. *)
Definition mzip (op : scalar -> scalar -> scalar) (a b : matrix) : result matrix :=
  match bdim (nrows a) (nrows b), bdim (ncols a) (ncols b) with
  | Ok r, Ok c => Ok (mtab r c (fun i j => op (bget a i j) (bget b i j)))
  | Raise e, _ | _, Raise e => Raise e
  end.

(** [m] can be broadcast to the shape (r, c), and the matrix it is
    broadcast to. *)
Definition broadcasts_to (m : matrix) (r c : nat) : bool :=
  ((nrows m =? r) || (nrows m =? 1)) && ((ncols m =? c) || (ncols m =? 1)).

Definition mbroadcast (m : matrix) (r c : nat) : matrix := mtab r c (bget m).

Definition msub_v : matrix -> matrix -> result matrix := mzip ssub.
Definition madd_v : matrix -> matrix -> result matrix := mzip sadd.

(** Elementwise division of 1-D tensors, with broadcasting. *)
Definition vdiv_v (a b : vector) : result vector :=
  match bdim (length a) (length b) with
  | Ok n =>
      Ok (tab n (fun i => sdiv (vget a (if length a =? 1 then 0 else i))
                               (vget b (if length b =? 1 then 0 else i))))
  | Raise e => Raise e
  end.

(** [torch.arange(n)] *)
Definition arange_v (n : nat) : list nat := seq 0 n.

(** [m[idx, idx']]: advanced indexing by two index tensors of one length;
    an index out of range raises. *)
Definition index2_v (m : matrix) (idx idx' : list nat) : result vector :=
  if negb (length idx =? length idx') then Raise ShapeError
  else if forallb (fun i => i <? nrows m) idx && forallb (fun j => j <? ncols m) idx'
  then Ok (map (fun ij => mget m (fst ij) (snd ij)) (combine idx idx'))
  else Raise IndexError.

(** The total forms of subtraction and addition, for matrices of one
    shape. *)
Definition msub (a b : matrix) : matrix :=
  mtab (nrows a) (ncols a) (fun i j => ssub (mget a i j) (mget b i j)).

Definition madd (a b : matrix) : matrix :=
  mtab (nrows a) (ncols a) (fun i j => sadd (mget a i j) (mget b i j)).

Definition mzero (r c : nat) : matrix := mtab r c (fun _ _ => Num 0%F).

Definition midentity (n : nat) : matrix :=
  mtab n n (fun i j => if i =? j then Num 1%F else Num 0%F).

End Tensors.

(* ================================================================= *)
(** * The tensor operations [lip] uses *)

(** The interface of the PyTorch operations that occur in [lip]: a monad
    of computations that may raise, the tensor types, the views
    (transposition and slicing allocate nothing and cannot fail on a 2-D
    tensor) and the operations that produce a new tensor. *)
Class Backend : Type := {
  M : Type -> Type;
  ret : forall {A}, A -> M A;
  bind : forall {A B}, M A -> (A -> M B) -> M B;
  tensor2 : Type;                 (* 2-D float tensors *)
  tensor1 : Type;                 (* 1-D float tensors *)
  itensor : Type;                 (* 1-D index tensors *)
  linalg_svd : tensor2 -> M (tensor2 * tensor1 * tensor2);
  transpose : tensor2 -> tensor2;
  cols_to : tensor2 -> Z -> tensor2;
  cols_from : tensor2 -> Z -> tensor2;
  take : tensor1 -> Z -> tensor1;
  shape0 : tensor2 -> nat;
  diag : tensor1 -> M tensor2;
  matmul : tensor2 -> tensor2 -> M tensor2;
  sub : tensor2 -> tensor2 -> M tensor2;
  add : tensor2 -> tensor2 -> M tensor2;
  div : tensor1 -> tensor1 -> M tensor1;
  arange : nat -> M itensor;
  index2 : tensor2 -> itensor -> itensor -> M tensor1
}.

Notation "x <- c1 ;; c2" := (bind c1 (fun x => c2))
  (at level 61, c1 at next level, right associativity).
Notation "' pat <- c1 ;; c2" := (bind c1 (fun x => match x with pat => c2 end))
  (at level 61, pat pattern, c1 at next level, right associativity).
Infix "@" := matmul (at level 40, left associativity).

(* ================================================================= *)
(** * The function [lip] *)

(** The local variables of [lip] when it returns, by their names in the
    source ([T2], [T1] and [IT] are the types of 2-D, 1-D and index
    tensors). *)
Record locals (T2 T1 IT : Type) : Type := Locals {
  l_U : T2; l_S : T1; l_Vh : T2; l_V : T2;
  l_U_k : T2; l_S_k : T2; l_V_k : T2; l_W_k : T2;
  l_U_l : T2; l_V_l : T2;
  l_residual : T2; l_A : T2; l_B : T2;
  l_diag_idx : IT; l_sigma_refined : T1; l_S_l_refined : T2;
  l_W_refined : T2
}.

Section Lip.
Context {B : Backend}.

(** The body of [lip], statement by statement (lines 21 to 45); an
    expression with several operators is evaluated in Python's order. *)
Definition lip_body (W_noisy X Y : tensor2) (k : Z)
  : M (locals tensor2 tensor1 itensor) :=
  (* 1. Full SVD decomposition *)
  '(U, S_, Vh) <- linalg_svd W_noisy ;;
  let V := transpose Vh in
  (* 2. Principal Subspace Preservation (PSP) *)
  let U_k := cols_to U k in
  S_k <- diag (take S_ k) ;;
  let V_k := cols_to V k in
  UkSk <- U_k @ S_k ;;
  W_k <- UkSk @ transpose V_k ;;
  (* 3. Residual subspace *)
  let U_l := cols_from U k in
  let V_l := cols_from V k in
  (* 4. Label Ambiguity Purification (LAP) *)
  XWk <- X @ W_k ;;
  residual <- sub Y XWk ;;
  XtR <- transpose X @ residual ;;
  UtXtR <- transpose U_l @ XtR ;;
  A <- UtXtR @ V_l ;;
  XUl <- X @ U_l ;;
  XtXUl <- transpose X @ XUl ;;
  B <- transpose U_l @ XtXUl ;;
  diag_idx <- arange (shape0 A) ;;
  dA <- index2 A diag_idx diag_idx ;;
  dB <- index2 B diag_idx diag_idx ;;
  sigma_refined <- div dA dB ;;
  S_l_refined <- diag sigma_refined ;;
  (* 5. Reconstruct final weight *)
  UlS <- U_l @ S_l_refined ;;
  UlSVt <- UlS @ transpose V_l ;;
  W_refined <- add W_k UlSVt ;;
  ret (Locals U S_ Vh V U_k S_k V_k W_k U_l V_l residual A B
              diag_idx sigma_refined S_l_refined W_refined).

(** [lip] returns [W_refined] (line 46). *)
Definition lip (W_noisy X Y : tensor2) (k : Z) : M tensor2 :=
  l <- lip_body W_noisy X Y k ;;
  ret (l_W_refined l).

End Lip.

(* ================================================================= *)
(** * Running [lip] on tensor values *)

Section ValueBackend.
Context {OF : OrderedField}.

(** What [torch.linalg.svd(W, full_matrices=False)] returns, or the
    exception it raises. *)
Definition svd_oracle : Type := matrix -> result (matrix * vector * matrix).

Definition rbind {A B} (c : result A) (f : A -> result B) : result B :=
  match c with
  | Ok a => f a
  | Raise e => Raise e
  end.

Definition value_backend (svd : svd_oracle) : Backend := {|
  M := result;
  ret := @Ok;
  bind := @rbind;
  tensor2 := matrix;
  tensor1 := vector;
  itensor := list nat;
  linalg_svd := svd;
  transpose := mT;
  cols_to := mcols_to;
  cols_from := mcols_from;
  take := vtake;
  shape0 := nrows;
  diag := fun v => Ok (mdiag v);
  matmul := matmul_v;
  sub := msub_v;
  add := madd_v;
  div := vdiv_v;
  arange := fun n => Ok (arange_v n);
  index2 := index2_v
|}.

(** [lip] and its local variables, on tensor values. *)
Definition lip_locals (svd : svd_oracle) (W_noisy X Y : matrix) (k : Z)
  : result (locals matrix vector (list nat)) :=
  @lip_body (value_backend svd) W_noisy X Y k.

Definition lip_v (svd : svd_oracle) (W_noisy X Y : matrix) (k : Z) : result matrix :=
  @lip (value_backend svd) W_noisy X Y k.

End ValueBackend.

(* ================================================================= *)
(** * Running [lip] on a store of tensor storages *)

Section HeapBackend.
Context {OF : OrderedField}.

(** A storage is a flat array of entries; the store holds the storages
    allocated so far, addressed by their index. *)
Definition storage : Type := list scalar.
Definition heap : Type := list storage.

(** A tensor is a strided view of a storage: transposing and slicing make
    a new view of the same storage. *)
Record view2 : Type := View2 {
  v2_stor : nat; v2_off : nat;
  v2_rows : nat; v2_cols : nat;
  v2_rstride : nat; v2_cstride : nat
}.

Record view1 : Type := View1 {
  v1_stor : nat; v1_off : nat; v1_len : nat; v1_stride : nat
}.

Definition load (h : heap) (s off : nat) : scalar :=
  nth off (nth s h []) (Num 0%F).

(** The value a view denotes in a store. *)
Definition read2 (h : heap) (t : view2) : matrix :=
  mtab (v2_rows t) (v2_cols t)
       (fun i j => load h (v2_stor t) (v2_off t + i * v2_rstride t + j * v2_cstride t)).

Definition read1 (h : heap) (t : view1) : vector :=
  tab (v1_len t) (fun i => load h (v1_stor t) (v1_off t + i * v1_stride t)).

(** Computations that read and extend the store, and may raise. *)
Definition HM (A : Type) : Type := heap -> result A * heap.

Definition hret {A} (a : A) : HM A := fun h => (Ok a, h).

Definition hbind {A B} (c : HM A) (f : A -> HM B) : HM B :=
  fun h =>
    match c h with
    | (Ok a, h') => f a h'
    | (Raise e, h') => (Raise e, h')
    end.

(** The entries of a matrix in row-major order. *)
Definition flatten (m : matrix) : storage :=
  concat (tab (nrows m) (fun i => tab (ncols m) (mget m i))).

(** A new contiguous tensor holding [m], in a fresh storage. *)
Definition alloc2 (m : matrix) : HM view2 :=
  fun h => (Ok (View2 (length h) 0 (nrows m) (ncols m) (ncols m) 1),
            h ++ [flatten m]).

Definition alloc1 (v : vector) : HM view1 :=
  fun h => (Ok (View1 (length h) 0 (length v) 1), h ++ [v]).

(** An operation computes its result from the values of its operands and
    stores it in a new tensor; when it raises, the store is left as it
    is. *)
Definition store2 (r : result matrix) : HM view2 :=
  fun h => match r with Ok m => alloc2 m h | Raise e => (Raise e, h) end.

Definition store1 (r : result vector) : HM view1 :=
  fun h => match r with Ok v => alloc1 v h | Raise e => (Raise e, h) end.

Definition h_svd (svd : svd_oracle) (t : view2) : HM (view2 * view1 * view2) :=
  fun h =>
    match svd (read2 h t) with
    | Ok (U, S_, Vh) =>
        hbind (alloc2 U) (fun u =>
        hbind (alloc1 S_) (fun s =>
        hbind (alloc2 Vh) (fun vh => hret (u, s, vh)))) h
    | Raise e => (Raise e, h)
    end.

Definition h_transpose (t : view2) : view2 :=
  View2 (v2_stor t) (v2_off t) (v2_cols t) (v2_rows t) (v2_cstride t) (v2_rstride t).

Definition h_cols_to (t : view2) (k : Z) : view2 :=
  View2 (v2_stor t) (v2_off t) (v2_rows t) (slice_index k (v2_cols t))
        (v2_rstride t) (v2_cstride t).

Definition h_cols_from (t : view2) (k : Z) : view2 :=
  let k' := slice_index k (v2_cols t) in
  View2 (v2_stor t) (v2_off t + k' * v2_cstride t) (v2_rows t) (v2_cols t - k')
        (v2_rstride t) (v2_cstride t).

Definition h_take (t : view1) (k : Z) : view1 :=
  View1 (v1_stor t) (v1_off t) (slice_index k (v1_len t)) (v1_stride t).

Definition heap_backend (svd : svd_oracle) : Backend := {|
  M := HM;
  ret := @hret;
  bind := @hbind;
  tensor2 := view2;
  tensor1 := view1;
  itensor := list nat;
  linalg_svd := h_svd svd;
  transpose := h_transpose;
  cols_to := h_cols_to;
  cols_from := h_cols_from;
  take := h_take;
  shape0 := v2_rows;
  diag := fun t h => alloc2 (mdiag (read1 h t)) h;
  matmul := fun a b h => store2 (matmul_v (read2 h a) (read2 h b)) h;
  sub := fun a b h => store2 (msub_v (read2 h a) (read2 h b)) h;
  add := fun a b h => store2 (madd_v (read2 h a) (read2 h b)) h;
  div := fun a b h => store1 (vdiv_v (read1 h a) (read1 h b)) h;
  arange := fun n => hret (arange_v n);
  index2 := fun a idx idx' h => store1 (index2_v (read2 h a) idx idx') h
|}.

(** [lip] on the store. *)
Definition lip_h (svd : svd_oracle) (W_noisy X Y : view2) (k : Z) : HM view2 :=
  @lip (heap_backend svd) W_noisy X Y k.

(** A computation that only allocates: the store it leaves extends the
    store it started from. *)
Definition allocates_only {A} (c : HM A) : Prop :=
  forall h, exists fresh, snd (c h) = h ++ fresh.

End HeapBackend.

(* ================================================================= *)
(** * The vocabulary of the properties *)

Section Vocabulary.
Context {OF : OrderedField}.

(** ** Finite entries *)

(** [Fsum n f] is [f 0 + ... + f (n-1)] in the field. *)
Fixpoint Fsum (n : nat) (f : nat -> F) : F :=
  match n with
  | O => 0%F
  | S n' => (Fsum n' f + f n')%F
  end.

(** All the entries of [m] are finite; decidable. *)
Definition finite_matrix (m : matrix) : Prop :=
  forallb (fun i => forallb (fun j => is_finite (mget m i j)) (seq 0 (ncols m)))
          (seq 0 (nrows m)) = true.

Definition finite_vector (v : vector) : Prop :=
  forallb is_finite v = true.

(** No entry of [m] is finite: each one is NaN or an infinity. *)
Definition nowhere_finite (m : matrix) : Prop :=
  forall i j, i < nrows m -> j < ncols m -> is_finite (mget m i j) = false.

(** The finite value of an entry. *)
Definition rget (m : matrix) (i j : nat) : F := num_of (mget m i j).
Definition rvget (v : vector) (i : nat) : F := num_of (vget v i).

(** ** Valid inputs and the values of the local variables *)

(** The shapes of the factors [torch.linalg.svd(W, full_matrices=False)]
    returns for a q-by-l matrix: q-by-m, m and m-by-l, m = min(q, l). *)
Record svd_shapes (W U : matrix) (S : vector) (Vh : matrix) : Prop := {
  svd_U_rows : nrows U = nrows W;
  svd_U_cols : ncols U = Nat.min (nrows W) (ncols W);
  svd_S_len : length S = Nat.min (nrows W) (ncols W);
  svd_Vh_rows : nrows Vh = Nat.min (nrows W) (ncols W);
  svd_Vh_cols : ncols Vh = ncols W
}.

(** The dimensional preconditions on [X] (n-by-q) and [Y] (n-by-l). *)
Record conforming (W X Y : matrix) : Prop := {
  conf_X_cols : ncols X = nrows W;
  conf_Y_rows : nrows Y = nrows X;
  conf_Y_cols : ncols Y = ncols W
}.

(** The diagonal read by [m[diag_idx, diag_idx]]. *)
Definition diag_of (n : nat) (m : matrix) : vector := tab n (fun i => mget m i i).

(** The values of the local variables, with the total forms of the
    operations. *)
Definition trace (U : matrix) (S : vector) (Vh X Y : matrix) (k : Z)
  : locals matrix vector (list nat) :=
  let V := mT Vh in
  let U_k := mcols_to U k in
  let S_k := mdiag (vtake S k) in
  let V_k := mcols_to V k in
  let W_k := mmul (mmul U_k S_k) (mT V_k) in
  let U_l := mcols_from U k in
  let V_l := mcols_from V k in
  let residual := msub Y (mmul X W_k) in
  let A := mmul (mmul (mT U_l) (mmul (mT X) residual)) V_l in
  let B := mmul (mT U_l) (mmul (mT X) (mmul X U_l)) in
  let diag_idx := arange_v (nrows A) in
  let sigma_refined :=
    tab (nrows A) (fun i => sdiv (mget A i i) (mget B i i)) in
  let S_l_refined := mdiag sigma_refined in
  let W_refined := madd W_k (mmul (mmul U_l S_l_refined) (mT V_l)) in
  Locals U S Vh V U_k S_k V_k W_k U_l V_l residual A B
         diag_idx sigma_refined S_l_refined W_refined.

(** The feature energy [B] of line 37 on the residual axes, and the input
    condition that none of them is zero (decidable). *)
Definition feature_energy (U X : matrix) (k : Z) : matrix :=
  let U_l := mcols_from U k in
  mmul (mT U_l) (mmul (mT X) (mmul X U_l)).

Definition nondegenerate (U X : matrix) (k : Z) : Prop :=
  forallb (fun i => negb (scalar_eqb (mget (feature_energy U X k) i i) (Num 0%F)))
          (seq 0 (ncols U - slice_index k (ncols U))) = true.

(** The correction of the singular values on the residual axes. *)
Definition sigma_shift (W X Y U Vh : matrix) (S : vector) (k : Z) : vector :=
  tab (Nat.min (nrows W) (ncols W) - Z.to_nat k)
      (fun t => ssub (vget (l_sigma_refined (trace U S Vh X Y k)) t)
                     (vget S (Z.to_nat k + t))).

(** ** Decidable equality of tensor values *)

Fixpoint list_eqb {A} (eqb : A -> A -> bool) (l l' : list A) : bool :=
  match l, l' with
  | [], [] => true
  | a :: t, a' :: t' => eqb a a' && list_eqb eqb t t'
  | _, _ => false
  end.

Definition vector_eqb (v v' : vector) : bool := list_eqb scalar_eqb v v'.

Definition matrix_eqb (a b : matrix) : bool :=
  (nrows a =? nrows b) && (ncols a =? ncols b)
  && list_eqb (list_eqb scalar_eqb) (rowsof a) (rowsof b).

(** [returns r m]: the computation [r] returned the matrix [m]. *)
Definition returns (r : result matrix) (m : matrix) : bool :=
  match r with
  | Ok a => matrix_eqb a m
  | Raise _ => false
  end.

End Vocabulary.

(* ================================================================= *)
(** * Inner products, norms and rank *)

Section LinearAlgebra.
Context {OF : OrderedField}.

Local Open Scope F_scope.

(** [Fnat n] is [n] in the field. *)
Definition Fnat (n : nat) : F := Fsum n (fun _ => 1).

(** Vectors of dimension [n] are read as functions on the indices below
    [n]. *)
Definition dot (n : nat) (x y : nat -> F) : F := Fsum n (fun i => x i * y i).

(** The combination [d 0 * e 0 + ... + d (j-1) * e (j-1)]. *)
Definition comb (j : nat) (d : nat -> F) (e : nat -> nat -> F) : nat -> F :=
  fun i => Fsum j (fun a => d a * e a i).

(** The vectors [e 0 .. e (j-1)] are pairwise orthogonal. *)
Definition orthogonal (n j : nat) (e : nat -> nat -> F) : Prop :=
  forall a b, (a < j)%nat -> (b < j)%nat -> a <> b -> dot n (e a) (e b) = 0.

(** The vectors [e 0 .. e (j-1)] are orthonormal. *)
Definition orthonormal (n j : nat) (e : nat -> nat -> F) : Prop :=
  forall a b, (a < j)%nat -> (b < j)%nat ->
    dot n (e a) (e b) = if (a =? b)%nat then 1 else 0.

(** The part of [w] orthogonal to the family [e]. *)
Definition residue (n j : nat) (e : nat -> nat -> F) (w : nat -> F) : nat -> F :=
  fun i => w i - comb j (fun a => dot n w (e a) / dot n (e a) (e a)) e i.

(** [u 0 * sg 0 * v 0^T + ... + u (m-1) * sg (m-1) * v (m-1)^T], entry
    [(i, c)]. *)
Definition svd_sum (m : nat) (u : nat -> nat -> F) (sg : nat -> F)
           (v : nat -> nat -> F) (i c : nat) : F :=
  Fsum m (fun t => u t i * sg t * v t c).

(** The squared Frobenius norm of a q-by-l array. *)
Definition frob2 (q l : nat) (A : nat -> nat -> F) : F :=
  Fsum q (fun i => Fsum l (fun c => A i c * A i c)).

(** The share of the singular direction [u t] that lies in the span of
    the orthogonal vectors [e 0 .. e (j-1)]. *)
Definition share (q : nat) (u : nat -> nat -> F) (j : nat) (e : nat -> nat -> F)
           (t : nat) : F :=
  Fsum j (fun b => dot q (u t) (e b) * dot q (u t) (e b) / dot q (e b) (e b))%F.

End LinearAlgebra.

Section Approximations.
Context {OF : OrderedField}.

(** The squared Frobenius norm of a matrix. *)
Definition frobenius2 (M : matrix) : F := frob2 (nrows M) (ncols M) (rget M).

(** [M] has rank at most [k]: it factors through a space of dimension
    [k]. *)
Definition rank_at_most (k : nat) (M : matrix) : Prop :=
  exists P Q : matrix,
    finite_matrix P /\ finite_matrix Q /\
    nrows P = nrows M /\ ncols P = k /\ nrows Q = k /\ ncols Q = ncols M /\
    M = mmul P Q.

(** The singular values are non-negative and in descending order
    (decidable). *)
Definition descending_nonneg (S : vector) : Prop :=
  forallb (fun t => Fleb 0%F (rvget S t)
                    && (if Nat.ltb (Datatypes.S t) (length S)
                        then Fleb (rvget S (Datatypes.S t)) (rvget S t) else true))
          (seq 0 (length S)) = true.

(** The reference: the truncated SVD computed directly as the sum of the
    first [k] rank-one terms [sigma_t u_t v_t^T]. *)
Definition truncated_svd (U : matrix) (S : vector) (Vh : matrix) (k : nat) : matrix :=
  mtab (nrows U) (ncols Vh)
       (fun i j => Num (Fsum k (fun t => rget U i t * rvget S t * rget Vh t j)%F)).

End Approximations.

(* ================================================================= *)
(** * The vocabulary of the further properties *)

Section FitVocabulary.
Context {OF : OrderedField}.

(** The squared training error of the weights [W] on the data:
    [|| Y - X W ||_F^2]. *)
Definition loss (X Y W : matrix) : F := frobenius2 (msub Y (mmul X W)).

End FitVocabulary.

Section SignVocabulary.
Context {OF : OrderedField}.

(** A 1-D tensor of signs: every entry is 1 or -1 (decidable). *)
Definition signs (d : vector) : Prop :=
  forallb (fun x => scalar_eqb x (Num 1%F) || scalar_eqb x (Num (- (1))%F)) d = true.

End SignVocabulary.

Section ViewVocabulary.
Context {OF : OrderedField}.

(** The view [t] lives in a storage of [h] and denotes the value [m]. *)
Definition denotes2 (h : heap) (t : view2) (m : matrix) : Prop :=
  v2_stor t < length h /\ read2 h t = m.

Definition denotes1 (h : heap) (t : view1) (v : vector) : Prop :=
  v1_stor t < length h /\ read1 h t = v.

(** The computation [c] on the store [h] does what the computation [r] on
    values does: it raises the same exception, or returns a tensor related
    to the value by [rel]; in both cases it only extends the store. *)
Definition simulates {A B} (rel : heap -> A -> B -> Prop)
           (c : HM A) (r : result B) (h : heap) : Prop :=
  match r with
  | Ok b => exists a fresh, c h = (Ok a, h ++ fresh) /\ rel (h ++ fresh) a b
  | Raise e => exists fresh, c h = (Raise e, h ++ fresh)
  end.

(** What the rest of [lip] reads of the factors of the SVD. *)
Definition denotes_svd (k : Z) (h : heap) (t : view2 * view1 * view2)
           (v : matrix * vector * matrix) : Prop :=
  let '(u, s, vh) := t in
  let '(U, S_, Vh) := v in
  denotes2 h (h_cols_to u k) (mcols_to U k) /\
  denotes2 h (h_cols_from u k) (mcols_from U k) /\
  denotes1 h s S_ /\
  denotes2 h (h_transpose vh) (mT Vh).

End ViewVocabulary.

(* ================================================================= *)
(** * A worked instance over the rationals *)

Module Example.

Definition qnum (n : Z) (d : positive) : @scalar Qc_field := Num (Q2Qc (n # d)).

(** A rotation (3-4-5 triangle) times diag(2, 1): an exact rational SVD. *)
Definition U : @matrix Qc_field :=
  Mat 2 2 [[qnum 3 5; qnum (-4) 5]; [qnum 4 5; qnum 3 5]].
Definition S : @vector Qc_field := [qnum 2 1; qnum 1 1].
Definition Vh : @matrix Qc_field :=
  Mat 2 2 [[qnum 1 1; qnum 0 1]; [qnum 0 1; qnum 1 1]].
Definition W : @matrix Qc_field :=
  Mat 2 2 [[qnum 6 5; qnum (-4) 5]; [qnum 8 5; qnum 3 5]].
Definition svd : @svd_oracle Qc_field := fun _ => Ok (U, S, Vh).

Definition X : @matrix Qc_field :=
  Mat 3 2 [[qnum 1 1; qnum 0 1]; [qnum 0 1; qnum 1 1]; [qnum 1 1; qnum 1 1]].
Definition Y : @matrix Qc_field :=
  Mat 3 2 [[qnum 1 1; qnum 0 1]; [qnum 0 1; qnum 1 1]; [qnum 2 1; qnum 1 1]].

(** A degenerate instance: [W = diag(1, 0)], and a feature matrix with no
    energy along the second singular direction. *)
Definition I2 : @matrix Qc_field :=
  Mat 2 2 [[qnum 1 1; qnum 0 1]; [qnum 0 1; qnum 1 1]].
Definition S0 : @vector Qc_field := [qnum 1 1; qnum 0 1].
Definition W0 : @matrix Qc_field :=
  Mat 2 2 [[qnum 1 1; qnum 0 1]; [qnum 0 1; qnum 0 1]].
Definition svd0 : @svd_oracle Qc_field := fun _ => Ok (I2, S0, I2).
Definition X0 : @matrix Qc_field := Mat 1 2 [[qnum 1 1; qnum 0 1]].
Definition Y0 : @matrix Qc_field := Mat 1 2 [[qnum 1 1; qnum 0 1]].

(** A label matrix of one row, against three samples. *)
Definition Yrow : @matrix Qc_field := Mat 1 2 [[qnum 1 1; qnum 0 1]].

End Example.

(** A store for the frame property. *)
Module FrameExample.

(** A store holding the three inputs of [Example] as contiguous
    tensors. *)
Definition h0 : @heap Qc_field :=
  [flatten Example.W; flatten Example.X; flatten Example.Y].
Definition W : view2 := View2 0 0 2 2 2 1.
Definition X : view2 := View2 1 0 3 2 2 1.
Definition Y : view2 := View2 2 0 3 2 2 1.

End FrameExample.

(** A literal 4-by-3 instance. *)
Module Example43.

Import Example.

(** A literal 4-by-3 matrix with singular values 3, 2, 1. *)
Definition W : @matrix Qc_field :=
  Mat 4 3 [[qnum 1 10; qnum 9 5; qnum 1 2];
           [qnum 17 10; qnum 3 5; qnum 1 2];
           [qnum 1 10; qnum 9 5; qnum (-1) 2];
           [qnum 17 10; qnum 3 5; qnum (-1) 2]].
Definition U : @matrix Qc_field :=
  Mat 4 3 [[qnum 1 2; qnum 1 2; qnum 1 2];
           [qnum 1 2; qnum (-1) 2; qnum 1 2];
           [qnum 1 2; qnum 1 2; qnum (-1) 2];
           [qnum 1 2; qnum (-1) 2; qnum (-1) 2]].
Definition S : @vector Qc_field := [qnum 3 1; qnum 2 1; qnum 1 1].
Definition Vh : @matrix Qc_field :=
  Mat 3 3 [[qnum 3 5; qnum 4 5; qnum 0 1];
           [qnum (-4) 5; qnum 3 5; qnum 0 1];
           [qnum 0 1; qnum 0 1; qnum 1 1]].
Definition svd : @svd_oracle Qc_field := fun _ => Ok (U, S, Vh).
Definition X : @matrix Qc_field :=
  Mat 2 4 [[qnum 1 1; qnum 0 1; qnum 2 1; qnum 0 1];
           [qnum 0 1; qnum 1 1; qnum 0 1; qnum 1 1]].
Definition Y : @matrix Qc_field :=
  Mat 2 3 [[qnum 1 1; qnum 0 1; qnum 1 1];
           [qnum 0 1; qnum 1 1; qnum 0 1]].

End Example43.

(** Variations on the worked instance. *)
Module Variations.

Import Example.

(** The same singular vectors with another second singular value. *)
Definition S' : @vector Qc_field := [qnum 2 1; qnum 1 2].
Definition W' : @matrix Qc_field := mmul (mmul U (mdiag S')) Vh.
Definition svd' : @svd_oracle Qc_field := fun _ => Ok (U, S', Vh).

(** The other sign of the second pair of singular vectors. *)
Definition d : @vector Qc_field := [qnum 1 1; qnum (-1) 1].
Definition svd_flipped : @svd_oracle Qc_field :=
  fun _ => Ok (mmul U (mdiag d), S, mmul (mdiag d) Vh).

(** Labels that a matrix with the singular vectors of [W], its first
    singular value and the second singular value 3 explains exactly. *)
Definition s : @vector Qc_field := [qnum 3 1].
Definition Wstar : @matrix Qc_field := mmul (mmul U (mdiag (vtake S 1 ++ s))) Vh.
Definition Yclean : @matrix Qc_field := mmul X Wstar.

(** A dataset with no sample. *)
Definition Xnone : @matrix Qc_field := Mat 0 2 [].
Definition Ynone : @matrix Qc_field := Mat 0 2 [].

(** A store where the feature matrix is a transposed view of a 2-by-3
    tensor, and the label matrix reads the same storage row by row. *)
Definition h1 : @heap Qc_field := [flatten W; flatten (mT X)].
Definition Wview : view2 := View2 0 0 2 2 2 1.
Definition Xview : view2 := View2 1 0 3 2 1 3.
Definition Yview : view2 := View2 1 0 3 2 2 1.

End Variations.

(* ================================================================= *)
(** * Basic facts: tabulation, slices, shapes *)

Lemma length_tab {A} (n : nat) (f : nat -> A) : length (tab n f) = n.
Proof. unfold tab. rewrite length_map, length_seq. reflexivity. Qed.

Lemma nth_tab {A} (n : nat) (f : nat -> A) (i : nat) (d : A) :
  i < n -> nth i (tab n f) d = f i.
Proof.
  intros Hi. unfold tab.
  rewrite (nth_indep _ d (f 0)) by (rewrite length_map, length_seq; exact Hi).
  rewrite map_nth, seq_nth by exact Hi. reflexivity.
Qed.

Lemma tab_ext {A} (n : nat) (f g : nat -> A) :
  (forall i, i < n -> f i = g i) -> tab n f = tab n g.
Proof.
  intros H. unfold tab. apply map_ext_in.
  intros i Hi. apply in_seq in Hi. apply H. lia.
Qed.

Lemma tab_nth {A} (l : list A) (d : A) : tab (length l) (fun i => nth i l d) = l.
Proof.
  apply nth_ext with (d := d) (d' := d).
  - apply length_tab.
  - intros i Hi. rewrite length_tab in Hi. rewrite nth_tab by exact Hi. reflexivity.
Qed.

Lemma slice_index_le (k : Z) (len : nat) : slice_index k len <= len.
Proof. unfold slice_index. destruct (k <? 0)%Z eqn:E; lia. Qed.

Lemma slice_index_in_range (k : Z) (len : nat) :
  (0 <= k <= Z.of_nat len)%Z -> slice_index k len = Z.to_nat k.
Proof. unfold slice_index. destruct (k <? 0)%Z eqn:E; lia. Qed.

Lemma slice_index_above (k : Z) (len : nat) :
  (Z.of_nat len <= k)%Z -> slice_index k len = len.
Proof. unfold slice_index. destruct (k <? 0)%Z eqn:E; lia. Qed.

Lemma slice_index_negative (k : Z) (len : nat) :
  (k < 0)%Z -> slice_index k len = Z.to_nat (k + Z.of_nat len).
Proof. unfold slice_index. destruct (k <? 0)%Z eqn:E; lia. Qed.

Lemma slice_index_0 (len : nat) : slice_index 0 len = 0.
Proof. apply slice_index_in_range. lia. Qed.

(** A slice bound only matters through its normal form. *)
Lemma slice_index_idem (k : Z) (len : nat) :
  slice_index (Z.of_nat (slice_index k len)) len = slice_index k len.
Proof.
  pose proof (slice_index_le k len).
  rewrite slice_index_in_range by lia. lia.
Qed.

Section TensorFacts.
Context {OF : OrderedField}.

Lemma mget_mtab (r c : nat) (f : nat -> nat -> scalar) (i j : nat) :
  i < r -> j < c -> mget (mtab r c f) i j = f i j.
Proof.
  intros Hi Hj. unfold mget, mtab. cbn [rowsof].
  rewrite nth_tab by exact Hi. apply nth_tab. exact Hj.
Qed.

Lemma mtab_ext (r c : nat) (f g : nat -> nat -> scalar) :
  (forall i j, i < r -> j < c -> f i j = g i j) -> mtab r c f = mtab r c g.
Proof.
  intros H. unfold mtab. f_equal.
  apply tab_ext. intros i Hi. apply tab_ext. intros j Hj. apply H; assumption.
Qed.

Lemma wf_mtab (r c : nat) (f : nat -> nat -> scalar) : wf_matrix (mtab r c f).
Proof.
  unfold wf_matrix. cbn [nrows ncols mtab]. apply mtab_ext.
  intros i j Hi Hj. symmetry. apply mget_mtab; assumption.
Qed.

(** Two well-formed matrices of one shape with the same entries are
    equal. *)
Lemma matrix_ext (a b : matrix) :
  wf_matrix a -> wf_matrix b ->
  nrows a = nrows b -> ncols a = ncols b ->
  (forall i j, i < nrows a -> j < ncols a -> mget a i j = mget b i j) ->
  a = b.
Proof.
  intros Ha Hb Hr Hc H. rewrite Ha, Hb, <- Hr, <- Hc. apply mtab_ext. exact H.
Qed.

Lemma vget_tab (n : nat) (f : nat -> scalar) (i : nat) :
  i < n -> vget (tab n f) i = f i.
Proof. intros Hi. unfold vget. apply nth_tab. exact Hi. Qed.

Lemma length_vtake (v : vector) (k : Z) :
  length (vtake v k) = slice_index k (length v).
Proof.
  unfold vtake. rewrite length_firstn.
  pose proof (slice_index_le k (length v)). lia.
Qed.

Lemma vget_vtake (v : vector) (k : Z) (i : nat) :
  i < slice_index k (length v) -> vget (vtake v k) i = vget v i.
Proof.
  intros Hi. unfold vget, vtake. rewrite nth_firstn.
  apply Nat.ltb_lt in Hi. rewrite Hi. reflexivity.
Qed.

(** ** Shapes *)

Lemma nrows_mtab (r c : nat) (f : nat -> nat -> scalar) : nrows (mtab r c f) = r.
Proof. reflexivity. Qed.
Lemma ncols_mtab (r c : nat) (f : nat -> nat -> scalar) : ncols (mtab r c f) = c.
Proof. reflexivity. Qed.
Lemma nrows_mT (m : matrix) : nrows (mT m) = ncols m.
Proof. reflexivity. Qed.
Lemma ncols_mT (m : matrix) : ncols (mT m) = nrows m.
Proof. reflexivity. Qed.
Lemma nrows_mcols_to (m : matrix) (k : Z) : nrows (mcols_to m k) = nrows m.
Proof. reflexivity. Qed.
Lemma ncols_mcols_to (m : matrix) (k : Z) :
  ncols (mcols_to m k) = slice_index k (ncols m).
Proof. reflexivity. Qed.
Lemma nrows_mcols_from (m : matrix) (k : Z) : nrows (mcols_from m k) = nrows m.
Proof. reflexivity. Qed.
Lemma ncols_mcols_from (m : matrix) (k : Z) :
  ncols (mcols_from m k) = ncols m - slice_index k (ncols m).
Proof. reflexivity. Qed.
Lemma nrows_mdiag (v : vector) : nrows (mdiag v) = length v.
Proof. reflexivity. Qed.
Lemma ncols_mdiag (v : vector) : ncols (mdiag v) = length v.
Proof. reflexivity. Qed.
Lemma nrows_mmul (a b : matrix) : nrows (mmul a b) = nrows a.
Proof. reflexivity. Qed.
Lemma ncols_mmul (a b : matrix) : ncols (mmul a b) = ncols b.
Proof. reflexivity. Qed.
Lemma nrows_msub (a b : matrix) : nrows (msub a b) = nrows a.
Proof. reflexivity. Qed.
Lemma ncols_msub (a b : matrix) : ncols (msub a b) = ncols a.
Proof. reflexivity. Qed.
Lemma nrows_madd (a b : matrix) : nrows (madd a b) = nrows a.
Proof. reflexivity. Qed.
Lemma ncols_madd (a b : matrix) : ncols (madd a b) = ncols a.
Proof. reflexivity. Qed.
Lemma nrows_mzero (r c : nat) : nrows (mzero r c) = r.
Proof. reflexivity. Qed.
Lemma ncols_mzero (r c : nat) : ncols (mzero r c) = c.
Proof. reflexivity. Qed.
Lemma nrows_midentity (n : nat) : nrows (midentity n) = n.
Proof. reflexivity. Qed.
Lemma ncols_midentity (n : nat) : ncols (midentity n) = n.
Proof. reflexivity. Qed.

(** ** When the shape checks pass *)

Lemma matmul_v_ok (a b : matrix) :
  ncols a = nrows b -> matmul_v a b = Ok (mmul a b).
Proof. intros H. unfold matmul_v. rewrite H, Nat.eqb_refl. reflexivity. Qed.

Lemma matmul_v_raise (a b : matrix) :
  ncols a <> nrows b -> matmul_v a b = Raise ShapeError.
Proof.
  intros H. unfold matmul_v. apply Nat.eqb_neq in H. rewrite H. reflexivity.
Qed.

Lemma bdim_same (n : nat) : bdim n n = Ok n.
Proof. unfold bdim. rewrite Nat.eqb_refl. reflexivity. Qed.

Lemma bget_in_range (m : matrix) (i j : nat) :
  i < nrows m -> j < ncols m -> bget m i j = mget m i j.
Proof.
  intros Hi Hj. unfold bget.
  destruct (nrows m =? 1) eqn:Er; destruct (ncols m =? 1) eqn:Ec;
    try apply Nat.eqb_eq in Er; try apply Nat.eqb_eq in Ec;
    f_equal; lia.
Qed.

Lemma bdim_raise (a b : nat) (e : exn) : bdim a b = Raise e -> e = ShapeError.
Proof.
  unfold bdim. destruct (a =? b), (a =? 1), (b =? 1); intros H;
    try discriminate H; congruence.
Qed.

Lemma bdim_ok (a b r : nat) :
  bdim a b = Ok r -> (a = b /\ r = a) \/ (a = 1 /\ r = b) \/ (b = 1 /\ r = a).
Proof.
  unfold bdim.
  destruct (a =? b) eqn:E1; [apply Nat.eqb_eq in E1; intros H; left; split; congruence|].
  destruct (a =? 1) eqn:E2;
    [apply Nat.eqb_eq in E2; intros H; right; left; split; congruence|].
  destruct (b =? 1) eqn:E3;
    [apply Nat.eqb_eq in E3; intros H; right; right; split; congruence|].
  intros H. discriminate H.
Qed.

(** Broadcasting an operand to the shape of the other one. *)
Lemma bdim_broadcast (a n : nat) :
  (a =? n) || (a =? 1) = true -> bdim a n = Ok n.
Proof.
  unfold bdim. intros H. destruct (a =? n) eqn:E1.
  - apply Nat.eqb_eq in E1. congruence.
  - cbn in H. rewrite H. reflexivity.
Qed.

Lemma mzip_raise (op : scalar -> scalar -> scalar) (a b : matrix) (e : exn) :
  mzip op a b = Raise e -> e = ShapeError.
Proof.
  unfold mzip.
  destruct (bdim (nrows a) (nrows b)) as [r|e1] eqn:E1;
    destruct (bdim (ncols a) (ncols b)) as [c|e2] eqn:E2; intros H;
    try discriminate H; injection H as <-;
    first [eapply bdim_raise, E1 | eapply bdim_raise, E2].
Qed.

Lemma mzip_broadcast (op : scalar -> scalar -> scalar) (a b : matrix) :
  broadcasts_to a (nrows b) (ncols b) = true ->
  mzip op a b = mzip op (mbroadcast a (nrows b) (ncols b)) b.
Proof.
  unfold broadcasts_to. rewrite andb_true_iff. intros [Hr Hc].
  unfold mzip. cbn [nrows ncols mbroadcast mtab].
  rewrite (bdim_broadcast _ _ Hr), (bdim_broadcast _ _ Hc), !bdim_same.
  f_equal. apply mtab_ext. intros i j Hi Hj. f_equal.
  change (mtab (nrows b) (ncols b) (bget a)) with (mbroadcast a (nrows b) (ncols b)).
  rewrite (@bget_in_range (mbroadcast a (nrows b) (ncols b))) by assumption.
  unfold mbroadcast. rewrite mget_mtab by assumption. reflexivity.
Qed.

Lemma mzip_same_shape (op : scalar -> scalar -> scalar) (a b : matrix) :
  nrows a = nrows b -> ncols a = ncols b ->
  mzip op a b =
  Ok (mtab (nrows a) (ncols a) (fun i j => op (mget a i j) (mget b i j))).
Proof.
  intros Hr Hc. unfold mzip. rewrite <- Hr, <- Hc, !bdim_same. f_equal.
  apply mtab_ext. intros i j Hi Hj.
  rewrite !bget_in_range by lia. reflexivity.
Qed.

Lemma msub_v_ok (a b : matrix) :
  nrows a = nrows b -> ncols a = ncols b -> msub_v a b = Ok (msub a b).
Proof. apply mzip_same_shape. Qed.

Lemma madd_v_ok (a b : matrix) :
  nrows a = nrows b -> ncols a = ncols b -> madd_v a b = Ok (madd a b).
Proof. apply mzip_same_shape. Qed.

Lemma combine_seq_diag (s n : nat) :
  combine (seq s n) (seq s n) = map (fun i => (i, i)) (seq s n).
Proof.
  revert s. induction n as [|n IH]; intros s; cbn; [reflexivity|].
  rewrite IH. reflexivity.
Qed.

Lemma forallb_seq_ltb (n b : nat) :
  n <= b -> forallb (fun i => i <? b) (seq 0 n) = true.
Proof.
  intros H. apply forallb_forall. intros i Hi. apply in_seq in Hi.
  apply Nat.ltb_lt. lia.
Qed.

Lemma length_diag_of (n : nat) (m : matrix) : length (diag_of n m) = n.
Proof. apply length_tab. Qed.

Lemma index2_v_diag (m : matrix) (n : nat) :
  n <= nrows m -> n <= ncols m ->
  index2_v m (arange_v n) (arange_v n) = Ok (diag_of n m).
Proof.
  intros Hr Hc. unfold index2_v, arange_v, diag_of, tab.
  rewrite Nat.eqb_refl. cbn [negb].
  rewrite !forallb_seq_ltb by assumption. cbn [andb].
  rewrite combine_seq_diag, map_map. reflexivity.
Qed.

Lemma index2_v_diag_raise (m : matrix) (n : nat) :
  n <= nrows m -> ncols m < n ->
  index2_v m (arange_v n) (arange_v n) = Raise IndexError.
Proof.
  intros Hr Hc. unfold index2_v, arange_v.
  rewrite Nat.eqb_refl. cbn [negb].
  rewrite forallb_seq_ltb by assumption. cbn [andb].
  destruct (forallb (fun j => j <? ncols m) (seq 0 n)) eqn:E; [|reflexivity].
  rewrite forallb_forall in E. specialize (E (ncols m)).
  rewrite Nat.ltb_irrefl in E. discriminate E. apply in_seq. lia.
Qed.

Lemma vdiv_v_same_length (a b : vector) :
  length a = length b ->
  vdiv_v a b = Ok (tab (length a) (fun i => sdiv (vget a i) (vget b i))).
Proof.
  intros H. unfold vdiv_v. rewrite <- H, bdim_same. f_equal.
  apply tab_ext. intros i Hi.
  destruct (length a =? 1) eqn:E; [|reflexivity].
  apply Nat.eqb_eq in E. replace i with 0 by lia. reflexivity.
Qed.

(** The ratio of the diagonals, as line 41 computes it. *)
Lemma vdiv_v_diag (n : nat) (a b : matrix) :
  vdiv_v (diag_of n a) (diag_of n b) =
  Ok (tab n (fun i => sdiv (mget a i i) (mget b i i))).
Proof.
  rewrite vdiv_v_same_length by (rewrite !length_diag_of; reflexivity).
  rewrite length_diag_of. f_equal. apply tab_ext. intros i Hi.
  unfold diag_of. rewrite !vget_tab by exact Hi. reflexivity.
Qed.

End TensorFacts.

Create Rewrite HintDb shape.
#[export] Hint Rewrite @nrows_mtab @ncols_mtab @nrows_mT @ncols_mT
  @nrows_mcols_to @ncols_mcols_to @nrows_mcols_from @ncols_mcols_from
  @nrows_mdiag @ncols_mdiag @nrows_mmul @ncols_mmul @nrows_msub @ncols_msub
  @nrows_madd @ncols_madd @nrows_mzero @ncols_mzero @nrows_midentity
  @ncols_midentity @length_diag_of @length_vtake @length_tab
  slice_index_0 : shape.

(** Solves an equation or inequality between shapes. *)
Ltac shape := autorewrite with shape; first [ lia | congruence ].

(* ================================================================= *)
(** * Arithmetic of the entries *)

Section ScalarFacts.
Context {OF : OrderedField}.

Add Field F_field : Fth.

Lemma Feqb_refl (x : F) : (x =? x)%F = true.
Proof. apply Feqb_spec. reflexivity. Qed.

Lemma Feqb_neq (x y : F) : x <> y -> (x =? y)%F = false.
Proof.
  intros H. destruct (x =? y)%F eqn:E; [|reflexivity].
  apply Feqb_spec in E. contradiction.
Qed.

Lemma Feqb_false (x y : F) : (x =? y)%F = false -> x <> y.
Proof. intros E H. apply Feqb_spec in H. rewrite H in E. discriminate E. Qed.

Lemma sadd_0_r (a : scalar) : sadd a (Num 0%F) = a.
Proof. destruct a; cbn; try reflexivity. f_equal. ring. Qed.

Lemma sadd_0_l (a : scalar) : sadd (Num 0%F) a = a.
Proof. destruct a; cbn; try reflexivity. f_equal. ring. Qed.

(** A special value absorbs: the result of an operation on it is special. *)
Lemma sadd_special_l (a b : scalar) :
  is_finite a = false -> is_finite (sadd a b) = false.
Proof.
  destruct a as [x|s|]; intros H; try discriminate H;
    destruct b as [y|t|]; cbn; try reflexivity.
  destruct (eqb s t); reflexivity.
Qed.

Lemma sadd_special_r (a b : scalar) :
  is_finite b = false -> is_finite (sadd a b) = false.
Proof.
  destruct b as [y|t|]; intros H; try discriminate H;
    destruct a as [x|s|]; cbn; try reflexivity.
  destruct (eqb s t); reflexivity.
Qed.

Lemma smul_special_l (a b : scalar) :
  is_finite a = false -> is_finite (smul a b) = false.
Proof.
  destruct a as [x|s|]; intros H; try discriminate H;
    destruct b as [y|t|]; cbn; try reflexivity.
  destruct (y =? 0)%F; reflexivity.
Qed.

Lemma smul_special_r (a b : scalar) :
  is_finite b = false -> is_finite (smul a b) = false.
Proof.
  destruct b as [y|t|]; intros H; try discriminate H;
    destruct a as [x|s|]; cbn; try reflexivity.
  destruct (x =? 0)%F; reflexivity.
Qed.

(** Division by a zero entry yields a special value. *)
Lemma sdiv_zero (a : scalar) : is_finite (sdiv a (Num 0%F)) = false.
Proof.
  destruct a as [x|s|]; cbn; try reflexivity.
  rewrite Feqb_refl. destruct (x =? 0)%F; reflexivity.
Qed.

Lemma sdiv_num (x y : F) : y <> 0%F -> sdiv (Num x) (Num y) = Num (x / y)%F.
Proof. intros H. cbn. rewrite (Feqb_neq H). reflexivity. Qed.

Lemma ssum_ext (n : nat) (f g : nat -> scalar) :
  (forall t, t < n -> f t = g t) -> ssum n f = ssum n g.
Proof.
  induction n as [|n IH]; intros H; cbn; [reflexivity|].
  rewrite IH, H by (intros; try apply H; lia). reflexivity.
Qed.

Lemma ssum_num (n : nat) (f : nat -> scalar) (g : nat -> F) :
  (forall t, t < n -> f t = Num (g t)) -> ssum n f = Num (Fsum n g).
Proof.
  induction n as [|n IH]; intros H; cbn; [reflexivity|].
  rewrite IH, H by (intros; try apply H; lia). reflexivity.
Qed.

Lemma ssum_special (n : nat) (f : nat -> scalar) (t : nat) :
  t < n -> is_finite (f t) = false -> is_finite (ssum n f) = false.
Proof.
  induction n as [|n IH]; intros Ht Hf; [lia|]. cbn.
  destruct (Nat.eq_dec t n) as [->|Hne].
  - apply sadd_special_r. exact Hf.
  - apply sadd_special_l. apply IH; [lia | exact Hf].
Qed.

(** ** Sums in the field *)

Lemma Fsum_ext (n : nat) (f g : nat -> F) :
  (forall t, t < n -> f t = g t) -> Fsum n f = Fsum n g.
Proof.
  induction n as [|n IH]; intros H; cbn; [reflexivity|].
  rewrite IH, H by (intros; try apply H; lia). reflexivity.
Qed.

Lemma Fsum_zero (n : nat) (f : nat -> F) :
  (forall t, t < n -> f t = 0%F) -> Fsum n f = 0%F.
Proof.
  induction n as [|n IH]; intros H; cbn; [reflexivity|].
  rewrite IH, H by (intros; try apply H; lia). ring.
Qed.

Lemma Fsum_add (n : nat) (f g : nat -> F) :
  Fsum n (fun t => f t + g t)%F = (Fsum n f + Fsum n g)%F.
Proof. induction n as [|n IH]; cbn; [ring|]. rewrite IH. ring. Qed.

Lemma Fsum_sub (n : nat) (f g : nat -> F) :
  Fsum n (fun t => f t - g t)%F = (Fsum n f - Fsum n g)%F.
Proof. induction n as [|n IH]; cbn; [ring|]. rewrite IH. ring. Qed.

Lemma Fsum_scale_l (n : nat) (c : F) (f : nat -> F) :
  Fsum n (fun t => c * f t)%F = (c * Fsum n f)%F.
Proof. induction n as [|n IH]; cbn; [ring|]. rewrite IH. ring. Qed.

Lemma Fsum_scale_r (n : nat) (c : F) (f : nat -> F) :
  Fsum n (fun t => f t * c)%F = (Fsum n f * c)%F.
Proof. induction n as [|n IH]; cbn; [ring|]. rewrite IH. ring. Qed.

Lemma Fsum_swap (n m : nat) (f : nat -> nat -> F) :
  Fsum n (fun i => Fsum m (fun j => f i j)) =
  Fsum m (fun j => Fsum n (fun i => f i j)).
Proof.
  induction n as [|n IH]; cbn.
  - symmetry. apply Fsum_zero. reflexivity.
  - rewrite IH, <- Fsum_add. reflexivity.
Qed.

Lemma Fsum_split (a b : nat) (f : nat -> F) :
  Fsum (a + b) f = (Fsum a f + Fsum b (fun t => f (a + t)%nat))%F.
Proof.
  induction b as [|b IH]; cbn.
  - rewrite Nat.add_0_r. ring.
  - rewrite Nat.add_succ_r. cbn. rewrite IH. ring.
Qed.

Lemma Fsum_split_at (a n : nat) (f : nat -> F) :
  a <= n -> Fsum n f = (Fsum a f + Fsum (n - a) (fun t => f (a + t)%nat))%F.
Proof.
  intros H. rewrite <- Fsum_split. f_equal. lia.
Qed.

(** A sum with a single non-zero term. *)
Lemma Fsum_single (n i : nat) (f : nat -> F) :
  i < n -> (forall t, t < n -> t <> i -> f t = 0%F) -> Fsum n f = f i.
Proof.
  induction n as [|n IH]; intros Hi H; [lia|]. cbn.
  destruct (Nat.eq_dec i n) as [->|Hne].
  - rewrite Fsum_zero by (intros; apply H; lia). ring.
  - rewrite IH by (try lia; intros; apply H; lia).
    rewrite (H n) by lia. ring.
Qed.

End ScalarFacts.

(* ================================================================= *)
(** * Matrices with finite entries *)

Section FiniteMatrices.
Context {OF : OrderedField}.

Add Field F_field' : Fth.

Lemma is_finite_num (a : scalar) : is_finite a = true -> a = Num (num_of a).
Proof. destruct a; intros H; try discriminate H. reflexivity. Qed.

Lemma finite_matrix_spec (m : matrix) :
  finite_matrix m <->
  (forall i j, i < nrows m -> j < ncols m -> is_finite (mget m i j) = true).
Proof.
  unfold finite_matrix. rewrite forallb_forall. split.
  - intros H i j Hi Hj.
    specialize (H i). rewrite forallb_forall in H.
    apply H; apply in_seq; lia.
  - intros H i Hi. apply forallb_forall. intros j Hj.
    apply in_seq in Hi, Hj. apply H; lia.
Qed.

Lemma finite_vector_spec (v : vector) :
  finite_vector v <-> (forall i, i < length v -> is_finite (vget v i) = true).
Proof.
  unfold finite_vector. rewrite forallb_forall. split.
  - intros H i Hi. apply H. unfold vget. apply nth_In. exact Hi.
  - intros H a Ha. destruct (In_nth _ _ (Num 0%F) Ha) as [i [Hi <-]].
    apply H. exact Hi.
Qed.

Lemma mget_finite (m : matrix) (i j : nat) :
  finite_matrix m -> i < nrows m -> j < ncols m -> mget m i j = Num (rget m i j).
Proof.
  intros H Hi Hj. apply is_finite_num. apply finite_matrix_spec; assumption.
Qed.

Lemma vget_finite (v : vector) (i : nat) :
  finite_vector v -> i < length v -> vget v i = Num (rvget v i).
Proof. intros H Hi. apply is_finite_num. apply finite_vector_spec; assumption. Qed.

(** A tabulated matrix whose entries are given finite values. *)
Lemma finite_mtab (r c : nat) (f : nat -> nat -> scalar) :
  (forall i j, i < r -> j < c -> is_finite (f i j) = true) ->
  finite_matrix (mtab r c f).
Proof.
  intros H. apply finite_matrix_spec. cbn [nrows ncols mtab].
  intros i j Hi Hj. rewrite mget_mtab by assumption. apply H; assumption.
Qed.

Lemma finite_tab (n : nat) (f : nat -> scalar) :
  (forall i, i < n -> is_finite (f i) = true) -> finite_vector (tab n f).
Proof.
  intros H. apply finite_vector_spec. rewrite length_tab.
  intros i Hi. rewrite vget_tab by exact Hi. apply H. exact Hi.
Qed.

(** ** Entries of the operations *)

Lemma mget_mmul (a b : matrix) (i j : nat) :
  i < nrows a -> j < ncols b ->
  mget (mmul a b) i j = ssum (ncols a) (fun t => smul (mget a i t) (mget b t j)).
Proof. intros Hi Hj. unfold mmul. rewrite mget_mtab by assumption. reflexivity. Qed.

Lemma mget_mT (m : matrix) (i j : nat) :
  i < ncols m -> j < nrows m -> mget (mT m) i j = mget m j i.
Proof. intros Hi Hj. unfold mT. rewrite mget_mtab by assumption. reflexivity. Qed.

Lemma mget_mcols_to (m : matrix) (k : Z) (i j : nat) :
  i < nrows m -> j < slice_index k (ncols m) -> mget (mcols_to m k) i j = mget m i j.
Proof. intros Hi Hj. unfold mcols_to. rewrite mget_mtab by assumption. reflexivity. Qed.

Lemma mget_mcols_from (m : matrix) (k : Z) (i j : nat) :
  i < nrows m -> j < ncols m - slice_index k (ncols m) ->
  mget (mcols_from m k) i j = mget m i (slice_index k (ncols m) + j).
Proof. intros Hi Hj. unfold mcols_from. rewrite mget_mtab by assumption. reflexivity. Qed.

Lemma mget_mdiag (v : vector) (i j : nat) :
  i < length v -> j < length v ->
  mget (mdiag v) i j = if i =? j then vget v i else Num 0%F.
Proof. intros Hi Hj. unfold mdiag. rewrite mget_mtab by assumption. reflexivity. Qed.

Lemma mget_msub (a b : matrix) (i j : nat) :
  i < nrows a -> j < ncols a ->
  mget (msub a b) i j = ssub (mget a i j) (mget b i j).
Proof. intros Hi Hj. unfold msub. rewrite mget_mtab by assumption. reflexivity. Qed.

Lemma mget_madd (a b : matrix) (i j : nat) :
  i < nrows a -> j < ncols a ->
  mget (madd a b) i j = sadd (mget a i j) (mget b i j).
Proof. intros Hi Hj. unfold madd. rewrite mget_mtab by assumption. reflexivity. Qed.

(** ** Finiteness is preserved by everything but the division *)

Lemma finite_mT (m : matrix) : finite_matrix m -> finite_matrix (mT m).
Proof.
  intros H. apply finite_mtab. intros i j Hi Hj.
  apply finite_matrix_spec; assumption.
Qed.

Lemma finite_mcols_to (m : matrix) (k : Z) :
  finite_matrix m -> finite_matrix (mcols_to m k).
Proof.
  intros H. apply finite_mtab. intros i j Hi Hj.
  pose proof (slice_index_le k (ncols m)).
  apply finite_matrix_spec; [assumption | | ]; lia.
Qed.

Lemma finite_mcols_from (m : matrix) (k : Z) :
  finite_matrix m -> finite_matrix (mcols_from m k).
Proof.
  intros H. apply finite_mtab. intros i j Hi Hj.
  apply finite_matrix_spec; [assumption | | ]; lia.
Qed.

Lemma finite_vtake (v : vector) (k : Z) : finite_vector v -> finite_vector (vtake v k).
Proof.
  intros H. apply finite_vector_spec. rewrite length_vtake.
  intros i Hi. rewrite vget_vtake by exact Hi.
  pose proof (slice_index_le k (length v)).
  apply finite_vector_spec; [exact H | lia].
Qed.

Lemma finite_mdiag (v : vector) : finite_vector v -> finite_matrix (mdiag v).
Proof.
  intros H. apply finite_mtab. intros i j Hi Hj.
  destruct (i =? j); [|reflexivity].
  apply finite_vector_spec; assumption.
Qed.

Lemma finite_mmul (a b : matrix) :
  finite_matrix a -> finite_matrix b -> ncols a = nrows b ->
  finite_matrix (mmul a b).
Proof.
  intros Ha Hb Hs. apply finite_mtab. intros i j Hi Hj.
  rewrite (ssum_num _ (fun t => (rget a i t * rget b t j)%F)); [reflexivity|].
  intros t Ht. rewrite (mget_finite Ha), (mget_finite Hb) by lia. reflexivity.
Qed.

Lemma finite_msub (a b : matrix) :
  finite_matrix a -> finite_matrix b -> nrows a = nrows b -> ncols a = ncols b ->
  finite_matrix (msub a b).
Proof.
  intros Ha Hb Hr Hc. apply finite_mtab. intros i j Hi Hj.
  rewrite (mget_finite Ha), (mget_finite Hb) by lia. reflexivity.
Qed.

Lemma finite_madd (a b : matrix) :
  finite_matrix a -> finite_matrix b -> nrows a = nrows b -> ncols a = ncols b ->
  finite_matrix (madd a b).
Proof.
  intros Ha Hb Hr Hc. apply finite_mtab. intros i j Hi Hj.
  rewrite (mget_finite Ha), (mget_finite Hb) by lia. reflexivity.
Qed.

(** ** The finite values of the entries *)

Lemma rget_mmul (a b : matrix) (i j : nat) :
  finite_matrix a -> finite_matrix b -> ncols a = nrows b ->
  i < nrows a -> j < ncols b ->
  rget (mmul a b) i j = Fsum (ncols a) (fun t => rget a i t * rget b t j)%F.
Proof.
  intros Ha Hb Hs Hi Hj. unfold rget at 1. rewrite mget_mmul by assumption.
  rewrite (ssum_num _ (fun t => (rget a i t * rget b t j)%F)); [reflexivity|].
  intros t Ht. rewrite (mget_finite Ha), (mget_finite Hb) by lia. reflexivity.
Qed.

Lemma rget_mT (m : matrix) (i j : nat) :
  i < ncols m -> j < nrows m -> rget (mT m) i j = rget m j i.
Proof. intros Hi Hj. unfold rget. rewrite mget_mT by assumption. reflexivity. Qed.

Lemma rget_mcols_to (m : matrix) (k : Z) (i j : nat) :
  i < nrows m -> j < slice_index k (ncols m) -> rget (mcols_to m k) i j = rget m i j.
Proof. intros Hi Hj. unfold rget. rewrite mget_mcols_to by assumption. reflexivity. Qed.

Lemma rget_mcols_from (m : matrix) (k : Z) (i j : nat) :
  i < nrows m -> j < ncols m - slice_index k (ncols m) ->
  rget (mcols_from m k) i j = rget m i (slice_index k (ncols m) + j).
Proof. intros Hi Hj. unfold rget. rewrite mget_mcols_from by assumption. reflexivity. Qed.

Lemma rget_mdiag (v : vector) (i j : nat) :
  i < length v -> j < length v ->
  rget (mdiag v) i j = if i =? j then rvget v i else 0%F.
Proof.
  intros Hi Hj. unfold rget, rvget. rewrite mget_mdiag by assumption.
  destruct (i =? j); reflexivity.
Qed.

Lemma rget_msub (a b : matrix) (i j : nat) :
  finite_matrix a -> finite_matrix b -> nrows a = nrows b -> ncols a = ncols b ->
  i < nrows a -> j < ncols a ->
  rget (msub a b) i j = (rget a i j - rget b i j)%F.
Proof.
  intros Ha Hb Hr Hc Hi Hj. unfold rget at 1. rewrite mget_msub by assumption.
  rewrite (mget_finite Ha), (mget_finite Hb) by lia. reflexivity.
Qed.

Lemma rget_madd (a b : matrix) (i j : nat) :
  finite_matrix a -> finite_matrix b -> nrows a = nrows b -> ncols a = ncols b ->
  i < nrows a -> j < ncols a ->
  rget (madd a b) i j = (rget a i j + rget b i j)%F.
Proof.
  intros Ha Hb Hr Hc Hi Hj. unfold rget at 1. rewrite mget_madd by assumption.
  rewrite (mget_finite Ha), (mget_finite Hb) by lia. reflexivity.
Qed.

Lemma rvget_vtake (v : vector) (k : Z) (i : nat) :
  i < slice_index k (length v) -> rvget (vtake v k) i = rvget v i.
Proof. intros Hi. unfold rvget. rewrite vget_vtake by exact Hi. reflexivity. Qed.

(** Two finite matrices of one shape with the same finite values are
    equal. *)
Lemma finite_matrix_ext (a b : matrix) :
  wf_matrix a -> wf_matrix b -> finite_matrix a -> finite_matrix b ->
  nrows a = nrows b -> ncols a = ncols b ->
  (forall i j, i < nrows a -> j < ncols a -> rget a i j = rget b i j) ->
  a = b.
Proof.
  intros Wa Wb Ha Hb Hr Hc H. apply matrix_ext; try assumption.
  intros i j Hi Hj.
  rewrite (mget_finite Ha), (mget_finite Hb) by lia. f_equal. apply H; assumption.
Qed.

End FiniteMatrices.

Create HintDb finite discriminated.
#[export] Hint Resolve finite_mT finite_mcols_to finite_mcols_from finite_vtake
  finite_mdiag : finite.
#[export] Hint Extern 1 (finite_matrix (mmul _ _)) =>
  apply finite_mmul; [ | | shape] : finite.
#[export] Hint Extern 1 (finite_matrix (msub _ _)) =>
  apply finite_msub; [ | | shape | shape] : finite.
#[export] Hint Extern 1 (finite_matrix (madd _ _)) =>
  apply finite_madd; [ | | shape | shape] : finite.

(** Solves a finiteness goal from the finiteness of the inputs. *)
Ltac finite := auto 12 with finite.

(** Reduces an equation between tabulated finite matrices to their
    entries. *)
Ltac finite_ext :=
  apply finite_matrix_ext;
  [ apply wf_mtab | apply wf_mtab | finite | finite | shape | shape | ].

(* ================================================================= *)
(** * Algebra of finite matrices *)

Section MatrixAlgebra.
Context {OF : OrderedField}.

Add Field F_field'' : Fth.

(** The product with a diagonal matrix in the middle. *)
Lemma rget_mmul_mdiag (a : matrix) (v : vector) (b : matrix) (i j : nat) :
  finite_matrix a -> finite_vector v -> finite_matrix b ->
  ncols a = length v -> nrows b = length v ->
  i < nrows a -> j < ncols b ->
  rget (mmul (mmul a (mdiag v)) b) i j =
  Fsum (length v) (fun t => rget a i t * rvget v t * rget b t j)%F.
Proof.
  intros Ha Hv Hb Hs1 Hs2 Hi Hj.
  assert (Hd : finite_matrix (mdiag v)) by finite.
  assert (Had : finite_matrix (mmul a (mdiag v))) by finite.
  rewrite rget_mmul by (try assumption; shape).
  rewrite ncols_mmul, ncols_mdiag.
  apply Fsum_ext. intros t Ht. f_equal.
  rewrite rget_mmul by (try assumption; shape).
  rewrite Hs1.
  rewrite (Fsum_single (i := t)).
  - rewrite rget_mdiag, Nat.eqb_refl by assumption. reflexivity.
  - exact Ht.
  - intros s Hs Hne. rewrite rget_mdiag by assumption.
    apply Nat.eqb_neq in Hne. rewrite Hne. ring.
Qed.

(** The product of finite matrices is associative. *)
Lemma mmul_assoc (a b c : matrix) :
  finite_matrix a -> finite_matrix b -> finite_matrix c ->
  ncols a = nrows b -> ncols b = nrows c ->
  mmul (mmul a b) c = mmul a (mmul b c).
Proof.
  intros Ha Hb Hc H1 H2. finite_ext.
  intros i j Hi Hj. rewrite nrows_mmul, ?nrows_mmul in Hi.
  rewrite ncols_mmul in Hj.
  rewrite !rget_mmul by (finite || shape).
  rewrite ncols_mmul.
  transitivity (Fsum (ncols b) (fun t =>
                  Fsum (ncols a) (fun s => rget a i s * rget b s t * rget c t j)%F)).
  - apply Fsum_ext. intros t Ht.
    rewrite rget_mmul by (try assumption; lia).
    rewrite <- Fsum_scale_r. reflexivity.
  - rewrite Fsum_swap. apply Fsum_ext. intros s Hs.
    rewrite rget_mmul by (try assumption; lia).
    rewrite <- Fsum_scale_l. apply Fsum_ext. intros t Ht. ring.
Qed.

(** ** Products and sums with an empty or zero factor *)

Lemma mmul_empty_inner (a b : matrix) :
  ncols a = 0 -> mmul a b = mzero (nrows a) (ncols b).
Proof.
  intros H. unfold mmul, mzero. apply mtab_ext. intros i j _ _.
  rewrite H. reflexivity.
Qed.

Lemma madd_mzero_r (a : matrix) :
  wf_matrix a -> madd a (mzero (nrows a) (ncols a)) = a.
Proof.
  intros Wa. apply matrix_ext; [apply wf_mtab | exact Wa | shape | shape |].
  intros i j Hi Hj. rewrite nrows_madd in Hi. rewrite ncols_madd in Hj.
  rewrite mget_madd by assumption. unfold mzero.
  rewrite mget_mtab by assumption. apply sadd_0_r.
Qed.

Lemma madd_mzero_l (r c : nat) (b : matrix) :
  wf_matrix b -> nrows b = r -> ncols b = c -> madd (mzero r c) b = b.
Proof.
  intros Wb Hr Hc. apply matrix_ext; [apply wf_mtab | exact Wb | shape | shape |].
  intros i j Hi Hj. rewrite nrows_madd, nrows_mzero in Hi.
  rewrite ncols_madd, ncols_mzero in Hj.
  rewrite mget_madd by shape. unfold mzero.
  rewrite mget_mtab by assumption. apply sadd_0_l.
Qed.

(** The product reads its factors through their entries in range. *)
Lemma mmul_ext (a a' b b' : matrix) :
  nrows a = nrows a' -> ncols a = ncols a' -> ncols b = ncols b' ->
  (forall i t, i < nrows a -> t < ncols a -> mget a i t = mget a' i t) ->
  (forall t j, t < ncols a -> j < ncols b -> mget b t j = mget b' t j) ->
  mmul a b = mmul a' b'.
Proof.
  intros Hr Hc Hc' Ha Hb. unfold mmul. rewrite <- Hr, <- Hc, <- Hc'.
  apply mtab_ext. intros i j Hi Hj. apply ssum_ext. intros t Ht.
  rewrite Ha, Hb by assumption. reflexivity.
Qed.

Lemma finite_mzero (r c : nat) : finite_matrix (mzero r c).
Proof. apply finite_mtab. reflexivity. Qed.

Lemma finite_midentity (n : nat) : finite_matrix (midentity n).
Proof. apply finite_mtab. intros i j _ _. destruct (i =? j); reflexivity. Qed.

Lemma rget_mzero (r c i j : nat) : i < r -> j < c -> rget (mzero r c) i j = 0%F.
Proof. intros Hi Hj. unfold rget, mzero. rewrite mget_mtab by assumption. reflexivity. Qed.

Lemma rget_midentity (n i j : nat) :
  i < n -> j < n -> rget (midentity n) i j = if i =? j then 1%F else 0%F.
Proof.
  intros Hi Hj. unfold rget, midentity. rewrite mget_mtab by assumption.
  destruct (i =? j); reflexivity.
Qed.

Lemma mmul_mzero_l (r c : nat) (b : matrix) :
  finite_matrix b -> c = nrows b -> mmul (mzero r c) b = mzero r (ncols b).
Proof.
  intros Hb Hc. pose proof (finite_mzero r c) as Hz.
  apply finite_matrix_ext;
    [apply wf_mtab | apply wf_mtab | finite | apply finite_mzero | shape | shape |].
  intros i j Hi Hj. rewrite nrows_mmul, nrows_mzero in Hi. rewrite ncols_mmul in Hj.
  rewrite rget_mmul by (assumption || shape).
  rewrite rget_mzero by assumption. rewrite ncols_mzero.
  apply Fsum_zero. intros t Ht. rewrite rget_mzero by assumption. ring.
Qed.

Lemma mmul_mzero_r (a : matrix) (r c : nat) :
  finite_matrix a -> ncols a = r -> mmul a (mzero r c) = mzero (nrows a) c.
Proof.
  intros Ha Hr. pose proof (finite_mzero r c) as Hz.
  apply finite_matrix_ext;
    [apply wf_mtab | apply wf_mtab | finite | apply finite_mzero | shape | shape |].
  intros i j Hi Hj. rewrite nrows_mmul in Hi. rewrite ncols_mmul, ncols_mzero in Hj.
  rewrite rget_mmul by (assumption || shape).
  rewrite rget_mzero by assumption.
  apply Fsum_zero. intros t Ht. rewrite rget_mzero by lia. ring.
Qed.

(** Orthonormal columns: the retained and the residual columns are
    orthogonal to each other. *)
Lemma orthonormal_columns (U : matrix) (a c : nat) :
  finite_matrix U -> mmul (mT U) U = midentity (ncols U) ->
  a < ncols U -> c < ncols U ->
  Fsum (nrows U) (fun i => rget U i a * rget U i c)%F = if a =? c then 1%F else 0%F.
Proof.
  intros HU Ho Ha Hc.
  rewrite <- (rget_midentity Ha Hc), <- Ho.
  rewrite rget_mmul by (finite || shape).
  rewrite ncols_mT. apply Fsum_ext. intros i Hi.
  rewrite rget_mT by assumption. reflexivity.
Qed.

Lemma kept_orthogonal_to_residual (U : matrix) (k : Z) :
  finite_matrix U -> mmul (mT U) U = midentity (ncols U) ->
  mmul (mT (mcols_to U k)) (mcols_from U k) =
  mzero (slice_index k (ncols U)) (ncols U - slice_index k (ncols U)).
Proof.
  intros HU Ho. pose proof (slice_index_le k (ncols U)) as Hle.
  assert (H1 : finite_matrix (mT (mcols_to U k))) by finite.
  assert (H2 : finite_matrix (mcols_from U k)) by finite.
  apply finite_matrix_ext;
    [apply wf_mtab | apply wf_mtab | finite | apply finite_mzero | shape | shape |].
  intros a t Ha Ht. autorewrite with shape in Ha, Ht.
  rewrite rget_mmul by (try assumption; shape).
  rewrite rget_mzero by assumption. autorewrite with shape.
  rewrite (Fsum_ext _ (fun i => rget U i a * rget U i (slice_index k (ncols U) + t))%F).
  - rewrite orthonormal_columns by (try assumption; lia).
    destruct (a =? slice_index k (ncols U) + t) eqn:E; [|reflexivity].
    apply Nat.eqb_eq in E. lia.
  - intros i Hi. rewrite rget_mT by shape.
    rewrite rget_mcols_to, rget_mcols_from by (try assumption; lia). reflexivity.
Qed.

End MatrixAlgebra.

#[export] Hint Resolve finite_mzero finite_midentity : finite.

(* ================================================================= *)
(** * Running [lip] on inputs of conforming shapes *)

(** One operation of [lip] whose shape check passes. *)
Ltac lip_step :=
  first [ rewrite matmul_v_ok by shape
        | rewrite msub_v_ok by shape
        | rewrite madd_v_ok by shape
        | rewrite index2_v_diag by shape
        | rewrite vdiv_v_diag ];
  cbn [rbind].

(** Unfolds [lip] on tensor values into its sequence of operations. *)
Ltac lip_unfold :=
  unfold lip_v, lip_locals, lip, lip_body;
  cbn [bind ret value_backend linalg_svd transpose cols_to cols_from take
       shape0 diag matmul sub add div arange index2 M].

Section Run.
Context {OF : OrderedField}.

Lemma lip_locals_run (svd : svd_oracle) (W X Y : matrix) (k : Z)
      (U : matrix) (S : vector) (Vh : matrix) :
  svd W = Ok (U, S, Vh) -> svd_shapes W U S Vh -> conforming W X Y ->
  lip_locals svd W X Y k = Ok (trace U S Vh X Y k).
Proof.
  intros Hsvd [HU1 HU2 HS HV1 HV2] [HX HY1 HY2].
  lip_unfold. rewrite Hsvd. cbn [rbind].
  assert (Hk : slice_index k (length S) = slice_index k (ncols U)) by congruence.
  assert (Hk' : slice_index k (nrows Vh) = slice_index k (ncols U)) by congruence.
  pose proof (slice_index_le k (ncols U)) as Hle.
  repeat lip_step.
  reflexivity.
Qed.

Lemma lip_v_locals (svd : svd_oracle) (W X Y : matrix) (k : Z) :
  lip_v svd W X Y k =
  rbind (lip_locals svd W X Y k) (fun l => Ok (l_W_refined l)).
Proof. reflexivity. Qed.

Lemma lip_v_run (svd : svd_oracle) (W X Y : matrix) (k : Z)
      (U : matrix) (S : vector) (Vh : matrix) :
  svd W = Ok (U, S, Vh) -> svd_shapes W U S Vh -> conforming W X Y ->
  lip_v svd W X Y k = Ok (l_W_refined (trace U S Vh X Y k)).
Proof.
  intros Hsvd Hsh Hc. rewrite lip_v_locals.
  rewrite (@lip_locals_run svd W X Y k U S Vh Hsvd Hsh Hc). reflexivity.
Qed.

(** The slices depend on the rank parameter through its normal form
    only. *)
Lemma trace_slice_index (U : matrix) (S : vector) (Vh X Y : matrix) (k k' : Z) :
  ncols U = length S -> nrows Vh = length S ->
  slice_index k (length S) = slice_index k' (length S) ->
  trace U S Vh X Y k = trace U S Vh X Y k'.
Proof.
  intros HU HV Hk.
  assert (E1 : mcols_to U k = mcols_to U k')
    by (unfold mcols_to; rewrite HU, Hk; reflexivity).
  assert (E2 : mcols_to (mT Vh) k = mcols_to (mT Vh) k')
    by (unfold mcols_to; rewrite ncols_mT, HV, Hk; reflexivity).
  assert (E3 : mcols_from U k = mcols_from U k')
    by (unfold mcols_from; rewrite HU, Hk; reflexivity).
  assert (E4 : mcols_from (mT Vh) k = mcols_from (mT Vh) k')
    by (unfold mcols_from; rewrite ncols_mT, HV, Hk; reflexivity).
  assert (E5 : vtake S k = vtake S k')
    by (unfold vtake; rewrite Hk; reflexivity).
  unfold trace. rewrite E1, E2, E3, E4, E5. reflexivity.
Qed.

End Run.

(* ================================================================= *)
(** * Decidable equality of tensor values *)

Section Equality.
Context {OF : OrderedField}.

Lemma list_eqb_eq {A} (eqb : A -> A -> bool) :
  (forall a a', eqb a a' = true -> a = a') ->
  forall l l', list_eqb eqb l l' = true -> l = l'.
Proof.
  intros H. induction l as [|a t IH]; intros [|a' t'] E; cbn in E;
    try discriminate E; [reflexivity|].
  apply andb_true_iff in E. destruct E as [E1 E2].
  f_equal; [apply H, E1 | apply IH, E2].
Qed.

Lemma scalar_eqb_eq (a b : scalar) : scalar_eqb a b = true -> a = b.
Proof.
  destruct a as [x|s|], b as [y|t|]; cbn; intros E; try discriminate E.
  - apply Feqb_spec in E. congruence.
  - apply eqb_prop in E. congruence.
  - reflexivity.
Qed.

Lemma vector_eqb_eq (v v' : vector) : vector_eqb v v' = true -> v = v'.
Proof. apply list_eqb_eq, scalar_eqb_eq. Qed.

Lemma matrix_eqb_eq (a b : matrix) : matrix_eqb a b = true -> a = b.
Proof.
  unfold matrix_eqb. rewrite !andb_true_iff, !Nat.eqb_eq.
  intros [[Hr Hc] E]. destruct a, b; cbn in *. subst. f_equal.
  revert E. apply list_eqb_eq. apply list_eqb_eq. apply scalar_eqb_eq.
Qed.

Lemma returns_eq (r : result matrix) (m : matrix) : returns r m = true -> r = Ok m.
Proof.
  destruct r as [a|e]; cbn; intros E; [|discriminate E].
  f_equal. apply matrix_eqb_eq, E.
Qed.

End Equality.

(* ================================================================= *)
(** * Facts about the worked instances *)

Module ExampleFacts.

Import Example.

Lemma svd_shapes_ok : svd_shapes W U S Vh.
Proof. constructor; reflexivity. Qed.

Lemma conforming_ok : conforming W X Y.
Proof. constructor; reflexivity. Qed.

Lemma svd_exact : W = mmul (mmul U (mdiag S)) Vh.
Proof. apply matrix_eqb_eq. vm_compute. reflexivity. Qed.

Lemma finite_inputs :
  finite_matrix U /\ finite_vector S /\ finite_matrix Vh /\
  finite_matrix X /\ finite_matrix Y.
Proof. repeat split; vm_compute; reflexivity. Qed.

Lemma orthonormal : mmul (mT U) U = midentity (ncols U).
Proof. apply matrix_eqb_eq. vm_compute. reflexivity. Qed.

Lemma nondegenerate_ok : nondegenerate U X 1.
Proof. vm_compute. reflexivity. Qed.

Lemma svd0_shapes_ok : svd_shapes W0 I2 S0 I2.
Proof. constructor; reflexivity. Qed.

Lemma conforming0_ok : conforming W0 X0 Y0.
Proof. constructor; reflexivity. Qed.

End ExampleFacts.

(* ================================================================= *)
(** * The shape checks along [lip] *)

Section ShapeChecks.
Context {OF : OrderedField}.

Variables (svd : svd_oracle) (W X Y U Vh : matrix) (S : vector) (k : Z).
Hypothesis Hsvd : svd W = Ok (U, S, Vh).
Hypothesis Hshapes : svd_shapes W U S Vh.

(** A feature matrix whose column count is not q is rejected by the first
    product that reads it, [X @ W_k]. *)
Lemma lip_rejects_X :
  ncols X <> nrows W -> lip_v svd W X Y k = Raise ShapeError.
Proof.
  intros HX. destruct Hshapes as [HU1 HU2 HS HV1 HV2].
  assert (Hk : slice_index k (length S) = slice_index k (ncols U)) by congruence.
  assert (Hk' : slice_index k (nrows Vh) = slice_index k (ncols U)) by congruence.
  lip_unfold. rewrite Hsvd. cbn [rbind].
  do 2 lip_step.
  rewrite matmul_v_raise by shape. reflexivity.
Qed.

(** A label matrix that cannot be broadcast to (n, l) is rejected, by the
    subtraction or by a later product. *)
Lemma lip_rejects_Y :
  ncols X = nrows W -> broadcasts_to Y (nrows X) (ncols W) = false ->
  lip_v svd W X Y k = Raise ShapeError.
Proof.
  intros HX HY. destruct Hshapes as [HU1 HU2 HS HV1 HV2].
  assert (Hk : slice_index k (length S) = slice_index k (ncols U)) by congruence.
  assert (Hk' : slice_index k (nrows Vh) = slice_index k (ncols U)) by congruence.
  pose proof (slice_index_le k (ncols U)) as Hle.
  lip_unfold. rewrite Hsvd. cbn [rbind].
  do 3 lip_step.
  unfold msub_v at 1.
  destruct (mzip ssub Y _) as [residual|e] eqn:Ez;
    [|cbn [rbind]; f_equal; eapply mzip_raise, Ez].
  unfold mzip in Ez. autorewrite with shape in Ez.
  destruct (bdim (nrows Y) (nrows X)) as [r'|] eqn:Er; [|discriminate Ez].
  destruct (bdim (ncols Y) (ncols Vh)) as [c'|] eqn:Ec; [|discriminate Ez].
  injection Ez as <-. cbn [rbind].
  apply bdim_ok in Er, Ec.
  unfold broadcasts_to in HY. rewrite andb_false_iff, !orb_false_iff, !Nat.eqb_neq in HY.
  destruct (Nat.eq_dec r' (nrows X)) as [Hr|Hr].
  - assert (Hc : c' <> ncols Vh) by lia.
    do 2 lip_step.
    rewrite matmul_v_raise by shape. reflexivity.
  - rewrite matmul_v_raise by shape. reflexivity.
Qed.

(** A label matrix that broadcasts to (n, l) is accepted, and silently
    broadcast. *)
Lemma lip_broadcasts_Y :
  ncols X = nrows W -> broadcasts_to Y (nrows X) (ncols W) = true ->
  lip_v svd W X Y k = lip_v svd W X (mbroadcast Y (nrows X) (ncols W)) k /\
  is_ok (lip_v svd W X Y k) = true.
Proof.
  intros HX HY.
  assert (E : lip_v svd W X Y k = lip_v svd W X (mbroadcast Y (nrows X) (ncols W)) k).
  { destruct Hshapes as [HU1 HU2 HS HV1 HV2].
    assert (Hk : slice_index k (length S) = slice_index k (ncols U)) by congruence.
    assert (Hk' : slice_index k (nrows Vh) = slice_index k (ncols U)) by congruence.
    lip_unfold. rewrite Hsvd. cbn [rbind].
    do 3 lip_step.
    unfold msub_v.
    rewrite (@mzip_broadcast _ ssub Y); autorewrite with shape; rewrite ?HV2;
      [reflexivity | exact HY]. }
  split; [exact E|]. rewrite E.
  rewrite (@lip_v_run _ svd W X _ k U S Vh Hsvd Hshapes); [reflexivity|].
  constructor; [exact HX | reflexivity | reflexivity].
Qed.

(** The rank parameter is never checked: it is read through the slices,
    which wrap a negative bound and clamp to [0, min(q, l)]. *)
Lemma lip_normalises_k :
  lip_v svd W X Y k =
  lip_v svd W X Y (Z.of_nat (slice_index k (Nat.min (nrows W) (ncols W)))).
Proof.
  destruct Hshapes as [HU1 HU2 HS HV1 HV2].
  set (k2 := Z.of_nat (slice_index k (Nat.min (nrows W) (ncols W)))).
  assert (Hn : forall n, n = Nat.min (nrows W) (ncols W) ->
                         slice_index k2 n = slice_index k n)
    by (intros n ->; apply slice_index_idem).
  assert (E1 : mcols_to U k2 = mcols_to U k)
    by (unfold mcols_to; rewrite (Hn _ HU2); reflexivity).
  assert (E2 : mcols_to (mT Vh) k2 = mcols_to (mT Vh) k)
    by (unfold mcols_to; rewrite ncols_mT, (Hn _ HV1); reflexivity).
  assert (E3 : mcols_from U k2 = mcols_from U k)
    by (unfold mcols_from; rewrite (Hn _ HU2); reflexivity).
  assert (E4 : mcols_from (mT Vh) k2 = mcols_from (mT Vh) k)
    by (unfold mcols_from; rewrite ncols_mT, (Hn _ HV1); reflexivity).
  assert (E5 : vtake S k2 = vtake S k)
    by (unfold vtake; rewrite (Hn _ HS); reflexivity).
  lip_unfold. rewrite Hsvd. cbn [rbind].
  rewrite E1, E2, E3, E4, E5. reflexivity.
Qed.

End ShapeChecks.

(* ================================================================= *)
(** * The correction lives in the noise subspace *)

Section NoiseSubspace.
Context {OF : OrderedField}.

Add Field F_field3 : Fth.

Variables (W X Y U Vh : matrix) (S : vector) (k : Z).
Hypothesis Hshapes : svd_shapes W U S Vh.
Hypothesis Hconf : conforming W X Y.
Hypothesis HfU : finite_matrix U.
Hypothesis HfS : finite_vector S.
Hypothesis HfVh : finite_matrix Vh.
Hypothesis HfX : finite_matrix X.
Hypothesis HfY : finite_matrix Y.
Hypothesis Hk : (0 <= k <= Z.of_nat (Nat.min (nrows W) (ncols W)))%Z.

Let m := Nat.min (nrows W) (ncols W).
Let k' := Z.to_nat k.
Let l := trace U S Vh X Y k.

Lemma slice_kept_U : slice_index k (ncols U) = k'.
Proof. destruct Hshapes. apply slice_index_in_range. lia. Qed.

Lemma slice_kept_S : slice_index k (length S) = k'.
Proof. destruct Hshapes. apply slice_index_in_range. lia. Qed.

Lemma slice_kept_Vh : slice_index k (nrows Vh) = k'.
Proof. destruct Hshapes. apply slice_index_in_range. lia. Qed.

Lemma finite_W_k : finite_matrix (l_W_k l).
Proof.
  destruct Hshapes as [HU1 HU2 HS HV1 HV2].
  pose proof slice_kept_U. pose proof slice_kept_S. pose proof slice_kept_Vh.
  unfold l, trace. cbn [l_W_k]. finite.
Qed.

Lemma finite_residual : finite_matrix (l_residual l).
Proof.
  destruct Hshapes as [HU1 HU2 HS HV1 HV2]. destruct Hconf as [HX HY1 HY2].
  pose proof slice_kept_U. pose proof slice_kept_S. pose proof slice_kept_Vh.
  unfold l, trace. cbn [l_residual]. finite.
Qed.

Lemma finite_A : finite_matrix (l_A l).
Proof.
  destruct Hshapes as [HU1 HU2 HS HV1 HV2]. destruct Hconf as [HX HY1 HY2].
  pose proof slice_kept_U. pose proof slice_kept_S. pose proof slice_kept_Vh.
  unfold l, trace. cbn [l_A]. finite.
Qed.

Lemma finite_B : finite_matrix (l_B l).
Proof.
  destruct Hshapes as [HU1 HU2 HS HV1 HV2]. destruct Hconf as [HX HY1 HY2].
  pose proof slice_kept_U. pose proof slice_kept_S. pose proof slice_kept_Vh.
  unfold l, trace. cbn [l_B]. finite.
Qed.

Lemma shape_A : nrows (l_A l) = m - k' /\ ncols (l_A l) = m - k'.
Proof.
  destruct Hshapes as [HU1 HU2 HS HV1 HV2].
  pose proof slice_kept_U. pose proof slice_kept_Vh.
  unfold l, trace, m. cbn [l_A]. split; shape.
Qed.

Lemma shape_B : nrows (l_B l) = m - k' /\ ncols (l_B l) = m - k'.
Proof.
  destruct Hshapes as [HU1 HU2 HS HV1 HV2].
  pose proof slice_kept_U. pose proof slice_kept_Vh.
  unfold l, trace, m. cbn [l_B]. split; shape.
Qed.

(** No residual axis has zero feature energy. *)
Hypothesis Hnondeg : forall i, i < m - k' -> mget (l_B l) i i <> Num 0%F.

Lemma sigma_refined_entry (i : nat) :
  i < m - k' ->
  vget (l_sigma_refined l) i = Num (rget (l_A l) i i / rget (l_B l) i i)%F.
Proof.
  intros Hi. destruct shape_A as [HA1 HA2]. destruct shape_B as [HB1 HB2].
  specialize (Hnondeg Hi).
  assert (E : l_sigma_refined l =
              tab (nrows (l_A l)) (fun i => sdiv (mget (l_A l) i i) (mget (l_B l) i i)))
    by reflexivity.
  rewrite E, vget_tab by lia.
  rewrite (mget_finite finite_A), (mget_finite finite_B) in * by lia.
  apply sdiv_num. intros E0. apply Hnondeg. rewrite E0. reflexivity.
Qed.

Lemma length_sigma_refined : length (l_sigma_refined l) = m - k'.
Proof.
  destruct shape_A as [HA1 HA2].
  assert (E : l_sigma_refined l =
              tab (nrows (l_A l)) (fun i => sdiv (mget (l_A l) i i) (mget (l_B l) i i)))
    by reflexivity.
  rewrite E, length_tab. exact HA1.
Qed.

Lemma finite_sigma_refined : finite_vector (l_sigma_refined l).
Proof.
  apply finite_vector_spec. rewrite length_sigma_refined.
  intros i Hi. rewrite sigma_refined_entry by exact Hi. reflexivity.
Qed.

(** The SVD reconstructs [W_noisy]. *)
Hypothesis Hexact : W = mmul (mmul U (mdiag S)) Vh.

Lemma finite_W : finite_matrix W.
Proof.
  destruct Hshapes as [HU1 HU2 HS HV1 HV2]. rewrite Hexact. finite.
Qed.

(** Entry [(i, j)] of [W_noisy], of the preserved term and of the
    re-estimated residual term, as sums over the singular directions. *)
Lemma rget_W (i j : nat) :
  i < nrows W -> j < ncols W ->
  rget W i j = Fsum m (fun t => rget U i t * rvget S t * rget Vh t j)%F.
Proof.
  intros Hi Hj. destruct Hshapes as [HU1 HU2 HS HV1 HV2].
  unfold m. rewrite <- HS. rewrite Hexact at 1.
  apply rget_mmul_mdiag; try assumption; lia.
Qed.

Lemma rget_W_k (i j : nat) :
  i < nrows W -> j < ncols W ->
  rget (l_W_k l) i j = Fsum k' (fun t => rget U i t * rvget S t * rget Vh t j)%F.
Proof.
  intros Hi Hj. destruct Hshapes as [HU1 HU2 HS HV1 HV2].
  pose proof slice_kept_U as E1. pose proof slice_kept_S as E2.
  pose proof slice_kept_Vh as E3.
  unfold l, trace. cbn [l_W_k].
  rewrite rget_mmul_mdiag by (finite || shape).
  rewrite length_vtake, E2. apply Fsum_ext. intros t Ht.
  rewrite rget_mcols_to, rvget_vtake by lia.
  rewrite rget_mT by shape. rewrite rget_mcols_to by shape.
  rewrite rget_mT by lia. reflexivity.
Qed.

Lemma rget_correction (v : vector) (i j : nat) :
  finite_vector v -> length v = m - k' ->
  i < nrows W -> j < ncols W ->
  rget (mmul (mmul (l_U_l l) (mdiag v)) (mT (l_V_l l))) i j =
  Fsum (m - k') (fun t => rget U i (k' + t) * rvget v t * rget Vh (k' + t) j)%F.
Proof.
  intros Hv Hlen Hi Hj. destruct Hshapes as [HU1 HU2 HS HV1 HV2].
  pose proof slice_kept_U as E1. pose proof slice_kept_Vh as E3.
  unfold l, trace. cbn [l_U_l l_V_l].
  rewrite rget_mmul_mdiag by (finite || shape).
  rewrite Hlen. apply Fsum_ext. intros t Ht.
  rewrite rget_mcols_from by lia.
  rewrite rget_mT by shape. rewrite rget_mcols_from by shape.
  rewrite rget_mT by shape. rewrite ncols_mT, E1, E3. reflexivity.
Qed.

Lemma finite_sigma_shift : finite_vector (sigma_shift W X Y U Vh S k).
Proof.
  destruct Hshapes as [HU1 HU2 HS HV1 HV2].
  apply finite_tab. intros t Ht.
  rewrite sigma_refined_entry by exact Ht.
  rewrite (vget_finite HfS) by (fold m in HS; unfold k'; lia). reflexivity.
Qed.

Lemma rvget_sigma_shift (t : nat) :
  t < m - k' ->
  rvget (sigma_shift W X Y U Vh S k) t = (rvget (l_sigma_refined l) t - rvget S (k' + t))%F.
Proof.
  intros Ht. destruct Hshapes as [HU1 HU2 HS HV1 HV2].
  unfold rvget, sigma_shift. fold k' l. rewrite vget_tab by exact Ht.
  rewrite sigma_refined_entry by exact Ht.
  rewrite (vget_finite HfS) by (fold m in HS; unfold k'; lia). reflexivity.
Qed.

Lemma W_refined_eq :
  l_W_refined l =
  madd (l_W_k l) (mmul (mmul (l_U_l l) (mdiag (l_sigma_refined l))) (mT (l_V_l l))).
Proof. reflexivity. Qed.

Lemma shapes_of_locals :
  nrows (l_W_k l) = nrows W /\ ncols (l_W_k l) = ncols W /\
  nrows (l_U_l l) = nrows W /\ ncols (l_U_l l) = m - k' /\
  nrows (l_V_l l) = ncols W /\ ncols (l_V_l l) = m - k' /\
  nrows (l_U_k l) = nrows W /\ ncols (l_U_k l) = k' /\
  nrows (l_V_k l) = ncols W /\ ncols (l_V_k l) = k'.
Proof.
  destruct Hshapes as [HU1 HU2 HS HV1 HV2].
  pose proof slice_kept_U as E1. pose proof slice_kept_Vh as E3.
  unfold l, trace, m. cbn [l_W_k l_U_l l_V_l l_U_k l_V_k].
  repeat split; shape.
Qed.

Lemma finite_locals :
  finite_matrix (l_U_l l) /\ finite_matrix (l_V_l l) /\
  finite_matrix (l_U_k l) /\ finite_matrix (l_V_k l).
Proof. unfold l, trace. cbn [l_U_l l_V_l l_U_k l_V_k]. repeat split; finite. Qed.

(** The refined weights differ from the noisy ones by a diagonal
    correction in the residual basis. *)
Lemma refined_minus_noisy :
  msub (l_W_refined l) W =
  mmul (mmul (l_U_l l) (mdiag (sigma_shift W X Y U Vh S k))) (mT (l_V_l l)).
Proof.
  destruct shapes_of_locals as (S1 & S2 & S3 & S4 & S5 & S6 & _).
  destruct finite_locals as (F1 & F2 & _).
  pose proof finite_W_k as F3. pose proof finite_W as F4.
  pose proof finite_sigma_refined as F5. pose proof finite_sigma_shift as F6.
  pose proof length_sigma_refined as L5.
  assert (L6 : length (sigma_shift W X Y U Vh S k) = m - k') by apply length_tab.
  rewrite W_refined_eq.
  finite_ext.
  intros i j Hi Hj. autorewrite with shape in Hi, Hj.
  rewrite rget_msub by (finite || shape).
  rewrite rget_madd by (finite || shape).
  rewrite rget_W_k, rget_W, !rget_correction by (assumption || lia).
  rewrite (@Fsum_split_at _ k' m) by (unfold m, k'; lia).
  symmetry.
  rewrite (@Fsum_ext _ (m - k') _ (fun t =>
     rget U i (k' + t) * rvget (l_sigma_refined l) t * rget Vh (k' + t) j -
     rget U i (k' + t) * rvget S (k' + t) * rget Vh (k' + t) j)%F).
  - rewrite Fsum_sub. ring.
  - intros t Ht. rewrite rvget_sigma_shift by exact Ht. ring.
Qed.

(** The columns of [U] are orthonormal. *)
Hypothesis Horth : mmul (mT U) U = midentity (ncols U).

(** The difference has no component in the preserved subspace. *)
Lemma signal_projection_unchanged :
  mmul (mmul (mT (l_U_k l)) (msub (l_W_refined l) W)) (l_V_k l) = mzero k' k'.
Proof.
  destruct shapes_of_locals as (S1 & S2 & S3 & S4 & S5 & S6 & S7 & S8 & S9 & S10).
  destruct finite_locals as (F1 & F2 & F7 & F8).
  pose proof finite_sigma_shift as F6.
  assert (L6 : length (sigma_shift W X Y U Vh S k) = m - k') by apply length_tab.
  pose proof slice_kept_U as E1.
  destruct Hshapes as [HU1 HU2 HS HV1 HV2]. fold m in HU2.
  rewrite refined_minus_noisy.
  assert (Hz : mmul (mT (l_U_k l)) (l_U_l l) = mzero k' (m - k')).
  { change (l_U_k l) with (mcols_to U k). change (l_U_l l) with (mcols_from U k).
    rewrite (kept_orthogonal_to_residual k HfU Horth), E1, HU2. reflexivity. }
  rewrite <- (@mmul_assoc _ (mT (l_U_k l))) by (finite || shape).
  rewrite <- (@mmul_assoc _ (mT (l_U_k l))) by (finite || shape).
  rewrite Hz.
  rewrite mmul_mzero_l by (finite || shape).
  rewrite mmul_mzero_l by (finite || shape).
  rewrite mmul_mzero_l by (finite || shape).
  f_equal. shape.
Qed.

End NoiseSubspace.

Lemma nondegenerate_spec {OF : OrderedField} (U X : matrix) (k : Z) (i : nat) :
  nondegenerate U X k -> i < ncols U - slice_index k (ncols U) ->
  mget (feature_energy U X k) i i <> Num 0%F.
Proof.
  unfold nondegenerate. rewrite forallb_forall. intros H Hi E.
  specialize (H i). rewrite E in H. cbn in H.
  rewrite (proj2 (Feqb_spec 0%F 0%F) eq_refl) in H.
  discriminate H. apply in_seq. lia.
Qed.

(* ================================================================= *)
(** * The frame property *)

Section Frame.
Context {OF : OrderedField}.

Lemma allocates_only_hret {A} (a : A) : allocates_only (hret a).
Proof. intros h. exists []. cbn. rewrite app_nil_r. reflexivity. Qed.

Lemma allocates_only_hbind {A B} (c : HM A) (f : A -> HM B) :
  allocates_only c -> (forall a, allocates_only (f a)) ->
  allocates_only (hbind c f).
Proof.
  intros Hc Hf h. unfold hbind. destruct (Hc h) as [fresh E].
  destruct (c h) as [[a|e] h']; cbn in E; subst h'.
  - destruct (Hf a (h ++ fresh)) as [fresh' E']. exists (fresh ++ fresh').
    rewrite E', app_assoc. reflexivity.
  - exists fresh. reflexivity.
Qed.

Lemma allocates_only_alloc2 (m : matrix) : allocates_only (alloc2 m).
Proof. intros h. eexists. reflexivity. Qed.

Lemma allocates_only_alloc1 (v : vector) : allocates_only (alloc1 v).
Proof. intros h. eexists. reflexivity. Qed.

Lemma allocates_only_store2 (f : heap -> result matrix) :
  allocates_only (fun h => store2 (f h) h).
Proof.
  intros h. unfold store2. destruct (f h) as [m|e].
  - apply allocates_only_alloc2.
  - exists []. cbn. rewrite app_nil_r. reflexivity.
Qed.

Lemma allocates_only_store1 (f : heap -> result vector) :
  allocates_only (fun h => store1 (f h) h).
Proof.
  intros h. unfold store1. destruct (f h) as [v|e].
  - apply allocates_only_alloc1.
  - exists []. cbn. rewrite app_nil_r. reflexivity.
Qed.

Lemma allocates_only_alloc2_of (f : heap -> matrix) :
  allocates_only (fun h => alloc2 (f h) h).
Proof. intros h. eexists. reflexivity. Qed.

(** One step through a computation on the store. *)
Ltac alloc_step :=
  lazymatch goal with
  | |- allocates_only (hbind _ _) => apply allocates_only_hbind; [ | intros ? ]
  | |- allocates_only (hret _) => apply allocates_only_hret
  | |- allocates_only (alloc2 _) => apply allocates_only_alloc2
  | |- allocates_only (alloc1 _) => apply allocates_only_alloc1
  | |- allocates_only (fun h => alloc2 (@?f h) h) => apply (allocates_only_alloc2_of f)
  | |- allocates_only (fun h => store2 (@?f h) h) => apply (allocates_only_store2 f)
  | |- allocates_only (fun h => store1 (@?f h) h) => apply (allocates_only_store1 f)
  end.

Lemma allocates_only_h_svd (svd : svd_oracle) (t : view2) :
  allocates_only (h_svd svd t).
Proof.
  intros h. unfold h_svd. destruct (svd (read2 h t)) as [[[U S] Vh]|e].
  - revert h. change (allocates_only
      (hbind (alloc2 U) (fun u => hbind (alloc1 S) (fun s =>
         hbind (alloc2 Vh) (fun vh => hret (u, s, vh)))))).
    repeat alloc_step.
  - exists []. cbn. rewrite app_nil_r. reflexivity.
Qed.

(** Every statement of [lip] allocates only. *)
Lemma allocates_only_lip_body (svd : svd_oracle) (W X Y : view2) (k : Z) :
  allocates_only (@lip_body (heap_backend svd) W X Y k).
Proof.
  unfold lip_body.
  cbn [bind ret heap_backend linalg_svd transpose cols_to cols_from take
       shape0 diag matmul sub add div arange index2 M].
  apply allocates_only_hbind; [apply allocates_only_h_svd|].
  intros [[U S] Vh].
  repeat alloc_step.
Qed.

Lemma allocates_only_lip_h (svd : svd_oracle) (W X Y : view2) (k : Z) :
  allocates_only (lip_h svd W X Y k).
Proof.
  unfold lip_h, lip. cbn [bind ret heap_backend M].
  apply allocates_only_hbind; [apply allocates_only_lip_body|].
  intros l. apply allocates_only_hret.
Qed.

(** A storage that exists is not touched by an extension of the store. *)
Lemma load_extend (h fresh : heap) (s off : nat) :
  s < length h -> load (h ++ fresh) s off = load h s off.
Proof. intros Hs. unfold load. rewrite app_nth1 by exact Hs. reflexivity. Qed.

Lemma read2_extend (h fresh : heap) (t : view2) :
  v2_stor t < length h -> read2 (h ++ fresh) t = read2 h t.
Proof.
  intros Hs. unfold read2. apply mtab_ext. intros i j _ _.
  apply load_extend, Hs.
Qed.

End Frame.

(* ================================================================= *)
(** * The order of the field *)

(** From here on every argument of a lemma is written out. *)
Unset Implicit Arguments.

Section OrderFacts.
Context {OF : OrderedField}.

Add Field F_field4 : Fth.

Local Open Scope F_scope.

Lemma Fle_0_sub (x y : F) : x <= y -> 0 <= y - x.
Proof.
  intros H. apply (Fleb_add _ _ (- x)) in H.
  replace (x + - x) with 0 in H by ring.
  replace (y + - x) with (y - x) in H by ring. exact H.
Qed.

Lemma Fle_sub_0 (x y : F) : 0 <= y - x -> x <= y.
Proof.
  intros H. apply (Fleb_add _ _ x) in H.
  replace (0 + x) with x in H by ring.
  replace (y - x + x) with y in H by ring. exact H.
Qed.

Lemma Fle_add (a b c d : F) : a <= b -> c <= d -> a + c <= b + d.
Proof.
  intros H1 H2. apply Fleb_trans with (b + c).
  - apply Fleb_add, H1.
  - replace (b + c) with (c + b) by ring. replace (b + d) with (d + b) by ring.
    apply Fleb_add, H2.
Qed.

Lemma Fle_0_add (x y : F) : 0 <= x -> 0 <= y -> 0 <= x + y.
Proof.
  intros Hx Hy. replace 0 with (0 + 0) by ring. apply Fle_add; assumption.
Qed.

Lemma Fle_opp (x : F) : x <= 0 -> 0 <= - x.
Proof. intros H. apply Fle_0_sub in H. replace (- x) with (0 - x) by ring. exact H. Qed.

Lemma Fle_0_sq (x : F) : 0 <= x * x.
Proof.
  destruct (Fleb_total 0 x) as [H|H].
  - apply Fleb_mul; exact H.
  - apply Fle_opp in H. replace (x * x) with (- x * - x) by ring.
    apply Fleb_mul; exact H.
Qed.

Lemma Fle_mul_l (c a b : F) : 0 <= c -> a <= b -> c * a <= c * b.
Proof.
  intros Hc H. apply Fle_sub_0. replace (c * b - c * a) with (c * (b - a)) by ring.
  apply Fleb_mul; [exact Hc | apply Fle_0_sub, H].
Qed.

Lemma Fle_mul_r (c a b : F) : 0 <= c -> a <= b -> a * c <= b * c.
Proof.
  intros Hc H. replace (a * c) with (c * a) by ring.
  replace (b * c) with (c * b) by ring. apply Fle_mul_l; assumption.
Qed.

Lemma Fle_0_1 : 0 <= 1.
Proof. replace 1 with (1 * 1) by ring. apply Fle_0_sq. Qed.

(** The square of a positive bound. *)
Lemma Fle_sq (x y : F) : 0 <= x -> x <= y -> x * x <= y * y.
Proof.
  intros Hx H. assert (Hy : 0 <= y) by (eapply Fleb_trans; eassumption).
  apply Fleb_trans with (x * y).
  - apply Fle_mul_l; assumption.
  - apply Fle_mul_r; assumption.
Qed.

Lemma F_integral (x : F) : x * x = 0 -> x = 0.
Proof.
  intros H. destruct (x =? 0) eqn:E; [apply Feqb_spec, E|].
  apply Feqb_false in E.
  assert (Hx : x = x * x * Finv x) by (field; exact E).
  rewrite H in Hx. rewrite Hx. ring.
Qed.

(** The inverse of a positive value is positive. *)
Lemma Fle_0_inv (x : F) : 0 <= x -> x <> 0 -> 0 <= 1 / x.
Proof.
  intros Hx Hne. replace (1 / x) with (x * ((1 / x) * (1 / x))) by (field; exact Hne).
  apply Fleb_mul; [exact Hx | apply Fle_0_sq].
Qed.

Lemma Fle_0_div (x y : F) : 0 <= x -> 0 <= y -> y <> 0 -> 0 <= x / y.
Proof.
  intros Hx Hy Hne. replace (x / y) with (x * (1 / y)) by (field; exact Hne).
  apply Fleb_mul; [exact Hx | apply Fle_0_inv; assumption].
Qed.

(** ** Sums and the order *)

Lemma Fsum_nonneg (n : nat) (f : nat -> F) :
  (forall t, (t < n)%nat -> 0 <= f t) -> 0 <= Fsum n f.
Proof.
  induction n as [|n IH]; intros H; cbn; [apply Fleb_refl|].
  apply Fle_0_add; [apply IH; intros; apply H; lia | apply H; lia].
Qed.

Lemma Fsum_le (n : nat) (f g : nat -> F) :
  (forall t, (t < n)%nat -> f t <= g t) -> Fsum n f <= Fsum n g.
Proof.
  induction n as [|n IH]; intros H; cbn; [apply Fleb_refl|].
  apply Fle_add; [apply IH; intros; apply H; lia | apply H; lia].
Qed.

(** A sum of non-negative terms that is zero has zero terms. *)
Lemma Fsum_nonneg_zero (n : nat) (f : nat -> F) :
  (forall t, (t < n)%nat -> 0 <= f t) -> Fsum n f = 0 ->
  forall t, (t < n)%nat -> f t = 0.
Proof.
  induction n as [|n IH]; intros Hf Hs t Ht; [lia|]. cbn in Hs.
  assert (H1 : 0 <= Fsum n f) by (apply Fsum_nonneg; intros; apply Hf; lia).
  assert (H2 : 0 <= f n) by (apply Hf; lia).
  assert (H3 : f n = 0).
  { apply Fleb_antisym; [|exact H2].
    apply Fle_sub_0. replace (0 - f n) with (Fsum n f) ; [exact H1|].
    replace (Fsum n f) with (Fsum n f + f n - f n) by ring. rewrite Hs. ring. }
  destruct (Nat.eq_dec t n) as [->|Hne]; [exact H3|].
  apply IH; try lia.
  - intros; apply Hf; lia.
  - rewrite H3 in Hs. rewrite <- Hs. ring.
Qed.

Lemma Fnat_le (a b : nat) : (a <= b)%nat -> Fnat a <= Fnat b.
Proof.
  intros H. unfold Fnat. rewrite (@Fsum_split_at _ a b) by exact H.
  apply Fle_sub_0.
  replace (Fsum a (fun _ => 1) + Fsum (b - a) (fun _ => 1) - Fsum a (fun _ => 1))
    with (Fsum (b - a) (fun _ : nat => 1)) by ring.
  apply Fsum_nonneg. intros _ _. apply Fle_0_1.
Qed.

End OrderFacts.

(* ================================================================= *)
(** * Inner products and orthogonal families *)

Section InnerProducts.
Context {OF : OrderedField}.

Add Field F_field5 : Fth.

Local Open Scope F_scope.

Lemma dot_sym (n : nat) (x y : nat -> F) : dot n x y = dot n y x.
Proof. unfold dot. apply Fsum_ext. intros i _. ring. Qed.

Lemma dot_ext (n : nat) (x x' y y' : nat -> F) :
  (forall i, (i < n)%nat -> x i = x' i) -> (forall i, (i < n)%nat -> y i = y' i) ->
  dot n x y = dot n x' y'.
Proof.
  intros Hx Hy. unfold dot. apply Fsum_ext. intros i Hi.
  rewrite Hx, Hy by exact Hi. reflexivity.
Qed.

Lemma dot_nonneg (n : nat) (x : nat -> F) : 0 <= dot n x x.
Proof. apply Fsum_nonneg. intros i _. apply Fle_0_sq. Qed.

(** A vector of norm zero is zero. *)
Lemma dot_zero (n : nat) (x : nat -> F) :
  dot n x x = 0 -> forall i, (i < n)%nat -> x i = 0.
Proof.
  intros H i Hi. apply F_integral.
  apply (@Fsum_nonneg_zero _ n (fun i => x i * x i)); try assumption.
  intros t _. apply Fle_0_sq.
Qed.

Lemma dot_comb_r (n j : nat) (d : nat -> F) (e : nat -> nat -> F) (z : nat -> F) :
  dot n z (comb j d e) = Fsum j (fun a => d a * dot n z (e a)).
Proof.
  unfold dot, comb.
  rewrite (Fsum_ext _ (fun i => Fsum j (fun a => d a * (z i * e a i)))).
  - rewrite Fsum_swap. apply Fsum_ext. intros a _. apply Fsum_scale_l.
  - intros i _. rewrite <- Fsum_scale_l. apply Fsum_ext. intros a _. ring.
Qed.

Lemma dot_comb_l (n j : nat) (d : nat -> F) (e : nat -> nat -> F) (z : nat -> F) :
  dot n (comb j d e) z = Fsum j (fun a => d a * dot n (e a) z).
Proof.
  rewrite dot_sym, dot_comb_r. apply Fsum_ext. intros a _.
  rewrite (dot_sym n z). reflexivity.
Qed.

Lemma dot_sub_sub (n : nat) (x y : nat -> F) :
  dot n (fun i => x i - y i) (fun i => x i - y i) =
  dot n x x - (dot n x y + dot n x y) + dot n y y.
Proof.
  unfold dot. rewrite <- Fsum_add, <- Fsum_sub, <- Fsum_add.
  apply Fsum_ext. intros i _. ring.
Qed.

(** The norm of a combination of orthogonal vectors. *)
Lemma dot_comb_comb (n j : nat) (d d' : nat -> F) (e : nat -> nat -> F) :
  orthogonal n j e ->
  dot n (comb j d e) (comb j d' e) =
  Fsum j (fun a => d a * d' a * dot n (e a) (e a)).
Proof.
  intros Ho. rewrite dot_comb_l. apply Fsum_ext. intros a Ha.
  rewrite dot_comb_r.
  rewrite (Fsum_single (i := a)); [ring | exact Ha |].
  intros b Hb Hne. rewrite (Ho a b) by (try assumption; congruence). ring.
Qed.

(** The squared distance from [w] to a combination of orthogonal vectors
    of non-zero norm. *)
Lemma distance_to_comb (n j : nat) (w d : nat -> F) (e : nat -> nat -> F) :
  orthogonal n j e ->
  (forall a, (a < j)%nat -> dot n (e a) (e a) <> 0) ->
  dot n (fun i => w i - comb j d e i) (fun i => w i - comb j d e i) =
  dot n w w
  - Fsum j (fun a => dot n w (e a) * dot n w (e a) / dot n (e a) (e a))
  + Fsum j (fun a => dot n (e a) (e a)
                     * ((d a - dot n w (e a) / dot n (e a) (e a))
                        * (d a - dot n w (e a) / dot n (e a) (e a)))).
Proof.
  intros Ho Hn.
  rewrite (dot_sub_sub n w (comb j d e)).
  rewrite dot_comb_r, dot_comb_comb by exact Ho.
  assert (E : Fsum j (fun a => dot n (e a) (e a)
                     * ((d a - dot n w (e a) / dot n (e a) (e a))
                        * (d a - dot n w (e a) / dot n (e a) (e a))))
            - Fsum j (fun a => dot n w (e a) * dot n w (e a) / dot n (e a) (e a))
            = Fsum j (fun a => d a * d a * dot n (e a) (e a))
              - (Fsum j (fun a => d a * dot n w (e a))
                 + Fsum j (fun a => d a * dot n w (e a)))).
  { rewrite <- Fsum_sub, <- Fsum_add, <- Fsum_sub.
    apply Fsum_ext. intros a Ha. field. apply Hn, Ha. }
  set (A := Fsum j (fun a => dot n (e a) (e a)
                     * ((d a - dot n w (e a) / dot n (e a) (e a))
                        * (d a - dot n w (e a) / dot n (e a) (e a))))) in *.
  set (B := Fsum j (fun a => dot n w (e a) * dot n w (e a) / dot n (e a) (e a))) in *.
  replace (dot n w w - B + A) with (dot n w w + (A - B)) by ring.
  rewrite E. ring.
Qed.

(** Bessel's inequality, and the distance to the span. *)
Lemma bessel (n j : nat) (w : nat -> F) (e : nat -> nat -> F) :
  orthogonal n j e ->
  (forall a, (a < j)%nat -> dot n (e a) (e a) <> 0) ->
  Fsum j (fun a => dot n w (e a) * dot n w (e a) / dot n (e a) (e a)) <= dot n w w.
Proof.
  intros Ho Hn.
  set (g := fun a => dot n w (e a) / dot n (e a) (e a)).
  pose proof (distance_to_comb n j w g e Ho Hn) as E.
  pose proof (dot_nonneg n (fun i => w i - comb j g e i)) as H0.
  rewrite E in H0.
  assert (Z : Fsum j (fun a => dot n (e a) (e a)
                     * ((g a - dot n w (e a) / dot n (e a) (e a))
                        * (g a - dot n w (e a) / dot n (e a) (e a)))) = 0).
  { apply Fsum_zero. intros a Ha. unfold g. field. apply Hn, Ha. }
  rewrite Z in H0. apply Fle_sub_0.
  match type of H0 with
  | 0 <= ?a - ?b + 0 => replace (a - b + 0) with (a - b) in H0 by ring
  end.
  exact H0.
Qed.

Lemma distance_to_span (n j : nat) (w d : nat -> F) (e : nat -> nat -> F) :
  orthogonal n j e ->
  (forall a, (a < j)%nat -> dot n (e a) (e a) <> 0) ->
  dot n w w - Fsum j (fun a => dot n w (e a) * dot n w (e a) / dot n (e a) (e a))
  <= dot n (fun i => w i - comb j d e i) (fun i => w i - comb j d e i).
Proof.
  intros Ho Hn. rewrite (distance_to_comb n j w d e Ho Hn).
  apply Fle_sub_0.
  match goal with
  | |- 0 <= ?a - ?b + ?c - (?a - ?b) => replace (a - b + c - (a - b)) with c by ring
  end.
  apply Fsum_nonneg. intros a Ha.
  apply Fleb_mul; [apply dot_nonneg | apply Fle_0_sq].
Qed.

End InnerProducts.

(* ================================================================= *)
(** * Orthogonalisation *)

Section GramSchmidt.
Context {OF : OrderedField}.

Add Field F_field6 : Fth.

Local Open Scope F_scope.

Lemma dot_sub_l (n : nat) (x y z : nat -> F) :
  dot n (fun i => x i - y i) z = dot n x z - dot n y z.
Proof. unfold dot. rewrite <- Fsum_sub. apply Fsum_ext. intros i _. ring. Qed.

Lemma residue_orthogonal (n j : nat) (e : nat -> nat -> F) (w : nat -> F) (b : nat) :
  orthogonal n j e -> (forall a, (a < j)%nat -> dot n (e a) (e a) <> 0) ->
  (b < j)%nat -> dot n (residue n j e w) (e b) = 0.
Proof.
  intros Ho Hn Hb. unfold residue.
  rewrite (dot_sub_l n w). rewrite dot_comb_l.
  rewrite (Fsum_single (i := b)); [field; apply Hn, Hb | exact Hb |].
  intros a Ha Hne. rewrite (Ho a b) by assumption. ring.
Qed.

(** Any [k] vectors lie in the span of at most [k] pairwise orthogonal
    vectors of non-zero norm. *)
Lemma gram_schmidt (n k : nat) (p : nat -> nat -> F) :
  exists (j : nat) (e c : nat -> nat -> F),
    (j <= k)%nat /\ orthogonal n j e /\
    (forall a, (a < j)%nat -> dot n (e a) (e a) <> 0) /\
    (forall t, (t < k)%nat -> forall i, (i < n)%nat -> p t i = comb j (c t) e i).
Proof.
  induction k as [|k IH].
  - exists O, (fun _ _ => 0), (fun _ _ => 0).
    split; [lia|]. split; [intros a b Ha; lia|]. split; intros a Ha; lia.
  - destruct IH as (j & e & c & Hj & Ho & Hn & Hp).
    set (g := fun a => dot n (p k) (e a) / dot n (e a) (e a)).
    set (e' := residue n j e (p k)).
    destruct (dot n e' e' =? 0) eqn:E.
    + (* the new vector is already in the span *)
      apply Feqb_spec in E.
      exists j, e, (fun t => if (t =? k)%nat then g else c t).
      repeat split; try assumption; try lia.
      intros t Ht i Hi. destruct (t =? k)%nat eqn:Et.
      * apply Nat.eqb_eq in Et. subst t.
        pose proof (@dot_zero _ n e' E i Hi) as Hz. unfold e', residue in Hz. fold g in Hz.
        replace (p k i) with (p k i - comb j g e i + comb j g e i) by ring.
        rewrite Hz. ring.
      * apply Nat.eqb_neq in Et. apply Hp; lia.
    + (* the new vector adds a direction *)
      apply Feqb_false in E.
      exists (S j), (fun a => if (a =? j)%nat then e' else e a),
        (fun t a => if (t =? k)%nat then (if (a =? j)%nat then 1 else g a)
                    else (if (a =? j)%nat then 0 else c t a)).
      split; [lia|]. split; [|split].
      * intros a b Ha Hb Hne. cbv beta.
        destruct (Nat.eq_dec a j) as [->|Ha']; destruct (Nat.eq_dec b j) as [->|Hb'];
          rewrite ?Nat.eqb_refl;
          try rewrite (proj2 (Nat.eqb_neq a j) Ha');
          try rewrite (proj2 (Nat.eqb_neq b j) Hb').
        -- lia.
        -- apply residue_orthogonal; try assumption. lia.
        -- rewrite dot_sym. apply residue_orthogonal; try assumption. lia.
        -- apply Ho; lia.
      * intros a Ha. destruct (a =? j)%nat eqn:Ea; [exact E|].
        apply Nat.eqb_neq in Ea. apply Hn. lia.
      * intros t Ht i Hi. unfold comb. cbn [Fsum]. rewrite Nat.eqb_refl.
        destruct (t =? k)%nat eqn:Et.
        -- apply Nat.eqb_eq in Et. subst t.
           rewrite (@Fsum_ext _ j _ (fun a => g a * e a i)).
           ++ unfold e', residue. fold g. unfold comb. ring.
           ++ intros a Ha. assert (Ea : (a =? j)%nat = false) by (apply Nat.eqb_neq; lia).
              rewrite Ea. reflexivity.
        -- apply Nat.eqb_neq in Et. rewrite (Hp t) by lia. unfold comb.
           rewrite (@Fsum_ext _ j (fun a => (if (a =? j)%nat then 0 else c t a) *
                                             (if (a =? j)%nat then e' else e a) i)
                                  (fun a => c t a * e a i)).
           ++ ring.
           ++ intros a Ha. assert (Ea : (a =? j)%nat = false) by (apply Nat.eqb_neq; lia).
              rewrite Ea. reflexivity.
Qed.

End GramSchmidt.

(* ================================================================= *)
(** * Weighted sums of a decreasing sequence *)

Section Weights.
Context {OF : OrderedField}.

Add Field F_field7 : Fth.

Local Open Scope F_scope.

Lemma decreasing_chain (m : nat) (s : nat -> F) :
  (forall t, (S t < m)%nat -> s (S t) <= s t) ->
  forall a b, (a <= b)%nat -> (b < m)%nat -> s b <= s a.
Proof.
  intros Hs a b Hab. induction Hab as [|b Hab IH]; intros Hb.
  - apply Fleb_refl.
  - apply Fleb_trans with (s b); [apply Hs, Hb | apply IH; lia].
Qed.

(** With weights in [0, 1] whose sum is at most [k], a decreasing
    non-negative sequence weighs at most as much as its first [k]
    terms. *)
Lemma weighted_sum_bound (m k : nat) (s c : nat -> F) :
  (k <= m)%nat ->
  (forall t, (S t < m)%nat -> s (S t) <= s t) ->
  (forall t, (t < m)%nat -> 0 <= s t) ->
  (forall t, (t < m)%nat -> 0 <= c t) ->
  (forall t, (t < m)%nat -> c t <= 1) ->
  Fsum m c <= Fnat k ->
  Fsum m (fun t => s t * c t) <= Fsum k s.
Proof.
  intros Hk Hdec Hs Hc0 Hc1 Hsum.
  destruct (Nat.eq_dec k m) as [->|Hne].
  - apply Fsum_le. intros t Ht.
    replace (s t) with (s t * 1) at 2 by ring.
    apply Fle_mul_l; [apply Hs | apply Hc1]; exact Ht.
  - assert (Hkm : (k < m)%nat) by lia.
    pose proof (decreasing_chain m s Hdec) as Hch.
    rewrite (@Fsum_split_at _ k m) by exact Hk.
    rewrite (@Fsum_split_at _ k m) in Hsum by exact Hk.
    set (tau := s k).
    (* the tail weighs at most tau times the room left by the head *)
    assert (H1 : Fsum (m - k) (fun t => s (k + t)%nat * c (k + t)%nat)
                 <= tau * Fsum (m - k) (fun t => c (k + t)%nat)).
    { rewrite <- Fsum_scale_l. apply Fsum_le. intros t Ht.
      apply Fle_mul_r; [apply Hc0; lia | apply Hch; lia]. }
    assert (H2 : Fsum (m - k) (fun t => c (k + t)%nat)
                 <= Fsum k (fun t => 1 - c t)).
    { rewrite Fsum_sub. apply Fle_sub_0.
      apply Fle_0_sub in Hsum. unfold Fnat in Hsum.
      match goal with
      | |- 0 <= ?x => match type of Hsum with 0 <= ?y => replace x with y by ring end
      end.
      exact Hsum. }
    assert (H3 : tau * Fsum k (fun t => 1 - c t)
                 <= Fsum k (fun t => s t * (1 - c t))).
    { rewrite <- Fsum_scale_l. apply Fsum_le. intros t Ht.
      apply Fle_mul_r; [apply Fle_0_sub, Hc1; lia | apply Hch; lia]. }
    assert (Htau : 0 <= tau) by (apply Hs; lia).
    assert (H4 : Fsum (m - k) (fun t => s (k + t)%nat * c (k + t)%nat)
                 <= Fsum k (fun t => s t * (1 - c t))).
    { eapply Fleb_trans; [exact H1|]. eapply Fleb_trans; [|exact H3].
      apply Fle_mul_l; assumption. }
    apply Fle_sub_0. apply Fle_0_sub in H4.
    match goal with
    | |- 0 <= ?x => match type of H4 with 0 <= ?y => replace x with y; [exact H4|] end
    end.
    rewrite (@Fsum_ext _ k (fun t => s t * (1 - c t)) (fun t => s t - s t * c t))
      by (intros; ring).
    rewrite Fsum_sub. ring.
Qed.

End Weights.

(* ================================================================= *)
(** * The optimality of the truncated SVD (Eckart-Young, Frobenius norm) *)

Section EckartYoung.
Context {OF : OrderedField}.

Add Field F_field8 : Fth.

Local Open Scope F_scope.

Lemma F_1_neq_0 : (1 : F) <> 0.
Proof. apply (F_1_neq_0 Fth). Qed.

Lemma orthonormal_orthogonal (n j : nat) (e : nat -> nat -> F) :
  orthonormal n j e -> orthogonal n j e.
Proof.
  intros H a b Ha Hb Hne. rewrite (H a b Ha Hb).
  apply Nat.eqb_neq in Hne. rewrite Hne. reflexivity.
Qed.

Lemma orthonormal_norm (n j : nat) (e : nat -> nat -> F) (a : nat) :
  orthonormal n j e -> (a < j)%nat -> dot n (e a) (e a) = 1.
Proof. intros H Ha. rewrite (H a a Ha Ha), Nat.eqb_refl. reflexivity. Qed.

Lemma frob2_columns (q l : nat) (A : nat -> nat -> F) :
  frob2 q l A = Fsum l (fun c => dot q (fun i => A i c) (fun i => A i c)).
Proof. unfold frob2, dot. apply Fsum_swap. Qed.

(** The norm of a combination of orthonormal vectors. *)
Lemma dot_comb_orthonormal (n j : nat) (d : nat -> F) (e : nat -> nat -> F) :
  orthonormal n j e ->
  dot n (comb j d e) (comb j d e) = Fsum j (fun a => d a * d a).
Proof.
  intros H. rewrite (dot_comb_comb n j d d e (orthonormal_orthogonal n j e H)).
  apply Fsum_ext. intros a Ha. rewrite (orthonormal_norm n j e a H Ha). ring.
Qed.

(** The Frobenius norm of a sum of rank-one terms on orthonormal
    directions is the norm of its coefficients. *)
Lemma frob2_svd_sum (q l m : nat) (u : nat -> nat -> F) (sg : nat -> F)
      (v : nat -> nat -> F) :
  orthonormal q m u -> orthonormal l m v ->
  frob2 q l (svd_sum m u sg v) = Fsum m (fun t => sg t * sg t).
Proof.
  intros Hu Hv. rewrite frob2_columns.
  rewrite (@Fsum_ext _ l _ (fun c => Fsum m (fun t => (sg t * v t c) * (sg t * v t c)))).
  - rewrite Fsum_swap. apply Fsum_ext. intros t Ht.
    rewrite (@Fsum_ext _ l _ (fun c => (sg t * sg t) * (v t c * v t c)))
      by (intros; ring).
    rewrite Fsum_scale_l. fold (dot l (v t) (v t)).
    rewrite (orthonormal_norm l m v t Hv Ht). ring.
  - intros c Hc.
    rewrite <- (dot_comb_orthonormal q m (fun t => sg t * v t c) u Hu).
    apply dot_ext; intros i Hi; unfold svd_sum, comb;
      apply Fsum_ext; intros t Ht; ring.
Qed.

Lemma frob2_ext (q l : nat) (A B : nat -> nat -> F) :
  (forall i c, (i < q)%nat -> (c < l)%nat -> A i c = B i c) ->
  frob2 q l A = frob2 q l B.
Proof.
  intros H. unfold frob2. apply Fsum_ext. intros i Hi.
  apply Fsum_ext. intros c Hc. rewrite (H i c Hi Hc). reflexivity.
Qed.

Lemma orthonormal_shift (n m k : nat) (e : nat -> nat -> F) :
  (k <= m)%nat -> orthonormal n m e ->
  orthonormal n (m - k) (fun t => e (k + t)%nat).
Proof.
  intros Hk H a b Ha Hb. rewrite (H (k + a)%nat (k + b)%nat) by lia.
  destruct (Nat.eq_dec a b) as [->|Hne].
  - rewrite !Nat.eqb_refl. reflexivity.
  - rewrite (proj2 (Nat.eqb_neq a b) Hne).
    rewrite (proj2 (Nat.eqb_neq (k + a) (k + b))) by lia. reflexivity.
Qed.

Section Approximation.

Variables (q l m k : nat) (u v : nat -> nat -> F) (sg : nat -> F).
Hypothesis Hu : orthonormal q m u.
Hypothesis Hv : orthonormal l m v.
Hypothesis Hk : (k <= m)%nat.

(** The error of the truncation is the energy of the dropped singular
    values. *)
Lemma truncation_error :
  frob2 q l (fun i c => svd_sum m u sg v i c - svd_sum k u sg v i c) =
  Fsum (m - k) (fun t => sg (k + t)%nat * sg (k + t)%nat).
Proof.
  rewrite <- (frob2_svd_sum q l (m - k) (fun t => u (k + t)%nat)
                (fun t => sg (k + t)%nat) (fun t => v (k + t)%nat)
                (orthonormal_shift q m k u Hk Hu) (orthonormal_shift l m k v Hk Hv)).
  apply frob2_ext. intros i c Hi Hc. unfold svd_sum.
  rewrite (@Fsum_split_at _ k m) by exact Hk. ring.
Qed.

Lemma norm_of_svd_sum :
  frob2 q l (svd_sum m u sg v) = Fsum m (fun t => sg t * sg t).
Proof. apply frob2_svd_sum; assumption. Qed.

(** ** The energy captured by a subspace *)

Variables (j : nat) (e : nat -> nat -> F).
Hypothesis He : orthogonal q j e.
Hypothesis Hne : forall b, (b < j)%nat -> dot q (e b) (e b) <> 0.

Lemma share_nonneg (t : nat) : 0 <= share q u j e t.
Proof.
  apply Fsum_nonneg. intros b Hb.
  apply Fle_0_div; [apply Fle_0_sq | apply dot_nonneg | apply Hne, Hb].
Qed.

Lemma share_le_1 (t : nat) : (t < m)%nat -> share q u j e t <= 1.
Proof.
  intros Ht. rewrite <- (orthonormal_norm q m u t Hu Ht).
  apply bessel; assumption.
Qed.

Lemma share_total : Fsum m (share q u j e) <= Fnat j.
Proof.
  unfold share. rewrite Fsum_swap. unfold Fnat. apply Fsum_le. intros b Hb.
  rewrite (@Fsum_ext _ m _ (fun t => dot q (e b) (u t) * dot q (e b) (u t)
                                    / dot q (u t) (u t) * (1 / dot q (e b) (e b)))).
  - rewrite Fsum_scale_r.
    replace 1 with (dot q (e b) (e b) * (1 / dot q (e b) (e b)))
      at 2 by (field; apply Hne, Hb).
    apply Fle_mul_r; [apply Fle_0_inv; [apply dot_nonneg | apply Hne, Hb]|].
    apply bessel.
    + apply orthonormal_orthogonal, Hu.
    + intros t Ht. rewrite (orthonormal_norm q m u t Hu Ht). apply F_1_neq_0.
  - intros t Ht. rewrite (orthonormal_norm q m u t Hu Ht).
    rewrite (dot_sym q (u t) (e b)). field.
    split; [apply Hne, Hb | apply F_1_neq_0].
Qed.

(** Column [c] of the matrix, and its inner product with a vector. *)
Lemma dot_column (c : nat) (z : nat -> F) :
  dot q (fun i => svd_sum m u sg v i c) z =
  comb m (fun t => sg t * dot q (u t) z) v c.
Proof.
  rewrite (dot_ext q _ (comb m (fun t => sg t * v t c) u) z z).
  - rewrite dot_comb_l. unfold comb. apply Fsum_ext. intros t _. ring.
  - intros i _. unfold svd_sum, comb. apply Fsum_ext. intros t _. ring.
  - reflexivity.
Qed.

(** The energy of the matrix inside the span of [e]. *)
Lemma captured_energy :
  Fsum l (fun c => Fsum j (fun b =>
     dot q (fun i => svd_sum m u sg v i c) (e b)
     * dot q (fun i => svd_sum m u sg v i c) (e b) / dot q (e b) (e b))) =
  Fsum m (fun t => sg t * sg t * share q u j e t).
Proof.
  rewrite Fsum_swap.
  rewrite (@Fsum_ext _ j _ (fun b =>
     Fsum m (fun t => sg t * sg t *
       (dot q (u t) (e b) * dot q (u t) (e b) / dot q (e b) (e b))))).
  - rewrite Fsum_swap. apply Fsum_ext. intros t _.
    unfold share. rewrite <- Fsum_scale_l. reflexivity.
  - intros b Hb.
    rewrite (@Fsum_ext _ l _ (fun c =>
       comb m (fun t => sg t * dot q (u t) (e b)) v c
       * comb m (fun t => sg t * dot q (u t) (e b)) v c
       * (1 / dot q (e b) (e b)))).
    + rewrite Fsum_scale_r.
      fold (dot l (comb m (fun t => sg t * dot q (u t) (e b)) v)
                  (comb m (fun t => sg t * dot q (u t) (e b)) v)).
      rewrite (dot_comb_orthonormal l m _ v Hv).
      rewrite <- Fsum_scale_r. apply Fsum_ext. intros t _.
      field. apply Hne, Hb.
    + intros c _. rewrite dot_column. field. apply Hne, Hb.
Qed.

(** Every matrix whose columns lie in the span of [e] is at least as far
    from the sum as the energy the span leaves out. *)
Lemma distance_to_columns_in_span (d : nat -> nat -> F) :
  Fsum m (fun t => sg t * sg t) - Fsum m (fun t => sg t * sg t * share q u j e t)
  <= frob2 q l (fun i c => svd_sum m u sg v i c - comb j (d c) e i).
Proof.
  rewrite <- norm_of_svd_sum, <- captured_energy.
  rewrite !frob2_columns. rewrite <- Fsum_sub.
  apply Fsum_le. intros c Hc.
  apply (distance_to_span q j (fun i => svd_sum m u sg v i c) (d c) e He Hne).
Qed.

End Approximation.

(** Eckart-Young for the Frobenius norm: among the matrices [P Q] of rank
    at most [k], none is closer to the sum than its first [k] terms. *)
Lemma eckart_young (q l m k : nat) (u v : nat -> nat -> F) (sg : nat -> F)
      (P Q : nat -> nat -> F) :
  orthonormal q m u -> orthonormal l m v -> (k <= m)%nat ->
  (forall t, (S t < m)%nat -> sg (S t) <= sg t) ->
  (forall t, (t < m)%nat -> 0 <= sg t) ->
  frob2 q l (fun i c => svd_sum m u sg v i c - svd_sum k u sg v i c)
  <= frob2 q l (fun i c => svd_sum m u sg v i c - Fsum k (fun a => P i a * Q a c)).
Proof.
  intros Hu Hv Hk Hdec Hpos.
  destruct (gram_schmidt q k (fun a i => P i a)) as (j & e & coef & Hj & Ho & Hn & Hp).
  set (d := fun c b => Fsum k (fun a => Q a c * coef a b)).
  rewrite (frob2_ext q l (fun i c => svd_sum m u sg v i c - Fsum k (fun a => P i a * Q a c))
             (fun i c => svd_sum m u sg v i c - comb j (d c) e i)).
  2:{ intros i c Hi Hc. f_equal. unfold comb, d.
      rewrite (@Fsum_ext _ k _ (fun a => Fsum j (fun b => Q a c * coef a b * e b i))).
      - rewrite Fsum_swap. apply Fsum_ext. intros b _.
        rewrite <- Fsum_scale_r. reflexivity.
      - intros a Ha. rewrite (Hp a Ha i Hi). unfold comb.
        rewrite <- Fsum_scale_r. apply Fsum_ext. intros b _. ring. }
  eapply Fleb_trans; [|apply (distance_to_columns_in_span q l m u v sg Hu Hv j e Ho Hn d)].
  rewrite (truncation_error q l m k u v sg Hu Hv Hk).
  assert (Hw : Fsum m (fun t => sg t * sg t * share q u j e t)
               <= Fsum k (fun t => sg t * sg t)).
  { apply (weighted_sum_bound m k (fun t => sg t * sg t) (share q u j e)).
    - exact Hk.
    - intros t Ht. apply Fle_sq; [apply Hpos; lia | apply Hdec, Ht].
    - intros t Ht. apply Fle_0_sq.
    - intros t Ht. apply share_nonneg. exact Hn.
    - intros t Ht. apply (share_le_1 q m u Hu j e Ho Hn t Ht).
    - eapply Fleb_trans; [apply (share_total q m u Hu j e Hn) | apply Fnat_le, Hj]. }
  apply Fle_0_sub in Hw. apply Fle_sub_0.
  match goal with
  | |- 0 <= ?x => match type of Hw with 0 <= ?y => replace x with y; [exact Hw|] end
  end.
  rewrite (@Fsum_split_at _ k m (fun t => sg t * sg t)) by exact Hk. ring.
Qed.

End EckartYoung.

(* ================================================================= *)
(** * The preserved term is the best rank-k approximation *)

Section Optimality.
Context {OF : OrderedField}.

Add Field F_field9 : Fth.

Lemma descending_nonneg_spec (S : vector) :
  descending_nonneg S ->
  (forall t, Datatypes.S t < length S -> (rvget S (Datatypes.S t) <= rvget S t)%F) /\
  (forall t, t < length S -> (0 <= rvget S t)%F).
Proof.
  unfold descending_nonneg. rewrite forallb_forall. intros H. split.
  - intros t Ht. specialize (H t). rewrite andb_true_iff in H.
    destruct H as [_ H]; [apply in_seq; lia|].
    apply Nat.ltb_lt in Ht. rewrite Ht in H. exact H.
  - intros t Ht. specialize (H t). rewrite andb_true_iff in H.
    destruct H as [H _]; [apply in_seq; lia|]. exact H.
Qed.

Lemma rget_mtab (r c : nat) (f : nat -> nat -> scalar) (i j : nat) :
  i < r -> j < c -> rget (mtab r c f) i j = num_of (f i j).
Proof. intros Hi Hj. unfold rget. rewrite mget_mtab by assumption. reflexivity. Qed.

Lemma orthonormal_of_columns (U : matrix) :
  finite_matrix U -> mmul (mT U) U = midentity (ncols U) ->
  orthonormal (nrows U) (ncols U) (fun t i => rget U i t).
Proof.
  intros HU Ho a b Ha Hb. unfold dot.
  apply (orthonormal_columns HU Ho Ha Hb).
Qed.

Lemma orthonormal_of_rows (Vh : matrix) :
  finite_matrix Vh -> mmul Vh (mT Vh) = midentity (nrows Vh) ->
  orthonormal (ncols Vh) (nrows Vh) (fun t c => rget Vh t c).
Proof.
  intros HV Ho a b Ha Hb. unfold dot.
  rewrite <- (rget_midentity Ha Hb), <- Ho.
  rewrite rget_mmul by (finite || shape).
  apply Fsum_ext. intros c Hc. rewrite rget_mT by assumption. reflexivity.
Qed.

Section BestApproximation.

Variables (W X Y U Vh : matrix) (S : vector) (k : Z).
Hypothesis Hshapes : svd_shapes W U S Vh.
Hypothesis HfU : finite_matrix U.
Hypothesis HfS : finite_vector S.
Hypothesis HfVh : finite_matrix Vh.
Hypothesis Hexact : W = mmul (mmul U (mdiag S)) Vh.
Hypothesis HoU : mmul (mT U) U = midentity (ncols U).
Hypothesis HoV : mmul Vh (mT Vh) = midentity (nrows Vh).
Hypothesis Hdesc : descending_nonneg S.
Hypothesis Hk : (0 <= k <= Z.of_nat (Nat.min (nrows W) (ncols W)))%Z.

Let W_k := l_W_k (trace U S Vh X Y k).

(** The preserved term is the truncated SVD. *)
Lemma W_k_is_truncated_svd : W_k = truncated_svd U S Vh (Z.to_nat k).
Proof.
  pose proof (finite_W_k X Y Hshapes HfU HfS HfVh Hk) as Hf.
  destruct Hshapes as [HU1 HU2 HS HV1 HV2].
  fold W_k in Hf.
  assert (Hr : nrows W_k = nrows U) by (unfold W_k, trace; cbn [l_W_k]; shape).
  assert (Hc : ncols W_k = ncols Vh) by (unfold W_k, trace; cbn [l_W_k]; shape).
  apply finite_matrix_ext; try assumption.
  - unfold W_k, trace. cbn [l_W_k]. apply wf_mtab.
  - apply wf_mtab.
  - apply finite_mtab. reflexivity.
  - intros i j Hi Hj. unfold W_k.
    rewrite (rget_W_k X Y Hshapes HfU HfS HfVh Hk) by lia.
    unfold truncated_svd. rewrite rget_mtab by lia. reflexivity.
Qed.

(** It has rank at most [k]. *)
Lemma W_k_rank : rank_at_most (Z.to_nat k) W_k.
Proof.
  pose proof (slice_kept_U Hshapes Hk) as E1.
  pose proof (slice_kept_S Hshapes Hk) as E2.
  pose proof (slice_kept_Vh Hshapes Hk) as E3.
  destruct Hshapes as [HU1 HU2 HS HV1 HV2].
  exists (mmul (mcols_to U k) (mdiag (vtake S k))), (mT (mcols_to (mT Vh) k)).
  unfold W_k, trace. cbn [l_W_k].
  split; [finite|]. split; [finite|]. repeat split; shape.
Qed.

(** No matrix of rank at most [k] is closer to [W_noisy] in Frobenius
    norm. *)
Lemma W_k_closest (M : matrix) :
  finite_matrix M -> nrows M = nrows W -> ncols M = ncols W ->
  rank_at_most (Z.to_nat k) M ->
  (frobenius2 (msub W W_k) <= frobenius2 (msub W M))%F.
Proof.
  intros HfM HMr HMc (P & Q & HfP & HfQ & HP1 & HP2 & HQ1 & HQ2 & HM).
  pose proof (finite_W Hshapes HfU HfS HfVh Hk Hexact) as HfW.
  pose proof (finite_W_k X Y Hshapes HfU HfS HfVh Hk) as HfWk. fold W_k in HfWk.
  destruct (descending_nonneg_spec S Hdesc) as [Hdec Hpos].
  pose proof (orthonormal_of_columns U HfU HoU) as Hu.
  pose proof (orthonormal_of_rows Vh HfVh HoV) as Hv.
  pose proof Hshapes as [HU1 HU2 HS HV1 HV2].
  assert (Hr : nrows W_k = nrows W) by (unfold W_k, trace; cbn [l_W_k]; shape).
  assert (Hc : ncols W_k = ncols W) by (unfold W_k, trace; cbn [l_W_k]; shape).
  set (m := Nat.min (nrows W) (ncols W)) in *.
  unfold frobenius2. rewrite !nrows_msub, !ncols_msub.
  rewrite (frob2_ext (nrows W) (ncols W) (rget (msub W W_k))
     (fun i c => (svd_sum m (fun t i => rget U i t) (rvget S) (rget Vh) i c
                  - svd_sum (Z.to_nat k) (fun t i => rget U i t) (rvget S) (rget Vh) i c)%F)).
  2:{ intros i c Hi Hc'. rewrite rget_msub by (assumption || lia).
      rewrite (rget_W Hshapes HfU HfS HfVh Hk Hexact Hi Hc').
      unfold W_k. rewrite (rget_W_k X Y Hshapes HfU HfS HfVh Hk Hi Hc').
      reflexivity. }
  rewrite (frob2_ext (nrows W) (ncols W) (rget (msub W M))
     (fun i c => (svd_sum m (fun t i => rget U i t) (rvget S) (rget Vh) i c
                  - Fsum (Z.to_nat k) (fun a => rget P i a * rget Q a c))%F)).
  2:{ intros i c Hi Hc'. rewrite rget_msub by (assumption || lia).
      rewrite (rget_W Hshapes HfU HfS HfVh Hk Hexact Hi Hc').
      rewrite HM. rewrite rget_mmul by (assumption || lia).
      rewrite HP2. reflexivity. }
  rewrite HU1, HU2 in Hu. rewrite HV1, HV2 in Hv.
  apply eckart_young.
  - exact Hu.
  - exact Hv.
  - unfold m. lia.
  - intros t Ht. apply Hdec. lia.
  - intros t Ht. apply Hpos. lia.
Qed.

End BestApproximation.

End Optimality.

Module Example43Facts.

Import Example43.

Lemma svd43_shapes_ok : svd_shapes W U S Vh.
Proof. constructor; reflexivity. Qed.

Lemma conforming43_ok : conforming W X Y.
Proof. constructor; reflexivity. Qed.

Lemma svd43_exact : W = mmul (mmul U (mdiag S)) Vh.
Proof. apply matrix_eqb_eq. vm_compute. reflexivity. Qed.

Lemma orthonormal_U : mmul (mT U) U = midentity (ncols U).
Proof. apply matrix_eqb_eq. vm_compute. reflexivity. Qed.

Lemma orthonormal_Vh : mmul Vh (mT Vh) = midentity (nrows Vh).
Proof. apply matrix_eqb_eq. vm_compute. reflexivity. Qed.

Lemma finite_factors : finite_matrix U /\ finite_vector S /\ finite_matrix Vh.
Proof. repeat split; vm_compute; reflexivity. Qed.

Lemma singular_values_ok : descending_nonneg S.
Proof. vm_compute. reflexivity. Qed.

End Example43Facts.

(* ================================================================= *)
(** * Special values among the refined singular values *)

Section Propagation.
Context {OF : OrderedField}.

Lemma sadd_nan_l (a : scalar) : sadd NaN a = NaN.
Proof. reflexivity. Qed.

Lemma sadd_nan_r (a : scalar) : sadd a NaN = NaN.
Proof. destruct a; reflexivity. Qed.

Lemma smul_nan_l (a : scalar) : smul NaN a = NaN.
Proof. reflexivity. Qed.

Lemma smul_nan_r (a : scalar) : smul a NaN = NaN.
Proof. destruct a; reflexivity. Qed.

Lemma ssum_nan (n : nat) (f : nat -> scalar) (t : nat) :
  t < n -> f t = NaN -> ssum n f = NaN.
Proof.
  induction n as [|n IH]; intros Ht Hf; [lia|]. cbn [ssum].
  destruct (Nat.eq_dec t n) as [->|Hne].
  - rewrite Hf. apply sadd_nan_r.
  - rewrite IH by (lia || assumption). reflexivity.
Qed.

Variables (W X Y U Vh : matrix) (S : vector) (k : Z).
Hypothesis Hshapes : svd_shapes W U S Vh.

Let l := trace U S Vh X Y k.
Let r := ncols U - slice_index k (ncols U).

Lemma length_sigma_refined_any : length (l_sigma_refined l) = r.
Proof. unfold l, trace; cbn [l_sigma_refined]. unfold r. shape. Qed.

(** A special value among the refined singular values reaches every entry
    of the result. *)
Lemma special_value_reaches_every_entry (i a b : nat) :
  i < r -> is_finite (vget (l_sigma_refined l) i) = false ->
  a < nrows W -> b < ncols W ->
  is_finite (mget (l_W_refined l) a b) = false.
Proof.
  intros Hi Hsig Ha Hb. pose proof length_sigma_refined_any as Hlen.
  destruct Hshapes as [HU1 HU2 HS HV1 HV2].
  assert (Hslice : slice_index k (nrows Vh) = slice_index k (ncols U)) by congruence.
  pose proof (slice_index_le k (ncols U)) as Hle.
  unfold r in *.
  change (l_W_refined l) with
    (madd (l_W_k l) (mmul (mmul (l_U_l l) (mdiag (l_sigma_refined l))) (mT (l_V_l l)))).
  change (l_U_l l) with (mcols_from U k). change (l_V_l l) with (mcols_from (mT Vh) k).
  rewrite mget_madd by (unfold l, trace; cbn [l_W_k]; shape).
  apply sadd_special_r.
  rewrite mget_mmul by shape.
  apply ssum_special with (t := i); [shape|].
  apply smul_special_l.
  rewrite mget_mmul by shape.
  apply ssum_special with (t := i); [shape|].
  apply smul_special_r.
  rewrite mget_mdiag, Nat.eqb_refl by lia. exact Hsig.
Qed.

(** A NaN among the refined singular values makes every entry of the
    result NaN. *)
Lemma nan_reaches_every_entry (i a b : nat) :
  i < r -> vget (l_sigma_refined l) i = NaN ->
  a < nrows W -> b < ncols W ->
  mget (l_W_refined l) a b = NaN.
Proof.
  intros Hi Hsig Ha Hb. pose proof length_sigma_refined_any as Hlen.
  destruct Hshapes as [HU1 HU2 HS HV1 HV2].
  assert (Hslice : slice_index k (nrows Vh) = slice_index k (ncols U)) by congruence.
  pose proof (slice_index_le k (ncols U)) as Hle.
  unfold r in *.
  change (l_W_refined l) with
    (madd (l_W_k l) (mmul (mmul (l_U_l l) (mdiag (l_sigma_refined l))) (mT (l_V_l l)))).
  change (l_U_l l) with (mcols_from U k). change (l_V_l l) with (mcols_from (mT Vh) k).
  rewrite mget_madd by (unfold l, trace; cbn [l_W_k]; shape).
  rewrite mget_mmul by shape.
  rewrite (@ssum_nan _ _ i); [apply sadd_nan_r | shape |].
  rewrite mget_mmul by shape.
  rewrite (@ssum_nan _ _ i); [apply smul_nan_l | shape |].
  rewrite mget_mdiag, Nat.eqb_refl by lia. rewrite Hsig. apply smul_nan_r.
Qed.

End Propagation.

Section DegenerateRuns.
Context {OF : OrderedField}.

Lemma nondegenerate_B (W X Y U Vh : matrix) (S : vector) (k : Z) :
  svd_shapes W U S Vh ->
  (0 <= k <= Z.of_nat (Nat.min (nrows W) (ncols W)))%Z ->
  nondegenerate U X k ->
  forall i, i < Nat.min (nrows W) (ncols W) - Z.to_nat k ->
    mget (l_B (trace U S Vh X Y k)) i i <> Num 0%F.
Proof.
  intros Hsh Hk Hnd i Hi. apply (nondegenerate_spec Hnd).
  rewrite (@slice_kept_U _ W U Vh S k Hsh Hk). destruct Hsh. lia.
Qed.

Lemma ssub_special_l (a b : scalar) :
  is_finite a = false -> is_finite (ssub a b) = false.
Proof.
  destruct a as [x|s|], b as [y|t|]; cbn; try discriminate; try reflexivity.
  intros _. destruct (eqb s t); reflexivity.
Qed.

(** A product with a factor that has a non-finite entry in every row of
    its, or in every column. *)
Lemma nowhere_finite_mmul_r (a b : matrix) :
  ncols a = nrows b -> 0 < nrows b -> nowhere_finite b -> nowhere_finite (mmul a b).
Proof.
  intros Hab Hb H i j Hi Hj. autorewrite with shape in Hi, Hj.
  rewrite mget_mmul by assumption.
  apply ssum_special with (t := 0); [lia|].
  apply smul_special_r. apply H; lia.
Qed.

Lemma nowhere_finite_mmul_l (a b : matrix) :
  ncols a = nrows b -> 0 < ncols a -> nowhere_finite a -> nowhere_finite (mmul a b).
Proof.
  intros Hab Ha H i j Hi Hj. autorewrite with shape in Hi, Hj.
  rewrite mget_mmul by assumption.
  apply ssum_special with (t := 0); [lia|].
  apply smul_special_l. apply H; lia.
Qed.

Lemma nowhere_finite_msub_l (a b : matrix) :
  nowhere_finite a -> nowhere_finite (msub a b).
Proof.
  intros H i j Hi Hj. autorewrite with shape in Hi, Hj.
  rewrite mget_msub by assumption. apply ssub_special_l, H; assumption.
Qed.

(** Either no residual axis has zero feature energy, or one has. *)
Lemma nondegenerate_or_not (U X : matrix) (k : Z) :
  nondegenerate U X k \/
  exists i, i < ncols U - slice_index k (ncols U) /\
            mget (feature_energy U X k) i i = Num 0%F.
Proof.
  unfold nondegenerate.
  destruct (forallb (fun i => negb (scalar_eqb (mget (feature_energy U X k) i i) (Num 0%F)))
                    (seq 0 (ncols U - slice_index k (ncols U)))) eqn:E.
  - left. reflexivity.
  - right.
    assert (H : ~ (forall i, In i (seq 0 (ncols U - slice_index k (ncols U))) ->
                   negb (scalar_eqb (mget (feature_energy U X k) i i) (Num 0%F)) = true)).
    { intros H. apply forallb_forall in H. congruence. }
    induction (ncols U - slice_index k (ncols U)) as [|n IH].
    + exfalso. apply H. intros i [].
    + destruct (scalar_eqb (mget (feature_energy U X k) n n) (Num 0%F)) eqn:En.
      * exists n. split; [lia | apply scalar_eqb_eq, En].
      * destruct IH as (i & Hi & Hz).
        -- rewrite seq_S in E. rewrite forallb_app in E. cbn [forallb Nat.add] in E.
           rewrite En in E. cbn in E. rewrite andb_true_r in E. exact E.
        -- intros H'. apply H. intros i Hi. rewrite seq_S in Hi.
           apply in_app_iff in Hi. destruct Hi as [Hi|[<-|[]]]; [apply H', Hi|].
           cbn [Nat.add]. rewrite En. reflexivity.
        -- exists i. split; [lia | exact Hz].
Qed.

Variables (W X Y U Vh : matrix) (S : vector) (k : Z).
Hypothesis Hshapes : svd_shapes W U S Vh.
Hypothesis Hconf : conforming W X Y.
Hypothesis HfU : finite_matrix U.
Hypothesis HfS : finite_vector S.
Hypothesis HfVh : finite_matrix Vh.
Hypothesis HfX : finite_matrix X.
Hypothesis HfY : finite_matrix Y.
Hypothesis Hk : (0 <= k <= Z.of_nat (Nat.min (nrows W) (ncols W)))%Z.

Let r := Nat.min (nrows W) (ncols W) - Z.to_nat k.
Let l := trace U S Vh X Y k.

Lemma residual_axes : ncols U - slice_index k (ncols U) = r.
Proof.
  rewrite (@slice_kept_U _ W U Vh S k Hshapes Hk). destruct Hshapes. unfold r. lia.
Qed.

(** A residual axis of zero feature energy gives a refined singular value
    that is not finite, and a result without any finite entry. *)
Lemma zero_energy_spoils_the_result (i : nat) :
  i < r -> mget (l_B l) i i = Num 0%F ->
  is_finite (vget (l_sigma_refined l) i) = false /\ nowhere_finite (l_W_refined l).
Proof.
  intros Hi HB. pose proof residual_axes as Hr.
  assert (HrA : nrows (l_A l) = r)
    by (destruct (@shape_A _ W X Y U Vh S k Hshapes Hk) as [H _]; exact H).
  assert (Hsig : is_finite (vget (l_sigma_refined l) i) = false).
  { change (l_sigma_refined l) with
      (tab (nrows (l_A l)) (fun i => sdiv (mget (l_A l) i i) (mget (l_B l) i i))).
    rewrite vget_tab by lia. rewrite HB. apply sdiv_zero. }
  split; [exact Hsig|].
  intros a b Ha Hb.
  apply (@special_value_reaches_every_entry _ W X Y U Vh S k Hshapes i a b);
    [lia | exact Hsig | | ];
    unfold l in *; rewrite W_refined_eq in Ha, Hb; unfold trace in Ha, Hb;
    cbn [l_W_k] in Ha, Hb; autorewrite with shape in Ha, Hb; destruct Hshapes; lia.
Qed.

(** The two outcomes of a run on a valid input. *)
Lemma finite_or_spoiled :
  (nondegenerate U X k /\ finite_vector (l_sigma_refined l)) \/
  ((exists i, i < r /\ mget (l_B l) i i = Num 0%F) /\
   (exists i, i < r /\ is_finite (vget (l_sigma_refined l) i) = false) /\
   nowhere_finite (l_W_refined l)).
Proof.
  pose proof residual_axes as Hr.
  destruct (nondegenerate_or_not U X k) as [Hnd|(i & Hi & HB)].
  - left. split; [exact Hnd|].
    apply (@finite_sigma_refined _ W X Y U Vh S k Hshapes Hconf HfU HfS HfVh HfX HfY Hk).
    intros j Hj. apply (nondegenerate_spec Hnd). lia.
  - right. rewrite Hr in Hi.
    destruct (zero_energy_spoils_the_result i Hi HB) as [Hs Hw].
    split; [exists i; split; assumption|].
    split; [exists i; split; assumption | exact Hw].
Qed.

End DegenerateRuns.

(* ================================================================= *)
(** * Properties of the specification *)



(** C2, amended.  When some diagonal entry [B[i,i]] is zero, [lip] performs
    no check: it raises nothing, [sigma_refined[i]] is the special value
    the division yields (NaN or an infinity), and it reaches every entry
    of the returned [W_refined]. *)
Theorem lip_degenerate_energy {OF : OrderedField}
        (svd : svd_oracle) (W X Y : matrix) (k : Z)
        (U : matrix) (S : vector) (Vh : matrix) (i : nat) :
  svd W = Ok (U, S, Vh) -> svd_shapes W U S Vh -> conforming W X Y ->
  i < ncols U - slice_index k (ncols U) ->
  mget (feature_energy U X k) i i = Num 0%F ->
  exists l,
    lip_locals svd W X Y k = Ok l /\
    lip_v svd W X Y k = Ok (l_W_refined l) /\
    is_finite (vget (l_sigma_refined l) i) = false /\
    forall a b, a < nrows W -> b < ncols W ->
      is_finite (mget (l_W_refined l) a b) = false.
Proof.
  intros Hsvd Hsh Hc Hi HB. exists (trace U S Vh X Y k).
  split; [apply (@lip_locals_run _ svd W X Y k U S Vh Hsvd Hsh Hc)|].
  split; [apply (@lip_v_run _ svd W X Y k U S Vh Hsvd Hsh Hc)|].
  destruct Hsh as [HU1 HU2 HS HV1 HV2].
  assert (Hslice : slice_index k (nrows Vh) = slice_index k (ncols U)) by congruence.
  pose proof (slice_index_le k (ncols U)) as Hle.
  set (l := trace U S Vh X Y k).
  assert (HrA : nrows (l_A l) = ncols U - slice_index k (ncols U))
    by (unfold l, trace; cbn [l_A]; shape).
  assert (Hsig : is_finite (vget (l_sigma_refined l) i) = false).
  { change (l_sigma_refined l) with
      (tab (nrows (l_A l)) (fun i => sdiv (mget (l_A l) i i) (mget (l_B l) i i))).
    rewrite vget_tab by lia.
    change (l_B l) with (feature_energy U X k). rewrite HB. apply sdiv_zero. }
  split; [exact Hsig|].
  intros a b Ha Hb.
  change (l_W_refined l) with
    (madd (l_W_k l) (mmul (mmul (l_U_l l) (mdiag (l_sigma_refined l))) (mT (l_V_l l)))).
  assert (Hlen : length (l_sigma_refined l) = ncols U - slice_index k (ncols U)).
  { change (l_sigma_refined l) with
      (tab (nrows (l_A l)) (fun i => sdiv (mget (l_A l) i i) (mget (l_B l) i i))).
    rewrite length_tab. exact HrA. }
  change (l_U_l l) with (mcols_from U k). change (l_V_l l) with (mcols_from (mT Vh) k).
  rewrite mget_madd by (unfold l, trace; cbn [l_W_k]; shape).
  apply sadd_special_r.
  rewrite mget_mmul by shape.
  apply ssum_special with (t := i); [shape|].
  apply smul_special_l.
  rewrite mget_mmul by shape.
  apply ssum_special with (t := i); [shape|].
  apply smul_special_r.
  rewrite mget_mdiag, Nat.eqb_refl by lia. exact Hsig.
Qed.

(** C2, as stated, fails: with [B[0,0] = 0] the call raises nothing and
    returns a matrix of NaN. *)
Lemma degenerate_energy_is_not_detected :
  mget (feature_energy Example.I2 Example.X0 1) 0 0 = Num 0%F /\
  lip_v Example.svd0 Example.W0 Example.X0 Example.Y0 1 =
  Ok (Mat 2 2 [[NaN; NaN]; [NaN; NaN]]).
Proof.
  split.
  - apply scalar_eqb_eq. vm_compute. reflexivity.
  - apply returns_eq. vm_compute. reflexivity.
Qed.

Lemma lip_degenerate_energy_witness :
  exists l,
    lip_locals Example.svd0 Example.W0 Example.X0 Example.Y0 1 = Ok l /\
    lip_v Example.svd0 Example.W0 Example.X0 Example.Y0 1 = Ok (l_W_refined l) /\
    is_finite (vget (l_sigma_refined l) 0) = false /\
    forall a b, a < 2 -> b < 2 -> is_finite (mget (l_W_refined l) a b) = false.
Proof.
  apply (@lip_degenerate_energy Qc_field Example.svd0 Example.W0 Example.X0
           Example.Y0 1 Example.I2 Example.S0 Example.I2 0).
  - reflexivity.
  - exact ExampleFacts.svd0_shapes_ok.
  - exact ExampleFacts.conforming0_ok.
  - vm_compute. lia.
  - apply scalar_eqb_eq. vm_compute. reflexivity.
Defined.

(** C3, amended.  [lip] validates nothing itself; after the SVD has been
    computed, an [X] whose column count is not q, or a [Y] that cannot be
    broadcast to (n, l), meets a shape error of the operation that reads
    it; a [Y] that broadcasts to (n, l) is accepted and silently
    broadcast; and a rank parameter outside [0, min(q, l)] is never
    rejected: the slices wrap and clamp it. *)
Theorem lip_shape_errors {OF : OrderedField}
        (svd : svd_oracle) (W X Y : matrix) (k : Z)
        (U : matrix) (S : vector) (Vh : matrix) :
  svd W = Ok (U, S, Vh) -> svd_shapes W U S Vh ->
  (ncols X <> nrows W -> lip_v svd W X Y k = Raise ShapeError) /\
  (ncols X = nrows W -> broadcasts_to Y (nrows X) (ncols W) = false ->
   lip_v svd W X Y k = Raise ShapeError) /\
  (ncols X = nrows W -> broadcasts_to Y (nrows X) (ncols W) = true ->
   lip_v svd W X Y k = lip_v svd W X (mbroadcast Y (nrows X) (ncols W)) k /\
   is_ok (lip_v svd W X Y k) = true) /\
  lip_v svd W X Y k =
  lip_v svd W X Y (Z.of_nat (slice_index k (Nat.min (nrows W) (ncols W)))).
Proof.
  intros Hsvd Hsh. split; [|split; [|split]].
  - apply (@lip_rejects_X _ svd W X Y U Vh S k Hsvd Hsh).
  - apply (@lip_rejects_Y _ svd W X Y U Vh S k Hsvd Hsh).
  - apply (@lip_broadcasts_Y _ svd W X Y U Vh S k Hsvd Hsh).
  - apply (@lip_normalises_k _ svd W X Y U Vh S k Hsvd Hsh).
Qed.

(** C3, as stated, fails: a label matrix of one row against three samples
    is broadcast, and a negative rank parameter is read from the end; both
    calls return a matrix. *)
Lemma invalid_inputs_are_accepted :
  (nrows Example.Yrow <> nrows Example.X /\
   is_ok (lip_v Example.svd Example.W Example.X Example.Yrow 1) = true) /\
  ((-1 < 0)%Z /\
   is_ok (lip_v Example.svd Example.W Example.X Example.Y (-1)) = true /\
   lip_v Example.svd Example.W Example.X Example.Y (-1) =
   lip_v Example.svd Example.W Example.X Example.Y 1).
Proof.
  split; [split; [vm_compute; discriminate | vm_compute; reflexivity]|].
  split; [reflexivity|]. split; [vm_compute; reflexivity|].
  apply (@lip_normalises_k Qc_field Example.svd Example.W Example.X Example.Y
           Example.U Example.Vh Example.S (-1)).
  - reflexivity.
  - exact ExampleFacts.svd_shapes_ok.
Qed.

Lemma lip_shape_errors_witness :
  (ncols Example.X <> nrows Example.W ->
   lip_v Example.svd Example.W Example.X Example.Yrow (-1) = Raise ShapeError) /\
  (ncols Example.X = nrows Example.W ->
   broadcasts_to Example.Yrow (nrows Example.X) (ncols Example.W) = false ->
   lip_v Example.svd Example.W Example.X Example.Yrow (-1) = Raise ShapeError) /\
  (ncols Example.X = nrows Example.W ->
   broadcasts_to Example.Yrow (nrows Example.X) (ncols Example.W) = true ->
   lip_v Example.svd Example.W Example.X Example.Yrow (-1) =
   lip_v Example.svd Example.W Example.X
         (mbroadcast Example.Yrow (nrows Example.X) (ncols Example.W)) (-1) /\
   is_ok (lip_v Example.svd Example.W Example.X Example.Yrow (-1)) = true) /\
  lip_v Example.svd Example.W Example.X Example.Yrow (-1) =
  lip_v Example.svd Example.W Example.X Example.Yrow
        (Z.of_nat (slice_index (-1) (Nat.min (nrows Example.W) (ncols Example.W)))).
Proof.
  apply (@lip_shape_errors Qc_field Example.svd Example.W Example.X Example.Yrow
           (-1) Example.U Example.S Example.Vh).
  - reflexivity.
  - exact ExampleFacts.svd_shapes_ok.
Defined.

(** C4 (full-rank identity).  When [k = min(q, l)] the residual subspace
    is empty (r = 0): [lip] completes without error, the residual
    computations run on empty matrices ([U_l] and [V_l] have no column,
    [A] and [B] are 0-by-0, [sigma_refined] is empty) and contribute
    nothing, and [lip] returns [W_noisy] itself, whatever [X] and [Y] (of
    conforming shapes) are, for an SVD that reconstructs [W_noisy]. *)
Theorem lip_full_rank {OF : OrderedField}
        (svd : svd_oracle) (W X Y : matrix)
        (U : matrix) (S : vector) (Vh : matrix) :
  svd W = Ok (U, S, Vh) -> svd_shapes W U S Vh -> conforming W X Y ->
  W = mmul (mmul U (mdiag S)) Vh ->
  exists l,
    lip_locals svd W X Y (Z.of_nat (Nat.min (nrows W) (ncols W))) = Ok l /\
    (ncols (l_U_l l) = 0 /\ ncols (l_V_l l) = 0 /\
     nrows (l_A l) = 0 /\ ncols (l_A l) = 0 /\
     nrows (l_B l) = 0 /\ ncols (l_B l) = 0 /\
     l_sigma_refined l = []) /\
    l_W_k l = W /\
    l_W_refined l = W /\
    lip_v svd W X Y (Z.of_nat (Nat.min (nrows W) (ncols W))) = Ok W.
Proof.
  intros Hsvd Hsh Hc HW.
  set (k := Z.of_nat (Nat.min (nrows W) (ncols W))).
  exists (trace U S Vh X Y k).
  pose proof (@lip_locals_run _ svd W X Y k U S Vh Hsvd Hsh Hc) as Hrun.
  pose proof (@lip_v_run _ svd W X Y k U S Vh Hsvd Hsh Hc) as Hv.
  destruct Hsh as [HU1 HU2 HS HV1 HV2].
  assert (Hk : forall n, n = Nat.min (nrows W) (ncols W) -> slice_index k n = n)
    by (intros n ->; apply slice_index_above; unfold k; lia).
  pose proof (Hk _ HU2) as HkU. pose proof (Hk _ HS) as HkS.
  pose proof (Hk _ HV1) as HkV.
  assert (HWk : l_W_k (trace U S Vh X Y k) = W).
  { unfold trace. cbn [l_W_k].
    transitivity (mmul (mmul U (mdiag S)) Vh); [|symmetry; exact HW].
    assert (E : vtake S k = S) by (unfold vtake; rewrite HkS; apply firstn_all).
    rewrite E. apply mmul_ext; try shape.
    - intros i j Hi Hj. f_equal. apply mmul_ext; try shape; try reflexivity.
      intros i' t Hi' Ht. rewrite nrows_mcols_to in Hi'.
      rewrite ncols_mcols_to in Ht. apply mget_mcols_to; assumption.
    - intros t j Ht Hj. rewrite ncols_mmul, ncols_mdiag in Ht.
      rewrite ncols_mT, nrows_mcols_to, nrows_mT in Hj.
      rewrite mget_mT by shape.
      rewrite mget_mcols_to by shape.
      apply mget_mT; lia. }
  assert (HA : nrows (l_A (trace U S Vh X Y k)) = 0)
    by (unfold trace; cbn [l_A]; shape).
  assert (HWr : l_W_refined (trace U S Vh X Y k) = W).
  { revert HWk. unfold trace. cbn [l_W_k l_W_refined]. intros ->.
    rewrite mmul_empty_inner by shape.
    autorewrite with shape. rewrite HU1, HV2.
    apply madd_mzero_r. rewrite HW. apply wf_mtab. }
  split; [exact Hrun|]. split; [|split; [exact HWk|split; [exact HWr|]]].
  - unfold trace in *. cbn [l_U_l l_V_l l_A l_B l_sigma_refined] in *.
    rewrite HA. repeat split; shape.
  - rewrite Hv, HWr. reflexivity.
Qed.

Lemma lip_full_rank_witness :
  exists l,
    lip_locals Example.svd Example.W Example.X Example.Y 2 = Ok l /\
    (ncols (l_U_l l) = 0 /\ ncols (l_V_l l) = 0 /\
     nrows (l_A l) = 0 /\ ncols (l_A l) = 0 /\
     nrows (l_B l) = 0 /\ ncols (l_B l) = 0 /\
     l_sigma_refined l = []) /\
    l_W_k l = Example.W /\
    l_W_refined l = Example.W /\
    lip_v Example.svd Example.W Example.X Example.Y 2 = Ok Example.W.
Proof.
  apply (@lip_full_rank Qc_field Example.svd Example.W Example.X Example.Y
                        Example.U Example.S Example.Vh).
  - reflexivity.
  - exact ExampleFacts.svd_shapes_ok.
  - exact ExampleFacts.conforming_ok.
  - exact ExampleFacts.svd_exact.
Defined.

(** C5 (zero-rank preservation).  For every input with [k = 0], the
    preserved term [W_k] is the q-by-l zero matrix; the residual
    directions [U_l] and [V_l] are all the singular vectors; the LAP stage
    runs on the labels less [X] times the zero matrix, and
    [sigma_refined[i] = A[i,i] / B[i,i]] for each of the min(q, l) axes;
    and the returned [W_refined] is the re-estimated residual term
    [U_l @ diag(sigma_refined) @ V_l.t()] alone. *)
Theorem lip_zero_rank {OF : OrderedField}
        (svd : svd_oracle) (W X Y : matrix)
        (U : matrix) (S : vector) (Vh : matrix) :
  svd W = Ok (U, S, Vh) -> svd_shapes W U S Vh -> conforming W X Y ->
  exists l,
    lip_locals svd W X Y 0 = Ok l /\
    l_W_k l = mzero (nrows W) (ncols W) /\
    let m := Nat.min (nrows W) (ncols W) in
    (nrows (l_U_l l) = nrows W /\ ncols (l_U_l l) = m /\
     forall i j, i < nrows W -> j < m -> mget (l_U_l l) i j = mget U i j) /\
    (nrows (l_V_l l) = ncols W /\ ncols (l_V_l l) = m /\
     forall i j, i < ncols W -> j < m -> mget (l_V_l l) i j = mget Vh j i) /\
    l_residual l = msub Y (mmul X (mzero (nrows W) (ncols W))) /\
    l_A l = mmul (mmul (mT (l_U_l l)) (mmul (mT X) (l_residual l))) (l_V_l l) /\
    l_B l = mmul (mT (l_U_l l)) (mmul (mT X) (mmul X (l_U_l l))) /\
    (length (l_sigma_refined l) = m /\
     forall i, i < m ->
       vget (l_sigma_refined l) i = sdiv (mget (l_A l) i i) (mget (l_B l) i i)) /\
    l_S_l_refined l = mdiag (l_sigma_refined l) /\
    l_W_refined l = mmul (mmul (l_U_l l) (l_S_l_refined l)) (mT (l_V_l l)) /\
    lip_v svd W X Y 0 = Ok (l_W_refined l).
Proof.
  intros Hsvd Hsh Hc. exists (trace U S Vh X Y 0).
  pose proof (@lip_locals_run _ svd W X Y 0%Z U S Vh Hsvd Hsh Hc) as Hrun.
  pose proof (@lip_v_run _ svd W X Y 0%Z U S Vh Hsvd Hsh Hc) as Hv.
  destruct Hsh as [HU1 HU2 HS HV1 HV2].
  assert (HWk : l_W_k (trace U S Vh X Y 0) = mzero (nrows W) (ncols W)).
  { unfold trace. cbn [l_W_k].
    rewrite mmul_empty_inner by shape. f_equal; shape. }
  assert (HA : nrows (l_A (trace U S Vh X Y 0)) = Nat.min (nrows W) (ncols W))
    by (unfold trace; cbn [l_A]; shape).
  split; [exact Hrun|]. split; [exact HWk|]. cbv zeta.
  split; [|split; [|split; [|split; [|split; [|split; [|split; [|split]]]]]]].
  - unfold trace. cbn [l_U_l]. split; [shape|]. split; [shape|].
    intros i j Hi Hj. rewrite mget_mcols_from by shape.
    rewrite slice_index_0. reflexivity.
  - unfold trace. cbn [l_V_l]. split; [shape|]. split; [shape|].
    intros i j Hi Hj. rewrite mget_mcols_from by shape.
    rewrite slice_index_0. apply mget_mT; lia.
  - change (l_residual (trace U S Vh X Y 0))
      with (msub Y (mmul X (l_W_k (trace U S Vh X Y 0)))).
    rewrite HWk. reflexivity.
  - reflexivity.
  - reflexivity.
  - split.
    + unfold trace. cbn [l_sigma_refined]. rewrite length_tab. exact HA.
    + intros i Hi.
      change (l_sigma_refined (trace U S Vh X Y 0)) with
        (tab (nrows (l_A (trace U S Vh X Y 0)))
             (fun i => sdiv (mget (l_A (trace U S Vh X Y 0)) i i)
                            (mget (l_B (trace U S Vh X Y 0)) i i))).
      rewrite vget_tab by lia. reflexivity.
  - reflexivity.
  - revert HWk. unfold trace. cbn [l_W_k l_W_refined l_U_l l_S_l_refined l_V_l].
    intros ->. apply madd_mzero_l; [apply wf_mtab | shape | shape].
  - exact Hv.
Qed.

Lemma lip_zero_rank_witness :
  exists l,
    lip_locals Example.svd Example.W Example.X Example.Y 0 = Ok l /\
    l_W_k l = mzero (nrows Example.W) (ncols Example.W) /\
    let m := Nat.min (nrows Example.W) (ncols Example.W) in
    (nrows (l_U_l l) = nrows Example.W /\ ncols (l_U_l l) = m /\
     forall i j, i < nrows Example.W -> j < m ->
       mget (l_U_l l) i j = mget Example.U i j) /\
    (nrows (l_V_l l) = ncols Example.W /\ ncols (l_V_l l) = m /\
     forall i j, i < ncols Example.W -> j < m ->
       mget (l_V_l l) i j = mget Example.Vh j i) /\
    l_residual l =
      msub Example.Y (mmul Example.X (mzero (nrows Example.W) (ncols Example.W))) /\
    l_A l = mmul (mmul (mT (l_U_l l)) (mmul (mT Example.X) (l_residual l))) (l_V_l l) /\
    l_B l = mmul (mT (l_U_l l)) (mmul (mT Example.X) (mmul Example.X (l_U_l l))) /\
    (length (l_sigma_refined l) = m /\
     forall i, i < m ->
       vget (l_sigma_refined l) i = sdiv (mget (l_A l) i i) (mget (l_B l) i i)) /\
    l_S_l_refined l = mdiag (l_sigma_refined l) /\
    l_W_refined l = mmul (mmul (l_U_l l) (l_S_l_refined l)) (mT (l_V_l l)) /\
    lip_v Example.svd Example.W Example.X Example.Y 0 = Ok (l_W_refined l).
Proof.
  apply (@lip_zero_rank Qc_field Example.svd Example.W Example.X Example.Y
                        Example.U Example.S Example.Vh).
  - reflexivity.
  - exact ExampleFacts.svd_shapes_ok.
  - exact ExampleFacts.conforming_ok.
Defined.

(** With [k = 0] on the worked instance, the result is the re-estimated
    term, not the zero matrix. *)
Example lip_zero_rank_on_instance :
  lip_v Example.svd Example.W Example.X Example.Y 0 =
  Ok (Mat 2 2 [[Example.qnum 51 74; Example.qnum (-4) 13];
               [Example.qnum 34 37; Example.qnum 3 13]]).
Proof. apply returns_eq. vm_compute. reflexivity. Qed.

(** C6 (rank-k optimality).  For every [W_noisy] and [0 <= k <= min(q, l)]
    (finite entries, an SVD that reconstructs [W_noisy] with orthonormal
    singular vectors and non-negative singular values in descending
    order), the intermediate [W_k = U_k S_k V_k^T] computed by [lip] is the
    truncated SVD, as a direct reference computation gives it; it has rank
    at most [k]; and no matrix of rank at most [k] is closer to [W_noisy]
    in Frobenius norm (Eckart-Young). *)
Theorem psp_is_best_rank_k_approximation {OF : OrderedField}
        (svd : svd_oracle) (W X Y : matrix) (k : Z)
        (U : matrix) (S : vector) (Vh : matrix) :
  svd W = Ok (U, S, Vh) -> svd_shapes W U S Vh -> conforming W X Y ->
  finite_matrix U -> finite_vector S -> finite_matrix Vh ->
  W = mmul (mmul U (mdiag S)) Vh ->
  mmul (mT U) U = midentity (ncols U) ->
  mmul Vh (mT Vh) = midentity (nrows Vh) ->
  descending_nonneg S ->
  (0 <= k <= Z.of_nat (Nat.min (nrows W) (ncols W)))%Z ->
  exists l,
    lip_locals svd W X Y k = Ok l /\
    l_W_k l = truncated_svd U S Vh (Z.to_nat k) /\
    rank_at_most (Z.to_nat k) (l_W_k l) /\
    forall M, finite_matrix M -> nrows M = nrows W -> ncols M = ncols W ->
      rank_at_most (Z.to_nat k) M ->
      (frobenius2 (msub W (l_W_k l)) <= frobenius2 (msub W M))%F.
Proof.
  intros Hsvd Hsh Hc HfU HfS HfVh Hex HoU HoV Hdesc Hk.
  exists (trace U S Vh X Y k).
  split; [apply (@lip_locals_run _ svd W X Y k U S Vh Hsvd Hsh Hc)|].
  split; [apply (W_k_is_truncated_svd W X Y U Vh S k); assumption|].
  split; [apply (W_k_rank W X Y U Vh S k); assumption|].
  intros M. apply (W_k_closest W X Y U Vh S k); assumption.
Qed.

Lemma psp_is_best_rank_k_approximation_witness :
  exists l,
    lip_locals Example43.svd Example43.W Example43.X Example43.Y 2 = Ok l /\
    l_W_k l = truncated_svd Example43.U Example43.S Example43.Vh 2 /\
    rank_at_most 2 (l_W_k l) /\
    forall M, finite_matrix M -> nrows M = 4 -> ncols M = 3 ->
      rank_at_most 2 M ->
      (frobenius2 (msub Example43.W (l_W_k l)) <= frobenius2 (msub Example43.W M))%F.
Proof.
  destruct Example43Facts.finite_factors as (F1 & F2 & F3).
  apply (@psp_is_best_rank_k_approximation Qc_field Example43.svd Example43.W
           Example43.X Example43.Y 2 Example43.U Example43.S Example43.Vh).
  - reflexivity.
  - exact Example43Facts.svd43_shapes_ok.
  - exact Example43Facts.conforming43_ok.
  - exact F1.
  - exact F2.
  - exact F3.
  - exact Example43Facts.svd43_exact.
  - exact Example43Facts.orthonormal_U.
  - exact Example43Facts.orthonormal_Vh.
  - exact Example43Facts.singular_values_ok.
  - vm_compute. split; discriminate.
Defined.

(** The preserved term of the literal 4-by-3 matrix for [k = 2]: the
    third singular direction is dropped. *)
Example psp_of_literal_4x3 :
  rbind (lip_locals Example43.svd Example43.W Example43.X Example43.Y 2)
        (fun l => Ok (l_W_k l)) =
  Ok (Mat 4 3 [[Example.qnum 1 10; Example.qnum 9 5; Example.qnum 0 1];
               [Example.qnum 17 10; Example.qnum 3 5; Example.qnum 0 1];
               [Example.qnum 1 10; Example.qnum 9 5; Example.qnum 0 1];
               [Example.qnum 17 10; Example.qnum 3 5; Example.qnum 0 1]]).
Proof. apply returns_eq. vm_compute. reflexivity. Qed.

(** C7, amended.  For every valid input (finite entries, conforming
    shapes, an SVD that reconstructs [W_noisy] with orthonormal left
    singular vectors, [0 <= k <= min(q, l)]), one of two things happens.
    Either every [sigma_refined[i]] is finite, and then
    [W_refined - W_noisy] is [U_l diag(sigma_refined - S[k:]) V_l^T] and
    [U_k^T (W_refined - W_noisy) V_k] is the zero matrix.  Or some
    [sigma_refined[i]] is NaN or an infinity, as it is whenever some
    [B[i,i]] is zero, and then no entry of [W_refined] and no entry of
    that projection is finite. *)
Theorem lip_changes_noise_subspace_only {OF : OrderedField}
        (svd : svd_oracle) (W X Y : matrix) (k : Z)
        (U : matrix) (S : vector) (Vh : matrix) :
  svd W = Ok (U, S, Vh) -> svd_shapes W U S Vh -> conforming W X Y ->
  finite_matrix U -> finite_vector S -> finite_matrix Vh ->
  finite_matrix X -> finite_matrix Y ->
  W = mmul (mmul U (mdiag S)) Vh ->
  mmul (mT U) U = midentity (ncols U) ->
  (0 <= k <= Z.of_nat (Nat.min (nrows W) (ncols W)))%Z ->
  exists l,
    lip_locals svd W X Y k = Ok l /\
    lip_v svd W X Y k = Ok (l_W_refined l) /\
    (l_U_k l = mcols_to U k /\ l_V_k l = mcols_to (mT Vh) k /\
     l_U_l l = mcols_from U k /\ l_V_l l = mcols_from (mT Vh) k) /\
    let r := Nat.min (nrows W) (ncols W) - Z.to_nat k in
    let projection :=
      mmul (mmul (mT (l_U_k l)) (msub (l_W_refined l) W)) (l_V_k l) in
    (l_B l = mmul (mT (l_U_l l)) (mmul (mT X) (mmul X (l_U_l l))) /\
     length (l_sigma_refined l) = r /\
     forall i, i < r ->
       vget (l_sigma_refined l) i = sdiv (mget (l_A l) i i) (mget (l_B l) i i)) /\
    ((finite_vector (l_sigma_refined l) /\
      msub (l_W_refined l) W =
      mmul (mmul (l_U_l l)
                 (mdiag (tab r (fun t => ssub (vget (l_sigma_refined l) t)
                                              (vget S (Z.to_nat k + t))))))
           (mT (l_V_l l)) /\
      projection = mzero (Z.to_nat k) (Z.to_nat k))
     \/
     ((exists i, i < r /\ is_finite (vget (l_sigma_refined l) i) = false) /\
      nowhere_finite (l_W_refined l) /\ nowhere_finite projection)) /\
    ((exists i, i < r /\ mget (l_B l) i i = Num 0%F) ->
     nowhere_finite (l_W_refined l) /\ nowhere_finite projection).
Proof.
  intros Hsvd Hsh Hc HfU HfS HfVh HfX HfY Hex Horth Hk.
  exists (trace U S Vh X Y k).
  split; [apply (@lip_locals_run _ svd W X Y k U S Vh Hsvd Hsh Hc)|].
  split; [apply (@lip_v_run _ svd W X Y k U S Vh Hsvd Hsh Hc)|].
  split; [repeat split|].
  cbv zeta.
  pose proof (@length_sigma_refined _ W X Y U Vh S k Hsh Hk) as Hlen.
  destruct (@shapes_of_locals _ W X Y U Vh S k Hsh Hk)
    as (S1 & S2 & S3 & S4 & S5 & S6 & S7 & S8 & S9 & S10).
  assert (Hproj : nowhere_finite (l_W_refined (trace U S Vh X Y k)) ->
                  nowhere_finite
                    (mmul (mmul (mT (l_U_k (trace U S Vh X Y k)))
                                (msub (l_W_refined (trace U S Vh X Y k)) W))
                          (l_V_k (trace U S Vh X Y k)))).
  { intros Hw i j Hi Hj.
    assert (HWr1 : nrows (l_W_refined (trace U S Vh X Y k)) = nrows W)
      by (rewrite W_refined_eq; shape).
    assert (HWr2 : ncols (l_W_refined (trace U S Vh X Y k)) = ncols W)
      by (rewrite W_refined_eq; shape).
    autorewrite with shape in Hi, Hj. rewrite S8 in Hi. rewrite S10 in Hj.
    apply nowhere_finite_mmul_l; try shape.
    apply nowhere_finite_mmul_r; try shape.
    apply nowhere_finite_msub_l, Hw. }
  split; [split; [reflexivity | split; [exact Hlen|]]|].
  { intros i Hi. unfold trace. cbn [l_sigma_refined l_A l_B].
    rewrite vget_tab; [reflexivity|].
    destruct (@shape_A _ W X Y U Vh S k Hsh Hk) as [HA _].
    unfold trace in HA. cbn [l_A] in HA. rewrite HA. exact Hi. }
  split.
  - destruct (@finite_or_spoiled _ W X Y U Vh S k Hsh Hc HfU HfS HfVh HfX HfY Hk)
      as [[Hnd Hfs]|(_ & Hbad & Hw)].
    + left. split; [exact Hfs|].
      assert (Hnd' : forall i, i < Nat.min (nrows W) (ncols W) - Z.to_nat k ->
                     mget (l_B (trace U S Vh X Y k)) i i <> Num 0%F)
        by exact (@nondegenerate_B _ W X Y U Vh S k Hsh Hk Hnd).
      split.
      * exact (@refined_minus_noisy _ W X Y U Vh S k Hsh Hc HfU HfS HfVh HfX HfY Hk
                 Hnd' Hex).
      * exact (@signal_projection_unchanged _ W X Y U Vh S k Hsh Hc HfU HfS HfVh HfX HfY
                 Hk Hnd' Hex Horth).
    + right. split; [exact Hbad|]. split; [exact Hw | exact (Hproj Hw)].
  - intros (i & Hi & HB).
    destruct (@zero_energy_spoils_the_result _ W X Y U Vh S k Hsh Hk i Hi HB) as [_ Hw].
    split; [exact Hw | exact (Hproj Hw)].
Qed.

(** C7, as stated, fails on a valid input: with [W_noisy = diag(1, 0)]
    (its own SVD, with identity singular vectors), [X = Y = [[1, 0]]] and
    [k = 1], the feature energy of the residual axis is zero and
    [U_k^T (W_refined - W_noisy) V_k] is [[NaN]], not the zero matrix. *)
Lemma signal_projection_is_not_always_zero :
  (svd_shapes Example.W0 Example.I2 Example.S0 Example.I2 /\
   conforming Example.W0 Example.X0 Example.Y0 /\
   Example.W0 = mmul (mmul Example.I2 (mdiag Example.S0)) Example.I2 /\
   mmul (mT Example.I2) Example.I2 = midentity (ncols Example.I2) /\
   finite_matrix Example.I2 /\ finite_vector Example.S0 /\
   finite_matrix Example.X0 /\ finite_matrix Example.Y0 /\
   finite_matrix Example.W0) /\
  rbind (lip_locals Example.svd0 Example.W0 Example.X0 Example.Y0 1)
        (fun l => Ok (mmul (mmul (mT (l_U_k l)) (msub (l_W_refined l) Example.W0))
                           (l_V_k l))) =
  Ok (Mat 1 1 [[NaN]]) /\
  Mat 1 1 [[NaN]] <> @mzero Qc_field 1 1.
Proof.
  split; [|split].
  - split; [exact ExampleFacts.svd0_shapes_ok|].
    split; [exact ExampleFacts.conforming0_ok|].
    split; [apply matrix_eqb_eq; vm_compute; reflexivity|].
    split; [apply matrix_eqb_eq; vm_compute; reflexivity|].
    repeat split; vm_compute; reflexivity.
  - apply returns_eq. vm_compute. reflexivity.
  - intros E. apply (f_equal (fun m => is_finite (mget m 0 0))) in E.
    vm_compute in E. discriminate.
Qed.

Lemma lip_changes_noise_subspace_only_witness :
  exists l,
    lip_locals Example.svd Example.W Example.X Example.Y 1 = Ok l /\
    lip_v Example.svd Example.W Example.X Example.Y 1 = Ok (l_W_refined l) /\
    (l_U_k l = mcols_to Example.U 1 /\ l_V_k l = mcols_to (mT Example.Vh) 1 /\
     l_U_l l = mcols_from Example.U 1 /\ l_V_l l = mcols_from (mT Example.Vh) 1) /\
    let r := Nat.min (nrows Example.W) (ncols Example.W) - Z.to_nat 1 in
    let projection :=
      mmul (mmul (mT (l_U_k l)) (msub (l_W_refined l) Example.W)) (l_V_k l) in
    (l_B l = mmul (mT (l_U_l l)) (mmul (mT Example.X) (mmul Example.X (l_U_l l))) /\
     length (l_sigma_refined l) = r /\
     forall i, i < r ->
       vget (l_sigma_refined l) i = sdiv (mget (l_A l) i i) (mget (l_B l) i i)) /\
    ((finite_vector (l_sigma_refined l) /\
      msub (l_W_refined l) Example.W =
      mmul (mmul (l_U_l l)
                 (mdiag (tab r (fun t => ssub (vget (l_sigma_refined l) t)
                                              (vget Example.S (Z.to_nat 1 + t))))))
           (mT (l_V_l l)) /\
      projection = mzero (Z.to_nat 1) (Z.to_nat 1))
     \/
     ((exists i, i < r /\ is_finite (vget (l_sigma_refined l) i) = false) /\
      nowhere_finite (l_W_refined l) /\ nowhere_finite projection)) /\
    ((exists i, i < r /\ mget (l_B l) i i = Num 0%F) ->
     nowhere_finite (l_W_refined l) /\ nowhere_finite projection).
Proof.
  destruct ExampleFacts.finite_inputs as (F1 & F2 & F3 & F4 & F5).
  apply (@lip_changes_noise_subspace_only Qc_field Example.svd Example.W
           Example.X Example.Y 1 Example.U Example.S Example.Vh).
  - reflexivity.
  - exact ExampleFacts.svd_shapes_ok.
  - exact ExampleFacts.conforming_ok.
  - exact F1.
  - exact F2.
  - exact F3.
  - exact F4.
  - exact F5.
  - exact ExampleFacts.svd_exact.
  - exact ExampleFacts.orthonormal.
  - vm_compute. split; discriminate.
Defined.

(** C8 (shape invariance).  For every input of conforming shapes (for any
    rank parameter), [lip] returns a matrix, and its shape is that of
    [W_noisy], namely (q, l). *)
Theorem lip_shape {OF : OrderedField}
        (svd : svd_oracle) (W X Y : matrix) (k : Z)
        (U : matrix) (S : vector) (Vh : matrix) :
  svd W = Ok (U, S, Vh) -> svd_shapes W U S Vh -> conforming W X Y ->
  exists W_refined,
    lip_v svd W X Y k = Ok W_refined /\
    nrows W_refined = nrows W /\ ncols W_refined = ncols W.
Proof.
  intros Hsvd Hsh Hc. eexists. split; [apply (@lip_v_run _ svd W X Y k U S Vh Hsvd Hsh Hc)|].
  destruct Hsh as [HU1 HU2 HS HV1 HV2].
  unfold trace. cbn [l_W_refined]. split; shape.
Qed.

Lemma lip_shape_witness :
  exists W_refined,
    lip_v Example.svd Example.W Example.X Example.Y 1 = Ok W_refined /\
    nrows W_refined = nrows Example.W /\ ncols W_refined = ncols Example.W.
Proof.
  apply (@lip_shape Qc_field Example.svd Example.W Example.X Example.Y 1
                    Example.U Example.S Example.Vh).
  - reflexivity.
  - exact ExampleFacts.svd_shapes_ok.
  - exact ExampleFacts.conforming_ok.
Defined.

(** C9 (clamping).  For every integer [k] strictly greater than min(q, l),
    [lip] raises no error and returns exactly what it returns for
    [k = min(q, l)]: the slices clamp to all the components. *)
Theorem lip_clamps_large_k {OF : OrderedField}
        (svd : svd_oracle) (W X Y : matrix) (k : Z)
        (U : matrix) (S : vector) (Vh : matrix) :
  svd W = Ok (U, S, Vh) -> svd_shapes W U S Vh -> conforming W X Y ->
  (Z.of_nat (Nat.min (nrows W) (ncols W)) < k)%Z ->
  lip_v svd W X Y k = lip_v svd W X Y (Z.of_nat (Nat.min (nrows W) (ncols W))) /\
  is_ok (lip_v svd W X Y k) = true.
Proof.
  intros Hsvd Hsh Hc Hk.
  rewrite !(fun k => @lip_v_run _ svd W X Y k U S Vh Hsvd Hsh Hc). split; [|reflexivity].
  destruct Hsh as [HU1 HU2 HS HV1 HV2]. f_equal. f_equal.
  apply trace_slice_index; try congruence.
  rewrite HS, !slice_index_above by lia. reflexivity.
Qed.

Lemma lip_clamps_large_k_witness :
  lip_v Example.svd Example.W Example.X Example.Y 7 =
  lip_v Example.svd Example.W Example.X Example.Y 2 /\
  is_ok (lip_v Example.svd Example.W Example.X Example.Y 7) = true.
Proof.
  apply (@lip_clamps_large_k Qc_field Example.svd Example.W Example.X Example.Y 7
                             Example.U Example.S Example.Vh).
  - reflexivity.
  - exact ExampleFacts.svd_shapes_ok.
  - exact ExampleFacts.conforming_ok.
  - vm_compute. reflexivity.
Defined.

(** C10 (frame).  [lip] never mutates its arguments: in every store where
    the tensors [W_noisy], [X] and [Y] are allocated (views of any
    strides, possibly sharing storage), whatever the call does (return or
    raise), it leaves a store that extends the initial one with new
    storages only, so every existing storage, hence each of the three
    tensors, is element-wise unchanged. *)
Theorem lip_does_not_mutate {OF : OrderedField}
        (svd : svd_oracle) (W X Y : view2) (k : Z) (h : heap) :
  v2_stor W < length h -> v2_stor X < length h -> v2_stor Y < length h ->
  let h' := snd (lip_h svd W X Y k h) in
  (exists fresh, h' = h ++ fresh) /\
  (forall s, s < length h -> nth s h' [] = nth s h []) /\
  read2 h' W = read2 h W /\ read2 h' X = read2 h X /\ read2 h' Y = read2 h Y.
Proof.
  intros HW HX HY. cbv zeta.
  destruct (allocates_only_lip_h svd W X Y k h) as [fresh E]. rewrite E.
  split; [exists fresh; reflexivity|].
  split; [intros s Hs; apply app_nth1, Hs|].
  repeat split; apply read2_extend; assumption.
Qed.

Lemma lip_does_not_mutate_witness :
  let h := FrameExample.h0 in
  let h' := snd (lip_h Example.svd FrameExample.W FrameExample.X FrameExample.Y 1 h) in
  (exists fresh, h' = h ++ fresh) /\
  (forall s, s < length h -> nth s h' [] = nth s h []) /\
  read2 h' FrameExample.W = read2 h FrameExample.W /\
  read2 h' FrameExample.X = read2 h FrameExample.X /\
  read2 h' FrameExample.Y = read2 h FrameExample.Y.
Proof.
  apply (@lip_does_not_mutate Qc_field Example.svd FrameExample.W FrameExample.X
           FrameExample.Y 1 FrameExample.h0); vm_compute; lia.
Defined.

(* ================================================================= *)
(** * Further properties of [lip] *)

(** ** The residual singular values are never read *)

(** The first computation of a chain of binds. *)
Ltac rbind_head c :=
  lazymatch c with
  | rbind ?c' _ => rbind_head c'
  | _ => c
  end.

(** One step of two runs that share their next computation. *)
Ltac rbind_step :=
  lazymatch goal with
  | |- rbind ?c _ = _ =>
      let h := rbind_head c in
      destruct h; cbn [rbind];
      lazymatch goal with
      | |- rbind _ _ = _ => idtac
      | _ => reflexivity
      end
  end.

(** X1 (the residual singular values are discarded).  [lip] reads the
    singular values only through [S[:k]] (line 26): two calls whose SVDs
    have the same singular vectors and the same first [k] singular values
    return the same result (or raise the same exception), whatever the
    other singular values are. *)
Theorem lip_ignores_residual_singular_values {OF : OrderedField}
        (svd svd' : svd_oracle) (W W' X Y : matrix) (k : Z)
        (U : matrix) (S S' : vector) (Vh : matrix) :
  svd W = Ok (U, S, Vh) -> svd' W' = Ok (U, S', Vh) ->
  vtake S k = vtake S' k ->
  lip_v svd W X Y k = lip_v svd' W' X Y k.
Proof.
  intros Hsvd Hsvd' Htake.
  lip_unfold. rewrite Hsvd, Hsvd'. cbn [rbind]. rewrite Htake.
  repeat rbind_step.
Qed.

Lemma lip_ignores_residual_singular_values_witness :
  lip_v Example.svd Example.W Example.X Example.Y 1 =
  lip_v Variations.svd' Variations.W' Example.X Example.Y 1.
Proof.
  apply (@lip_ignores_residual_singular_values Qc_field Example.svd Variations.svd'
           Example.W Variations.W' Example.X Example.Y 1
           Example.U Example.S Variations.S' Example.Vh).
  - reflexivity.
  - reflexivity.
  - apply vector_eqb_eq. vm_compute. reflexivity.
Defined.

(* ----------------------------------------------------------------- *)
(** ** The result keeps the singular vectors of the input *)

Section Factorisation.
Context {OF : OrderedField}.
Add Field F_field11 : Fth.

Lemma finite_vector_app (v w : vector) :
  finite_vector v -> finite_vector w -> finite_vector (v ++ w).
Proof.
  unfold finite_vector. intros Hv Hw. rewrite forallb_app, Hv, Hw. reflexivity.
Qed.

Lemma rvget_app_l (v w : vector) (t : nat) :
  t < length v -> rvget (v ++ w) t = rvget v t.
Proof. intros H. unfold rvget, vget. rewrite app_nth1 by exact H. reflexivity. Qed.

Lemma rvget_app_r (v w : vector) (t : nat) :
  rvget (v ++ w) (length v + t) = rvget w t.
Proof.
  unfold rvget, vget. rewrite app_nth2 by lia.
  replace (length v + t - length v) with t by lia. reflexivity.
Qed.

Variables (W X Y U Vh : matrix) (S : vector) (k : Z).
Hypothesis Hshapes : svd_shapes W U S Vh.
Hypothesis HfU : finite_matrix U.
Hypothesis HfS : finite_vector S.
Hypothesis HfVh : finite_matrix Vh.
Hypothesis Hk : (0 <= k <= Z.of_nat (Nat.min (nrows W) (ncols W)))%Z.

Let m := Nat.min (nrows W) (ncols W).
Let k' := Z.to_nat k.
Let l := trace U S Vh X Y k.

(** The preserved term plus a correction of the residual singular values
    [v] is the matrix with the singular vectors of the input and the
    singular values [S[:k]] followed by [v]. *)
Lemma kept_plus_correction (v : vector) :
  finite_vector v -> length v = m - k' ->
  madd (l_W_k l) (mmul (mmul (l_U_l l) (mdiag v)) (mT (l_V_l l))) =
  mmul (mmul U (mdiag (vtake S k ++ v))) Vh.
Proof.
  intros Hfv Hlen.
  pose proof (@slice_kept_U _ W U Vh S k Hshapes Hk) as EU.
  pose proof (@slice_kept_S _ W U Vh S k Hshapes Hk) as ES.
  pose proof (@slice_kept_Vh _ W U Vh S k Hshapes Hk) as EV.
  pose proof (@finite_W_k _ W X Y U Vh S k Hshapes HfU HfS HfVh Hk) as HfWk.
  destruct (@shapes_of_locals _ W X Y U Vh S k Hshapes Hk)
    as (S1 & S2 & S3 & S4 & S5 & S6 & _).
  destruct (@finite_locals _ X Y U Vh S k HfU HfVh) as (F1 & F2 & _).
  fold l in HfWk, S1, S2, S3, S4, S5, S6, F1, F2. fold m k' in S4, S6.
  assert (Hlen' : length (vtake S k ++ v) = m).
  { rewrite length_app, length_vtake, ES, Hlen. fold k'.
    destruct Hshapes. unfold m, k' in *. lia. }
  assert (Hfd : finite_vector (vtake S k ++ v))
    by (apply finite_vector_app; [apply finite_vtake, HfS | exact Hfv]).
  destruct Hshapes as [HU1 HU2 HS HV1 HV2].
  apply finite_matrix_ext;
    [ apply wf_mtab | apply wf_mtab | | | shape | shape | ].
  - apply finite_madd; [exact HfWk | | shape | shape].
    apply finite_mmul; [apply finite_mmul; [exact F1 | apply finite_mdiag, Hfv | shape]
                       | apply finite_mT, F2 | shape].
  - apply finite_mmul; [apply finite_mmul; [exact HfU | apply finite_mdiag, Hfd | shape]
                       | exact HfVh | shape].
  - intros i j Hi Hj. autorewrite with shape in Hi, Hj.
    rewrite rget_madd;
      [ | exact HfWk
        | apply finite_mmul; [apply finite_mmul; [exact F1 | apply finite_mdiag, Hfv | shape]
                             | apply finite_mT, F2 | shape]
        | shape | shape | shape | shape].
    unfold l.
    rewrite (@rget_W_k _ W X Y U Vh S k (Build_svd_shapes _ _ _ _ HU1 HU2 HS HV1 HV2)
               HfU HfS HfVh Hk i j) by lia.
    rewrite (@rget_correction _ W X Y U Vh S k (Build_svd_shapes _ _ _ _ HU1 HU2 HS HV1 HV2)
               HfU HfVh Hk v i j Hfv Hlen) by lia.
    rewrite rget_mmul_mdiag by (assumption || shape).
    rewrite Hlen'. fold m k'.
    rewrite (@Fsum_split_at _ k' m) by (unfold k', m; lia).
    f_equal.
    + apply Fsum_ext. intros t Ht.
      rewrite rvget_app_l by (rewrite length_vtake, ES; exact Ht).
      rewrite rvget_vtake by (rewrite ES; exact Ht). reflexivity.
    + apply Fsum_ext. intros t Ht.
      replace (rvget (vtake S k ++ v) (k' + t)) with (rvget v t); [reflexivity|].
      rewrite <- (rvget_app_r (vtake S k) v t).
      rewrite length_vtake, ES. reflexivity.
Qed.

End Factorisation.

(** X3 (the singular vectors are kept).  For a valid input, either every
    [sigma_refined[i]] is finite, and then the result of [lip] is
    [U diag(S[:k] ++ sigma_refined) Vh]: it has the singular vectors of
    [W_noisy] and its first [k] singular values, and only the other
    singular values are replaced; or some [sigma_refined[i]] is NaN or an
    infinity, and then no entry of the result is finite. *)
Theorem lip_keeps_singular_vectors {OF : OrderedField}
        (svd : svd_oracle) (W X Y : matrix) (k : Z)
        (U : matrix) (S : vector) (Vh : matrix) :
  svd W = Ok (U, S, Vh) -> svd_shapes W U S Vh -> conforming W X Y ->
  finite_matrix U -> finite_vector S -> finite_matrix Vh ->
  finite_matrix X -> finite_matrix Y ->
  (0 <= k <= Z.of_nat (Nat.min (nrows W) (ncols W)))%Z ->
  exists l,
    lip_locals svd W X Y k = Ok l /\
    lip_v svd W X Y k = Ok (l_W_refined l) /\
    ((finite_vector (l_sigma_refined l) /\
      l_W_refined l = mmul (mmul U (mdiag (vtake S k ++ l_sigma_refined l))) Vh)
     \/
     ((exists i, i < Nat.min (nrows W) (ncols W) - Z.to_nat k /\
                 is_finite (vget (l_sigma_refined l) i) = false) /\
      nowhere_finite (l_W_refined l))).
Proof.
  intros Hsvd Hsh Hc HfU HfS HfVh HfX HfY Hk.
  exists (trace U S Vh X Y k).
  split; [apply (@lip_locals_run _ svd W X Y k U S Vh Hsvd Hsh Hc)|].
  split; [apply (@lip_v_run _ svd W X Y k U S Vh Hsvd Hsh Hc)|].
  destruct (@finite_or_spoiled _ W X Y U Vh S k Hsh Hc HfU HfS HfVh HfX HfY Hk)
    as [[Hnd Hfs]|(_ & Hbad & Hw)]; [left | right; split; assumption].
  split; [exact Hfs|].
  rewrite W_refined_eq.
  exact (kept_plus_correction W X Y U Vh S k Hsh HfU HfS HfVh Hk _ Hfs
           (@length_sigma_refined _ W X Y U Vh S k Hsh Hk)).
Qed.

Lemma lip_keeps_singular_vectors_witness :
  exists l,
    lip_locals Example.svd Example.W Example.X Example.Y 1 = Ok l /\
    lip_v Example.svd Example.W Example.X Example.Y 1 = Ok (l_W_refined l) /\
    ((finite_vector (l_sigma_refined l) /\
      l_W_refined l =
      mmul (mmul Example.U (mdiag (vtake Example.S 1 ++ l_sigma_refined l))) Example.Vh)
     \/
     ((exists i, i < Nat.min (nrows Example.W) (ncols Example.W) - Z.to_nat 1 /\
                 is_finite (vget (l_sigma_refined l) i) = false) /\
      nowhere_finite (l_W_refined l))).
Proof.
  destruct ExampleFacts.finite_inputs as (F1 & F2 & F3 & F4 & F5).
  apply (@lip_keeps_singular_vectors Qc_field Example.svd Example.W
           Example.X Example.Y 1 Example.U Example.S Example.Vh).
  - reflexivity.
  - exact ExampleFacts.svd_shapes_ok.
  - exact ExampleFacts.conforming_ok.
  - exact F1.
  - exact F2.
  - exact F3.
  - exact F4.
  - exact F5.
  - vm_compute. split; discriminate.
Defined.

(* ----------------------------------------------------------------- *)
(** ** The feature energy *)

Section Energy.
Context {OF : OrderedField}.
Add Field F_field12 : Fth.
Local Open Scope F_scope.

Lemma mT_mmul (a b : matrix) :
  finite_matrix a -> finite_matrix b -> ncols a = nrows b ->
  mT (mmul a b) = mmul (mT b) (mT a).
Proof.
  intros Ha Hb H. finite_ext.
  intros i j Hi Hj. autorewrite with shape in Hi, Hj.
  rewrite rget_mT by shape.
  rewrite !rget_mmul by (finite || shape).
  autorewrite with shape. rewrite H.
  apply Fsum_ext. intros t Ht.
  rewrite !rget_mT by shape. ring.
Qed.

Lemma feature_energy_as_gram (U X : matrix) (k : Z) :
  finite_matrix U -> finite_matrix X -> ncols X = nrows U ->
  feature_energy U X k =
  mmul (mT (mmul X (mcols_from U k))) (mmul X (mcols_from U k)).
Proof.
  intros HfU HfX HX. unfold feature_energy. cbv zeta.
  rewrite mT_mmul by (finite || shape).
  rewrite <- mmul_assoc by (finite || shape). reflexivity.
Qed.

Lemma rget_feature_energy (U X : matrix) (k : Z) (i j : nat) :
  finite_matrix U -> finite_matrix X -> ncols X = nrows U ->
  (i < ncols U - slice_index k (ncols U))%nat ->
  (j < ncols U - slice_index k (ncols U))%nat ->
  rget (feature_energy U X k) i j =
  Fsum (nrows X) (fun a => rget (mmul X (mcols_from U k)) a i
                           * rget (mmul X (mcols_from U k)) a j).
Proof.
  intros HfU HfX HX Hi Hj. rewrite feature_energy_as_gram by assumption.
  rewrite rget_mmul by (finite || shape).
  autorewrite with shape.
  apply Fsum_ext. intros a Ha. rewrite rget_mT by shape. reflexivity.
Qed.

End Energy.

(* ----------------------------------------------------------------- *)
(** ** A dataset with no sample *)

Section EmptyDataset.
Context {OF : OrderedField}.

Variables (W X Y U Vh : matrix) (S : vector) (k : Z).
Hypothesis Hshapes : svd_shapes W U S Vh.
Hypothesis Hconf : conforming W X Y.
Hypothesis HfU : finite_matrix U.
Hypothesis HfVh : finite_matrix Vh.
Hypothesis Hempty : nrows X = 0.

Let l := trace U S Vh X Y k.
Let r := ncols U - slice_index k (ncols U).

Lemma A_of_no_sample : l_A l = mzero r r.
Proof.
  destruct Hshapes as [HU1 HU2 HS HV1 HV2]. destruct Hconf as [HX HY1 HY2].
  unfold l, trace. cbn [l_A].
  rewrite (mmul_empty_inner (mT X)) by shape.
  rewrite mmul_mzero_r by (finite || shape).
  rewrite mmul_mzero_l by (finite || shape).
  unfold r. f_equal; shape.
Qed.

Lemma B_of_no_sample : l_B l = mzero r r.
Proof.
  destruct Hshapes as [HU1 HU2 HS HV1 HV2]. destruct Hconf as [HX HY1 HY2].
  unfold l, trace. cbn [l_B].
  rewrite (mmul_empty_inner (mT X)) by shape.
  rewrite mmul_mzero_r by (finite || shape).
  unfold r. f_equal; shape.
Qed.

Lemma sigma_of_no_sample (i : nat) : i < r -> vget (l_sigma_refined l) i = NaN.
Proof.
  intros Hi.
  change (l_sigma_refined l) with
    (tab (nrows (l_A l)) (fun i => sdiv (mget (l_A l) i i) (mget (l_B l) i i))).
  rewrite A_of_no_sample, B_of_no_sample.
  rewrite vget_tab by shape.
  unfold mzero. rewrite mget_mtab by assumption.
  unfold sdiv. rewrite Feqb_refl. reflexivity.
Qed.

End EmptyDataset.

(** X6 (no sample).  With an empty dataset (n = 0) and a residual subspace
    that is not empty, every [A[i,i]] and [B[i,i]] is an empty sum, the
    division is 0/0, and [lip] returns the q-by-l matrix of NaN, without
    raising. *)
Theorem lip_on_empty_dataset {OF : OrderedField}
        (svd : svd_oracle) (W X Y : matrix) (k : Z)
        (U : matrix) (S : vector) (Vh : matrix) :
  svd W = Ok (U, S, Vh) -> svd_shapes W U S Vh -> conforming W X Y ->
  finite_matrix U -> finite_matrix Vh ->
  nrows X = 0 ->
  slice_index k (Nat.min (nrows W) (ncols W)) < Nat.min (nrows W) (ncols W) ->
  lip_v svd W X Y k = Ok (mtab (nrows W) (ncols W) (fun _ _ => NaN)).
Proof.
  intros Hsvd Hsh Hc HfU HfVh Hn Hr.
  rewrite (@lip_v_run _ svd W X Y k U S Vh Hsvd Hsh Hc). f_equal.
  assert (Hr' : 0 < ncols U - slice_index k (ncols U))
    by (destruct Hsh as [HU1 HU2 HS HV1 HV2]; rewrite HU2; lia).
  apply matrix_ext.
  - rewrite W_refined_eq. apply wf_mtab.
  - apply wf_mtab.
  - destruct Hsh. rewrite W_refined_eq. unfold trace; cbn [l_W_k]. shape.
  - destruct Hsh. rewrite W_refined_eq. unfold trace; cbn [l_W_k]. shape.
  - intros a b Ha Hb.
    assert (Ha' : a < nrows W)
      by (destruct Hsh; rewrite W_refined_eq in Ha; unfold trace in Ha;
          cbn [l_W_k] in Ha; autorewrite with shape in Ha; lia).
    assert (Hb' : b < ncols W)
      by (destruct Hsh; rewrite W_refined_eq in Hb; unfold trace in Hb;
          cbn [l_W_k] in Hb; autorewrite with shape in Hb; lia).
    rewrite mget_mtab by assumption.
    apply (@nan_reaches_every_entry _ W X Y U Vh S k Hsh 0 a b Hr');
      [|assumption|assumption].
    apply (@sigma_of_no_sample _ W X Y U Vh S k Hsh Hc HfU HfVh Hn 0 Hr').
Qed.

Lemma lip_on_empty_dataset_witness :
  lip_v Example.svd Example.W Variations.Xnone Variations.Ynone 1 =
  Ok (mtab (nrows Example.W) (ncols Example.W) (fun _ _ => NaN)).
Proof.
  destruct ExampleFacts.finite_inputs as (F1 & F2 & F3 & F4 & F5).
  apply (@lip_on_empty_dataset Qc_field Example.svd Example.W
           Variations.Xnone Variations.Ynone 1 Example.U Example.S Example.Vh).
  - reflexivity.
  - exact ExampleFacts.svd_shapes_ok.
  - split; reflexivity.
  - exact F1.
  - exact F3.
  - reflexivity.
  - vm_compute. lia.
Defined.

(* ----------------------------------------------------------------- *)
(** ** What the refined singular values are *)

Section LeastSquares.
Context {OF : OrderedField}.
Add Field F_field101 : Fth.
Local Open Scope F_scope.

(** A quadratic with a non-negative leading coefficient is least at its
    vertex. *)
Lemma quadratic_least_at_vertex (alpha beta x : F) :
  0 <= beta -> beta <> 0 ->
  alpha / beta * (alpha / beta) * beta - (alpha / beta + alpha / beta) * alpha
  <= x * x * beta - (x + x) * alpha.
Proof.
  intros Hb Hne. apply Fle_sub_0.
  replace (x * x * beta - (x + x) * alpha
           - (alpha / beta * (alpha / beta) * beta
              - (alpha / beta + alpha / beta) * alpha))
    with (beta * ((x - alpha / beta) * (x - alpha / beta)))
    by (field; exact Hne).
  apply Fleb_mul; [exact Hb | apply Fle_0_sq].
Qed.

(** The squared distance from the rows [R a] to the combinations
    [sum_t (v t * p t a) w t] of an orthonormal family [w]. *)
Lemma frob2_refit (n l r : nat) (R : nat -> nat -> F) (p w : nat -> nat -> F)
      (v : nat -> F) :
  orthonormal l r w ->
  frob2 n l (fun a c => R a c - comb r (fun t => v t * p t a) w c) =
  frob2 n l R
  + Fsum r (fun t =>
      v t * v t * Fsum n (fun a => p t a * p t a)
      - (v t + v t) * Fsum n (fun a => p t a * dot l (R a) (w t))).
Proof.
  intros Hw. unfold frob2.
  transitivity (Fsum n (fun a =>
     Fsum l (fun c => R a c * R a c)
     + Fsum r (fun t => v t * v t * (p t a * p t a)
                        - (v t + v t) * (p t a * dot l (R a) (w t))))).
  { apply Fsum_ext. intros a Ha.
    change (Fsum l (fun c => (R a c - comb r (fun t => v t * p t a) w c)
                             * (R a c - comb r (fun t => v t * p t a) w c)))
      with (dot l (fun c => R a c - comb r (fun t => v t * p t a) w c)
                  (fun c => R a c - comb r (fun t => v t * p t a) w c)).
    rewrite (dot_sub_sub l (R a) (comb r (fun t => v t * p t a) w)).
    rewrite dot_comb_r, (dot_comb_orthonormal l r _ w Hw).
    assert (E1 : Fsum r (fun t => v t * p t a * (v t * p t a))
                 = Fsum r (fun t => v t * v t * (p t a * p t a)))
      by (apply Fsum_ext; intros; ring).
    assert (E2 : Fsum r (fun t => v t * p t a * dot l (R a) (w t))
                 + Fsum r (fun t => v t * p t a * dot l (R a) (w t))
                 = Fsum r (fun t => (v t + v t) * (p t a * dot l (R a) (w t))))
      by (rewrite <- Fsum_add; apply Fsum_ext; intros; ring).
    rewrite E1, E2, Fsum_sub. unfold dot at 1. ring. }
  rewrite Fsum_add. f_equal.
  rewrite Fsum_swap. apply Fsum_ext. intros t Ht.
  rewrite Fsum_sub, !Fsum_scale_l. reflexivity.
Qed.

End LeastSquares.

Section Projections.
Context {OF : OrderedField}.
Add Field F_field14 : Fth.

Variables (W X Y U Vh : matrix) (S : vector) (k : Z).
Hypothesis Hshapes : svd_shapes W U S Vh.
Hypothesis Hconf : conforming W X Y.
Hypothesis HfU : finite_matrix U.
Hypothesis HfS : finite_vector S.
Hypothesis HfVh : finite_matrix Vh.
Hypothesis HfX : finite_matrix X.
Hypothesis HfY : finite_matrix Y.
Hypothesis Hk : (0 <= k <= Z.of_nat (Nat.min (nrows W) (ncols W)))%Z.

Let m := Nat.min (nrows W) (ncols W).
Let k' := Z.to_nat k.
Let l := trace U S Vh X Y k.
Let P := mmul X (mcols_from U k).

Lemma shape_P : nrows P = nrows X /\ ncols P = m - k'.
Proof.
  pose proof (@slice_kept_U _ W U Vh S k Hshapes Hk) as E.
  destruct Hshapes as [HU1 HU2 HS HV1 HV2].
  unfold P. split; autorewrite with shape; [reflexivity|]. rewrite E. fold m k'. lia.
Qed.

Lemma finite_P : finite_matrix P.
Proof.
  destruct Hshapes as [HU1 HU2 HS HV1 HV2]. destruct Hconf as [HX HY1 HY2].
  unfold P. finite.
Qed.

Lemma rget_P (a i : nat) :
  a < nrows X -> i < m - k' ->
  rget P a i = Fsum (nrows W) (fun s => rget X a s * rget U s (k' + i))%F.
Proof.
  intros Ha Hi.
  pose proof (@slice_kept_U _ W U Vh S k Hshapes Hk) as E.
  destruct Hshapes as [HU1 HU2 HS HV1 HV2]. destruct Hconf as [HX HY1 HY2].
  unfold P. rewrite rget_mmul by (finite || shape || (autorewrite with shape; rewrite E; fold m k'; lia)).
  rewrite HX. apply Fsum_ext. intros s Hs.
  rewrite rget_mcols_from by (rewrite ?E; fold m k'; lia).
  rewrite E. reflexivity.
Qed.

Lemma shape_residual :
  nrows (l_residual l) = nrows X /\ ncols (l_residual l) = ncols W.
Proof. destruct Hconf. unfold l, trace; cbn [l_residual]. split; shape. Qed.

Lemma A_as_projection :
  l_A l = mmul (mmul (mT P) (l_residual l)) (l_V_l l).
Proof.
  pose proof (@finite_residual _ W X Y U Vh S k Hshapes Hconf HfU HfS HfVh HfX HfY Hk) as HfR.
  destruct Hshapes as [HU1 HU2 HS HV1 HV2]. destruct Hconf as [HX HY1 HY2].
  fold l in HfR. unfold l, trace in *. cbn [l_A l_residual l_V_l] in *.
  unfold P. rewrite mT_mmul by (finite || shape).
  rewrite <- mmul_assoc by (finite || shape). reflexivity.
Qed.

Lemma rget_B_entry (i j : nat) :
  i < m - k' -> j < m - k' ->
  rget (l_B l) i j = Fsum (nrows X) (fun a => rget P a i * rget P a j)%F.
Proof.
  intros Hi Hj.
  pose proof (@slice_kept_U _ W U Vh S k Hshapes Hk) as E.
  destruct Hshapes as [HU1 HU2 HS HV1 HV2]. destruct Hconf as [HX HY1 HY2].
  change (l_B l) with (feature_energy U X k).
  apply rget_feature_energy; try assumption; try congruence;
    rewrite E; fold m k'; lia.
Qed.

Lemma rget_A_entry (i j : nat) :
  i < m - k' -> j < m - k' ->
  rget (l_A l) i j =
  Fsum (nrows X) (fun a => Fsum (ncols W) (fun c =>
     rget P a i * rget (l_residual l) a c * rget Vh (k' + j) c))%F.
Proof.
  intros Hi Hj. destruct shape_P as [HP1 HP2]. pose proof finite_P as HfP.
  pose proof (@finite_residual _ W X Y U Vh S k Hshapes Hconf HfU HfS HfVh HfX HfY Hk) as HfR.
  pose proof (@slice_kept_Vh _ W U Vh S k Hshapes Hk) as EV.
  fold l in HfR. rewrite A_as_projection.
  destruct shape_residual as [HR1 HR2].
  assert (HfV : finite_matrix (l_V_l l))
    by (unfold l, trace; cbn [l_V_l]; finite).
  assert (HV1' : nrows (l_V_l l) = ncols W)
    by (destruct Hshapes; unfold l, trace; cbn [l_V_l]; shape).
  assert (HV2' : ncols (l_V_l l) = m - k').
  { destruct Hshapes. unfold l, trace; cbn [l_V_l]. autorewrite with shape.
    rewrite EV. fold k' m. lia. }
  rewrite rget_mmul by (finite || shape).
  autorewrite with shape. rewrite HR2.
  rewrite Fsum_swap. apply Fsum_ext. intros c Hc.
  rewrite rget_mmul by (finite || shape).
  autorewrite with shape. rewrite HP1.
  rewrite <- Fsum_scale_r. apply Fsum_ext. intros a Ha.
  rewrite rget_mT by shape.
  unfold l at 2, trace. cbn [l_V_l].
  destruct Hshapes as [HU1 HU2 HS HV1 HV2].
  rewrite rget_mcols_from by (autorewrite with shape; rewrite ?EV; fold k' m; lia).
  autorewrite with shape. rewrite EV. fold k'.
  rewrite rget_mT by shape. reflexivity.
Qed.

(** The labels a correction [v] of the residual singular values explains:
    entry [(a, c)] of [X @ (U_l @ diag(v) @ V_l.t())]. *)
Lemma rget_explained (v : vector) (a c : nat) :
  finite_vector v -> length v = m - k' ->
  a < nrows X -> c < ncols W ->
  rget (mmul X (mmul (mmul (l_U_l l) (mdiag v)) (mT (l_V_l l)))) a c =
  Fsum (m - k') (fun t => rget P a t * rvget v t * rget Vh (k' + t) c)%F.
Proof.
  intros Hfv Hlen Ha Hc.
  destruct (@shapes_of_locals _ W X Y U Vh S k Hshapes Hk)
    as (S1 & S2 & S3 & S4 & S5 & S6 & _).
  destruct (@finite_locals _ X Y U Vh S k HfU HfVh) as (F1 & F2 & _).
  fold l in S1, S2, S3, S4, S5, S6, F1, F2. fold m k' in S4, S6.
  pose proof (@slice_kept_U _ W U Vh S k Hshapes Hk) as EU.
  destruct Hconf as [HX HY1 HY2].
  assert (HfC : finite_matrix (mmul (mmul (l_U_l l) (mdiag v)) (mT (l_V_l l)))).
  { apply finite_mmul; [apply finite_mmul; [exact F1 | apply finite_mdiag, Hfv | shape]
                       | apply finite_mT, F2 | shape]. }
  rewrite rget_mmul by (assumption || shape).
  rewrite HX.
  transitivity (Fsum (nrows W) (fun s => Fsum (m - k') (fun t =>
     rget X a s * (rget U s (k' + t) * rvget v t * rget Vh (k' + t) c)))%F).
  { apply Fsum_ext. intros s Hs. unfold l.
    rewrite (@rget_correction _ W X Y U Vh S k Hshapes HfU HfVh Hk v s c Hfv Hlen Hs Hc).
    rewrite Fsum_scale_l. reflexivity. }
  rewrite Fsum_swap. apply Fsum_ext. intros t Ht.
  rewrite rget_P by assumption.
  rewrite <- !Fsum_scale_r. apply Fsum_ext. intros s Hs. ring.
Qed.

Section CleanLabels.
Variable s : vector.
Hypothesis Hfs : finite_vector s.
Hypothesis Hlen : length s = m - k'.
Hypothesis HoV : mmul Vh (mT Vh) = midentity (nrows Vh).
Hypothesis Hclean : Y = mmul X (mmul (mmul U (mdiag (vtake S k ++ s))) Vh).

Lemma rget_clean_residual (a c : nat) :
  a < nrows X -> c < ncols W ->
  rget (l_residual l) a c =
  Fsum (m - k') (fun t => rget P a t * rvget s t * rget Vh (k' + t) c)%F.
Proof.
  intros Ha Hc.
  rewrite <- (rget_explained s a c Hfs Hlen Ha Hc).
  pose proof (@finite_W_k _ W X Y U Vh S k Hshapes HfU HfS HfVh Hk) as HfWk.
  destruct (@shapes_of_locals _ W X Y U Vh S k Hshapes Hk)
    as (S1 & S2 & S3 & S4 & S5 & S6 & _).
  destruct (@finite_locals _ X Y U Vh S k HfU HfVh) as (F1 & F2 & _).
  fold l in HfWk, S1, S2, S3, S4, S5, S6, F1, F2. fold m k' in S4, S6.
  assert (HfC : finite_matrix (mmul (mmul (l_U_l l) (mdiag s)) (mT (l_V_l l)))).
  { apply finite_mmul; [apply finite_mmul; [exact F1 | apply finite_mdiag, Hfs | shape]
                       | apply finite_mT, F2 | shape]. }
  destruct Hconf as [HX HY1 HY2].
  change (l_residual l) with (msub Y (mmul X (l_W_k l))).
  rewrite rget_msub by (assumption || shape || (apply finite_mmul; [assumption..|shape])).
  rewrite Hclean at 1.
  rewrite <- (kept_plus_correction W X Y U Vh S k Hshapes HfU HfS HfVh Hk s Hfs Hlen).
  fold l.
  rewrite !rget_mmul by (assumption || shape || (apply finite_madd; [assumption..|shape|shape])).
  rewrite <- Fsum_sub. apply Fsum_ext. intros t Ht.
  rewrite rget_madd by (assumption || shape). ring.
Qed.

Lemma clean_A_diag (i : nat) :
  i < m - k' ->
  rget (l_A l) i i = (rvget s i * rget (l_B l) i i)%F.
Proof.
  intros Hi.
  pose proof (orthonormal_of_rows Vh HfVh HoV) as Hon.
  destruct Hshapes as [HU1 HU2 HS HV1 HV2].
  rewrite rget_A_entry, rget_B_entry by assumption.
  rewrite <- Fsum_scale_l. apply Fsum_ext. intros a Ha.
  transitivity (Fsum (ncols W) (fun c => Fsum (m - k') (fun t =>
     rget P a i * (rget P a t * rvget s t) * (rget Vh (k' + t) c * rget Vh (k' + i) c)))%F).
  { apply Fsum_ext. intros c Hc. rewrite rget_clean_residual by assumption.
    rewrite <- Fsum_scale_l, <- Fsum_scale_r. apply Fsum_ext. intros t Ht. ring. }
  rewrite Fsum_swap.
  rewrite (@Fsum_single _ (m - k') i) ; [ | exact Hi | ].
  - rewrite Fsum_scale_l.
    pose proof (Hon (k' + i) (k' + i)) as E. unfold dot in E.
    rewrite HV2 in E. rewrite E by (unfold m, k' in *; lia).
    rewrite Nat.eqb_refl. ring.
  - intros t Ht Hne. rewrite Fsum_scale_l.
    pose proof (Hon (k' + t) (k' + i)) as E. unfold dot in E.
    rewrite HV2 in E. rewrite E by (unfold m, k' in *; lia).
    rewrite (proj2 (Nat.eqb_neq (k' + t) (k' + i))) by lia. ring.
Qed.

Hypothesis Hnondeg : forall i, i < m - k' -> mget (l_B l) i i <> Num 0%F.

Lemma clean_sigma_refined : l_sigma_refined l = s.
Proof.
  pose proof (@length_sigma_refined _ W X Y U Vh S k Hshapes Hk) as Hl.
  pose proof (@finite_B _ W X Y U Vh S k Hshapes Hconf HfU HfX Hk) as HfB.
  destruct (@shape_B _ W X Y U Vh S k Hshapes Hk) as [HB1 HB2].
  fold l in Hl, HfB, HB1, HB2. fold m k' in Hl, HB1, HB2.
  apply (nth_ext _ _ (Num 0%F) (Num 0%F)); [congruence|].
  intros i Hi. rewrite Hl in Hi.
  change (nth i (l_sigma_refined l) (Num 0%F)) with (vget (l_sigma_refined l) i).
  change (nth i s (Num 0%F)) with (vget s i).
  unfold l.
  rewrite (@sigma_refined_entry _ W X Y U Vh S k Hshapes Hconf HfU HfS HfVh HfX HfY Hk
             Hnondeg i Hi).
  fold l. rewrite vget_finite by (assumption || lia). f_equal.
  rewrite clean_A_diag by assumption.
  assert (Hne : rget (l_B l) i i <> 0%F).
  { intros E. apply (Hnondeg i Hi). rewrite mget_finite by (assumption || lia).
    rewrite E. reflexivity. }
  field. exact Hne.
Qed.

Lemma clean_W_refined :
  l_W_refined l = mmul (mmul U (mdiag (vtake S k ++ s))) Vh.
Proof.
  unfold l. rewrite W_refined_eq. fold l. rewrite clean_sigma_refined.
  exact (kept_plus_correction W X Y U Vh S k Hshapes HfU HfS HfVh Hk s Hfs Hlen).
Qed.

End CleanLabels.

Section Refit.
Hypothesis HoV : mmul Vh (mT Vh) = midentity (nrows Vh).

Lemma residual_rows_orthonormal :
  orthonormal (ncols W) (m - k') (fun t c => rget Vh (k' + t) c).
Proof.
  pose proof (orthonormal_of_rows Vh HfVh HoV) as Hon.
  destruct Hshapes as [HU1 HU2 HS HV1 HV2].
  rewrite HV1, HV2 in Hon.
  apply (orthonormal_shift (ncols W) m k' (fun t c => rget Vh t c));
    [unfold m, k'; lia | exact Hon].
Qed.

(** The training error of the weights with the residual singular values
    [v] is a quadratic in each of them, with no cross term. *)
Lemma loss_of_correction (v : vector) :
  finite_vector v -> length v = m - k' ->
  loss X Y (mmul (mmul U (mdiag (vtake S k ++ v))) Vh) =
  (frobenius2 (l_residual l)
   + Fsum (m - k') (fun t =>
       rvget v t * rvget v t * rget (l_B l) t t
       - (rvget v t + rvget v t) * rget (l_A l) t t))%F.
Proof.
  intros Hfv Hlen.
  pose proof (@finite_W_k _ W X Y U Vh S k Hshapes HfU HfS HfVh Hk) as HfWk.
  pose proof (@finite_residual _ W X Y U Vh S k Hshapes Hconf HfU HfS HfVh HfX HfY Hk) as HfR.
  destruct (@shapes_of_locals _ W X Y U Vh S k Hshapes Hk)
    as (S1 & S2 & S3 & S4 & S5 & S6 & _).
  destruct (@finite_locals _ X Y U Vh S k HfU HfVh) as (F1 & F2 & _).
  fold l in HfWk, HfR, S1, S2, S3, S4, S5, S6, F1, F2. fold m k' in S4, S6.
  destruct shape_residual as [HR1 HR2].
  assert (HfC : finite_matrix (mmul (mmul (l_U_l l) (mdiag v)) (mT (l_V_l l)))).
  { apply finite_mmul; [apply finite_mmul; [exact F1 | apply finite_mdiag, Hfv | shape]
                       | apply finite_mT, F2 | shape]. }
  rewrite <- (kept_plus_correction W X Y U Vh S k Hshapes HfU HfS HfVh Hk v Hfv Hlen).
  fold l. unfold loss, frobenius2. autorewrite with shape.
  rewrite HR1, HR2.
  destruct Hconf as [HX HY1 HY2]. rewrite HY1, HY2.
  transitivity (frob2 (nrows X) (ncols W) (fun a c =>
     rget (l_residual l) a c
     - comb (m - k') (fun t => rvget v t * rget P a t)
            (fun t c => rget Vh (k' + t) c) c)%F);
    [ | rewrite (frob2_refit (nrows X) (ncols W) (m - k') (rget (l_residual l))
                   (fun t a => rget P a t) (fun t c => rget Vh (k' + t) c) (rvget v)
                   residual_rows_orthonormal) ].
  - apply frob2_ext. intros a c Ha Hc.
    rewrite rget_msub
      by (assumption || shape
          || (apply finite_mmul;
              [assumption | apply finite_madd; [assumption..|shape|shape] | shape])).
    rewrite rget_mmul by (assumption || shape || (apply finite_madd; [assumption..|shape|shape])).
    change (l_residual l) with (msub Y (mmul X (l_W_k l))).
    rewrite rget_msub by (assumption || shape || (apply finite_mmul; [assumption..|shape])).
    rewrite rget_mmul by (assumption || shape).
    unfold comb.
    transitivity (rget Y a c - Fsum (ncols X) (fun t => rget X a t * rget (l_W_k l) t c)
                  - rget (mmul X (mmul (mmul (l_U_l l) (mdiag v)) (mT (l_V_l l)))) a c)%F.
    + rewrite rget_mmul by (assumption || shape).
      transitivity (rget Y a c
                    - (Fsum (ncols X) (fun t => rget X a t * rget (l_W_k l) t c)
                       + Fsum (ncols X) (fun t => rget X a t
                            * rget (mmul (mmul (l_U_l l) (mdiag v)) (mT (l_V_l l))) t c)))%F;
        [|ring].
      f_equal. rewrite <- Fsum_add. apply Fsum_ext. intros t Ht.
      rewrite rget_madd by (assumption || shape). ring.
    + rewrite (rget_explained v a c Hfv Hlen Ha Hc). f_equal.
      apply Fsum_ext. intros t Ht. ring.
  - f_equal. apply Fsum_ext. intros t Ht.
    rewrite rget_A_entry, rget_B_entry by assumption. f_equal.
    f_equal. apply Fsum_ext. intros a Ha. unfold dot.
    rewrite <- Fsum_scale_l. apply Fsum_ext. intros c Hc. ring.
Qed.

Hypothesis Hnondeg : forall i, i < m - k' -> mget (l_B l) i i <> Num 0%F.

Lemma W_refined_as_correction :
  l_W_refined l = mmul (mmul U (mdiag (vtake S k ++ l_sigma_refined l))) Vh.
Proof.
  pose proof (@finite_sigma_refined _ W X Y U Vh S k Hshapes Hconf HfU HfS HfVh HfX HfY
                Hk Hnondeg) as Hfs.
  pose proof (@length_sigma_refined _ W X Y U Vh S k Hshapes Hk) as Hls.
  unfold l. rewrite W_refined_eq.
  exact (kept_plus_correction W X Y U Vh S k Hshapes HfU HfS HfVh Hk _ Hfs Hls).
Qed.

(** The refined singular values minimise the training error. *)
Lemma refit_least (v : vector) :
  finite_vector v -> length v = m - k' ->
  (loss X Y (l_W_refined l)
   <= loss X Y (mmul (mmul U (mdiag (vtake S k ++ v))) Vh))%F.
Proof.
  intros Hfv Hlen.
  pose proof (@finite_sigma_refined _ W X Y U Vh S k Hshapes Hconf HfU HfS HfVh HfX HfY
                Hk Hnondeg) as Hfs.
  pose proof (@length_sigma_refined _ W X Y U Vh S k Hshapes Hk) as Hls.
  pose proof (@finite_B _ W X Y U Vh S k Hshapes Hconf HfU HfX Hk) as HfB.
  destruct (@shape_B _ W X Y U Vh S k Hshapes Hk) as [HB1 HB2].
  fold l in Hfs, Hls, HfB, HB1, HB2. fold m k' in Hls, HB1, HB2.
  rewrite W_refined_as_correction.
  rewrite (loss_of_correction v Hfv Hlen).
  rewrite (loss_of_correction (l_sigma_refined l) Hfs Hls).
  apply Fle_add; [apply Fleb_refl|].
  apply Fsum_le. intros t Ht.
  assert (E : rvget (l_sigma_refined l) t = (rget (l_A l) t t / rget (l_B l) t t)%F).
  { unfold rvget, l.
    rewrite (@sigma_refined_entry _ W X Y U Vh S k Hshapes Hconf HfU HfS HfVh HfX HfY Hk
               Hnondeg t Ht).
    reflexivity. }
  rewrite E. apply quadratic_least_at_vertex.
  - rewrite rget_B_entry by exact Ht.
    apply Fsum_nonneg. intros a Ha. apply Fle_0_sq.
  - intros E0. apply (Hnondeg t Ht). rewrite mget_finite by (assumption || lia).
    rewrite E0. reflexivity.
Qed.

End Refit.

End Projections.

Section Recovery.
Context {OF : OrderedField}.

Lemma finite_vector_skipn (n : nat) (v : vector) :
  finite_vector v -> finite_vector (skipn n v).
Proof.
  unfold finite_vector. intros H. rewrite <- (firstn_skipn n v) in H.
  rewrite forallb_app in H. apply andb_true_iff in H. apply H.
Qed.

End Recovery.









(* ----------------------------------------------------------------- *)
(** ** The signs of the singular vectors *)

Section SignFlips.
Context {OF : OrderedField}.
Add Field F_field103 : Fth.
Local Open Scope F_scope.

Lemma signs_spec (d : vector) (t : nat) :
  signs d -> (t < length d)%nat -> vget d t = Num 1 \/ vget d t = Num (- (1)).
Proof.
  intros Hd Ht. unfold signs in Hd. rewrite forallb_forall in Hd.
  specialize (Hd (vget d t) (nth_In d (Num 0) Ht)).
  apply orb_true_iff in Hd. destruct Hd as [H|H]; apply scalar_eqb_eq in H; auto.
Qed.

Lemma signs_finite (d : vector) : signs d -> finite_vector d.
Proof.
  intros Hd. apply finite_vector_spec. intros i Hi.
  destruct (signs_spec d i Hd Hi) as [E|E]; rewrite E; reflexivity.
Qed.

Lemma signs_square (d : vector) (t : nat) :
  signs d -> (t < length d)%nat -> rvget d t * rvget d t = 1.
Proof.
  intros Hd Ht. unfold rvget.
  destruct (signs_spec d t Hd Ht) as [E|E]; rewrite E; cbn [num_of]; ring.
Qed.

Lemma rget_flip_columns (U : matrix) (d : vector) (i t : nat) :
  finite_matrix U -> finite_vector d -> ncols U = length d ->
  (i < nrows U)%nat -> (t < length d)%nat ->
  rget (mmul U (mdiag d)) i t = rget U i t * rvget d t.
Proof.
  intros HfU Hfd HU Hi Ht.
  rewrite rget_mmul by (finite || shape).
  rewrite (@Fsum_single _ (ncols U) t); [ | lia | ].
  - rewrite rget_mdiag, Nat.eqb_refl by lia. reflexivity.
  - intros s Hs Hne. rewrite rget_mdiag by lia.
    rewrite (proj2 (Nat.eqb_neq s t)) by exact Hne. ring.
Qed.

Lemma rget_flip_rows (Vh : matrix) (d : vector) (t j : nat) :
  finite_matrix Vh -> finite_vector d -> nrows Vh = length d ->
  (t < length d)%nat -> (j < ncols Vh)%nat ->
  rget (mmul (mdiag d) Vh) t j = rvget d t * rget Vh t j.
Proof.
  intros HfV Hfd HV Ht Hj.
  rewrite rget_mmul by (finite || shape).
  autorewrite with shape.
  rewrite (@Fsum_single _ (length d) t); [ | lia | ].
  - rewrite rget_mdiag, Nat.eqb_refl by lia. reflexivity.
  - intros s Hs Hne. rewrite rget_mdiag by lia.
    rewrite (proj2 (Nat.eqb_neq t s)) by (intros E; apply Hne; symmetry; exact E). ring.
Qed.

Variables (W X Y U Vh : matrix) (S d : vector) (k : Z).
Hypothesis Hshapes : svd_shapes W U S Vh.
Hypothesis Hconf : conforming W X Y.
Hypothesis HfU : finite_matrix U.
Hypothesis HfS : finite_vector S.
Hypothesis HfVh : finite_matrix Vh.
Hypothesis HfX : finite_matrix X.
Hypothesis HfY : finite_matrix Y.
Hypothesis Hk : (0 <= k <= Z.of_nat (Nat.min (nrows W) (ncols W)))%Z.
Hypothesis Hd : signs d.
Hypothesis Hlen : length d = length S.

Let m := Nat.min (nrows W) (ncols W).
Let k' := Z.to_nat k.
Let U' := mmul U (mdiag d).
Let Vh' := mmul (mdiag d) Vh.
Let l := trace U S Vh X Y k.
Let l' := trace U' S Vh' X Y k.

Lemma flipped_shapes : svd_shapes W U' S Vh'.
Proof.
  destruct Hshapes as [HU1 HU2 HS HV1 HV2].
  unfold U', Vh'. split; shape.
Qed.

Lemma flipped_finite : finite_matrix U' /\ finite_matrix Vh'.
Proof.
  pose proof (signs_finite d Hd) as Hfd.
  destruct Hshapes as [HU1 HU2 HS HV1 HV2].
  unfold U', Vh'. split; finite.
Qed.

Lemma flipped_U (i t : nat) :
  (i < nrows W)%nat -> (t < m)%nat -> rget U' i t = rget U i t * rvget d t.
Proof.
  intros Hi Ht. destruct Hshapes as [HU1 HU2 HS HV1 HV2].
  apply rget_flip_columns; try assumption; try (apply signs_finite, Hd);
    unfold m in *; lia.
Qed.

Lemma flipped_Vh (t j : nat) :
  (t < m)%nat -> (j < ncols W)%nat -> rget Vh' t j = rvget d t * rget Vh t j.
Proof.
  intros Ht Hj. destruct Hshapes as [HU1 HU2 HS HV1 HV2].
  apply rget_flip_rows; try assumption; try (apply signs_finite, Hd);
    unfold m in *; lia.
Qed.

Lemma flip_cancels (t : nat) (u s v : F) :
  (t < m)%nat -> u * rvget d t * s * (rvget d t * v) = u * s * v.
Proof.
  intros Ht.
  transitivity (u * s * v * (rvget d t * rvget d t)); [ring|].
  rewrite signs_square by (assumption || (destruct Hshapes; unfold m in *; lia)).
  ring.
Qed.

Lemma flipped_W_k : l_W_k l' = l_W_k l.
Proof.
  pose proof flipped_shapes as Hsh'. destruct flipped_finite as [HfU' HfVh'].
  pose proof (@finite_W_k _ W X Y U Vh S k Hshapes HfU HfS HfVh Hk) as Hf.
  pose proof (@finite_W_k _ W X Y U' Vh' S k Hsh' HfU' HfS HfVh' Hk) as Hf'.
  destruct (@shapes_of_locals _ W X Y U Vh S k Hshapes Hk) as (S1 & S2 & _).
  destruct (@shapes_of_locals _ W X Y U' Vh' S k Hsh' Hk) as (S1' & S2' & _).
  fold l in Hf, S1, S2. fold l' in Hf', S1', S2'.
  apply finite_matrix_ext; try assumption; try congruence;
    try (unfold l, l', trace; cbn [l_W_k]; apply wf_mtab).
  intros i j Hi Hj. rewrite S1' in Hi. rewrite S2' in Hj.
  unfold l, l'.
  rewrite (@rget_W_k _ W X Y U Vh S k Hshapes HfU HfS HfVh Hk i j Hi Hj).
  rewrite (@rget_W_k _ W X Y U' Vh' S k Hsh' HfU' HfS HfVh' Hk i j Hi Hj).
  apply Fsum_ext. intros t Ht.
  rewrite flipped_U, flipped_Vh by (unfold m, k' in *; lia).
  apply flip_cancels. unfold m; lia.
Qed.

Lemma flipped_residual : l_residual l' = l_residual l.
Proof.
  change (l_residual l') with (msub Y (mmul X (l_W_k l'))).
  rewrite flipped_W_k. reflexivity.
Qed.

Lemma flipped_P (a i : nat) :
  (a < nrows X)%nat -> (i < m - k')%nat ->
  rget (mmul X (mcols_from U' k)) a i =
  rvget d (k' + i) * rget (mmul X (mcols_from U k)) a i.
Proof.
  intros Ha Hi.
  pose proof flipped_shapes as Hsh'. destruct flipped_finite as [HfU' HfVh'].
  rewrite (@rget_P _ W X Y U Vh S k Hshapes Hconf HfU HfX Hk a i Ha Hi).
  rewrite (@rget_P _ W X Y U' Vh' S k Hsh' Hconf HfU' HfX Hk a i Ha Hi).
  rewrite <- Fsum_scale_l. apply Fsum_ext. intros s Hs.
  rewrite flipped_U by (unfold m, k' in *; lia). fold k'. ring.
Qed.

Lemma flipped_A_diag (i : nat) :
  (i < m - k')%nat -> mget (l_A l') i i = mget (l_A l) i i.
Proof.
  intros Hi.
  pose proof flipped_shapes as Hsh'. destruct flipped_finite as [HfU' HfVh'].
  pose proof (@finite_A _ W X Y U Vh S k Hshapes Hconf HfU HfS HfVh HfX HfY Hk) as Hf.
  pose proof (@finite_A _ W X Y U' Vh' S k Hsh' Hconf HfU' HfS HfVh' HfX HfY Hk) as Hf'.
  destruct (@shape_A _ W X Y U Vh S k Hshapes Hk) as [HA1 HA2].
  destruct (@shape_A _ W X Y U' Vh' S k Hsh' Hk) as [HA1' HA2'].
  fold l in Hf, HA1, HA2. fold l' in Hf', HA1', HA2'. fold m k' in HA1, HA2, HA1', HA2'.
  rewrite !mget_finite by (assumption || lia). f_equal.
  unfold l, l'.
  rewrite (@rget_A_entry _ W X Y U Vh S k Hshapes Hconf HfU HfS HfVh HfX HfY Hk i i Hi Hi).
  rewrite (@rget_A_entry _ W X Y U' Vh' S k Hsh' Hconf HfU' HfS HfVh' HfX HfY Hk i i Hi Hi).
  fold l l'. rewrite flipped_residual.
  apply Fsum_ext. intros a Ha. apply Fsum_ext. intros c Hc.
  rewrite flipped_P by assumption.
  rewrite flipped_Vh by (unfold m, k' in *; lia). fold k'.
  transitivity (rget (mmul X (mcols_from U k)) a i * rget (l_residual l) a c
                * rget Vh (k' + i) c * (rvget d (k' + i) * rvget d (k' + i))); [ring|].
  rewrite signs_square by (assumption || (destruct Hshapes; unfold m, k' in *; lia)).
  ring.
Qed.

Lemma flipped_B_diag (i : nat) :
  (i < m - k')%nat -> mget (l_B l') i i = mget (l_B l) i i.
Proof.
  intros Hi.
  pose proof flipped_shapes as Hsh'. destruct flipped_finite as [HfU' HfVh'].
  pose proof (@finite_B _ W X Y U Vh S k Hshapes Hconf HfU HfX Hk) as Hf.
  pose proof (@finite_B _ W X Y U' Vh' S k Hsh' Hconf HfU' HfX Hk) as Hf'.
  destruct (@shape_B _ W X Y U Vh S k Hshapes Hk) as [HB1 HB2].
  destruct (@shape_B _ W X Y U' Vh' S k Hsh' Hk) as [HB1' HB2'].
  fold l in Hf, HB1, HB2. fold l' in Hf', HB1', HB2'. fold m k' in HB1, HB2, HB1', HB2'.
  rewrite !mget_finite by (assumption || lia). f_equal.
  unfold l, l'.
  rewrite (@rget_B_entry _ W X Y U Vh S k Hshapes Hconf HfU HfX Hk i i Hi Hi).
  rewrite (@rget_B_entry _ W X Y U' Vh' S k Hsh' Hconf HfU' HfX Hk i i Hi Hi).
  apply Fsum_ext. intros a Ha.
  rewrite flipped_P by assumption.
  transitivity (rget (mmul X (mcols_from U k)) a i * rget (mmul X (mcols_from U k)) a i
                * (rvget d (k' + i) * rvget d (k' + i))); [ring|].
  rewrite signs_square by (assumption || (destruct Hshapes; unfold m, k' in *; lia)).
  ring.
Qed.

Lemma flipped_sigma_refined : l_sigma_refined l' = l_sigma_refined l.
Proof.
  pose proof flipped_shapes as Hsh'.
  destruct (@shape_A _ W X Y U Vh S k Hshapes Hk) as [HA1 HA2].
  destruct (@shape_A _ W X Y U' Vh' S k Hsh' Hk) as [HA1' HA2'].
  fold l in HA1, HA2. fold l' in HA1', HA2'. fold m k' in HA1, HA2, HA1', HA2'.
  change (l_sigma_refined l') with
    (tab (nrows (l_A l')) (fun i => sdiv (mget (l_A l') i i) (mget (l_B l') i i))).
  change (l_sigma_refined l) with
    (tab (nrows (l_A l)) (fun i => sdiv (mget (l_A l) i i) (mget (l_B l) i i))).
  rewrite HA1, HA1'. apply tab_ext. intros i Hi.
  rewrite flipped_A_diag, flipped_B_diag by exact Hi. reflexivity.
Qed.

Hypothesis Hnondeg : forall i, (i < m - k')%nat -> mget (l_B l) i i <> Num 0.

Lemma flipped_W_refined : l_W_refined l' = l_W_refined l.
Proof.
  pose proof flipped_shapes as Hsh'. destruct flipped_finite as [HfU' HfVh'].
  pose proof (@finite_sigma_refined _ W X Y U Vh S k Hshapes Hconf HfU HfS HfVh HfX HfY
                Hk Hnondeg) as Hfs.
  pose proof (@length_sigma_refined _ W X Y U Vh S k Hshapes Hk) as Hls.
  fold l in Hfs, Hls. fold m k' in Hls.
  unfold l, l'. rewrite !W_refined_eq. fold l l'.
  rewrite flipped_W_k, flipped_sigma_refined. f_equal.
  destruct (@shapes_of_locals _ W X Y U Vh S k Hshapes Hk)
    as (_ & _ & S3 & S4 & S5 & S6 & _).
  destruct (@shapes_of_locals _ W X Y U' Vh' S k Hsh' Hk)
    as (_ & _ & S3' & S4' & S5' & S6' & _).
  destruct (@finite_locals _ X Y U Vh S k HfU HfVh) as (F1 & F2 & _).
  destruct (@finite_locals _ X Y U' Vh' S k HfU' HfVh') as (F1' & F2' & _).
  fold l in S3, S4, S5, S6, F1, F2. fold l' in S3', S4', S5', S6', F1', F2'.
  fold m k' in S4, S6, S4', S6'.
  apply finite_matrix_ext;
    [ apply wf_mtab | apply wf_mtab | | | shape | shape | ].
  - apply finite_mmul; [apply finite_mmul; [exact F1' | apply finite_mdiag, Hfs | shape]
                       | apply finite_mT, F2' | shape].
  - apply finite_mmul; [apply finite_mmul; [exact F1 | apply finite_mdiag, Hfs | shape]
                       | apply finite_mT, F2 | shape].
  - intros i j Hi Hj. autorewrite with shape in Hi, Hj. rewrite S3' in Hi. rewrite S5' in Hj.
    unfold l, l'.
    rewrite (@rget_correction _ W X Y U Vh S k Hshapes HfU HfVh Hk
               (l_sigma_refined (trace U S Vh X Y k)) i j Hfs Hls Hi Hj).
    rewrite (@rget_correction _ W X Y U' Vh' S k Hsh' HfU' HfVh' Hk
               (l_sigma_refined (trace U S Vh X Y k)) i j Hfs Hls Hi Hj).
    apply Fsum_ext. intros t Ht. fold k'.
    rewrite flipped_U, flipped_Vh by (unfold m, k' in *; lia).
    apply flip_cancels. unfold m, k' in *; lia.
Qed.

End SignFlips.

(** X11 (the signs of the singular vectors do not matter).  An SVD
    determines each pair of singular vectors only up to a common sign.
    For a valid input with no residual axis of zero feature energy, [lip]
    returns the same matrix whichever signs the SVD routine picks: with
    the factors [U diag(d)] and [diag(d) Vh], [d] a vector of signs, as
    with [U] and [Vh]. *)
Theorem lip_invariant_under_sign_flips {OF : OrderedField}
        (svd svd' : svd_oracle) (W X Y : matrix) (k : Z)
        (U : matrix) (S : vector) (Vh : matrix) (d : vector) :
  svd W = Ok (U, S, Vh) ->
  svd' W = Ok (mmul U (mdiag d), S, mmul (mdiag d) Vh) ->
  svd_shapes W U S Vh -> conforming W X Y ->
  finite_matrix U -> finite_vector S -> finite_matrix Vh ->
  finite_matrix X -> finite_matrix Y ->
  (0 <= k <= Z.of_nat (Nat.min (nrows W) (ncols W)))%Z ->
  signs d -> length d = length S ->
  nondegenerate U X k ->
  lip_v svd' W X Y k = lip_v svd W X Y k.
Proof.
  intros Hsvd Hsvd' Hsh Hc HfU HfS HfVh HfX HfY Hk Hd Hlen Hnd.
  assert (Hsh' : svd_shapes W (mmul U (mdiag d)) S (mmul (mdiag d) Vh))
    by (destruct Hsh; split; shape).
  rewrite (@lip_v_run _ svd W X Y k U S Vh Hsvd Hsh Hc).
  rewrite (@lip_v_run _ svd' W X Y k _ S _ Hsvd' Hsh' Hc).
  f_equal.
  exact (flipped_W_refined W X Y U Vh S d k Hsh Hc HfU HfS HfVh HfX HfY Hk Hd Hlen
           (@nondegenerate_B _ W X Y U Vh S k Hsh Hk Hnd)).
Qed.

Lemma lip_invariant_under_sign_flips_witness :
  lip_v Variations.svd_flipped Example.W Example.X Example.Y 1 =
  lip_v Example.svd Example.W Example.X Example.Y 1.
Proof.
  destruct ExampleFacts.finite_inputs as (F1 & F2 & F3 & F4 & F5).
  apply (@lip_invariant_under_sign_flips Qc_field Example.svd Variations.svd_flipped
           Example.W Example.X Example.Y 1 Example.U Example.S Example.Vh
           Variations.d).
  - reflexivity.
  - reflexivity.
  - exact ExampleFacts.svd_shapes_ok.
  - exact ExampleFacts.conforming_ok.
  - exact F1.
  - exact F2.
  - exact F3.
  - exact F4.
  - exact F5.
  - vm_compute. split; discriminate.
  - vm_compute. reflexivity.
  - reflexivity.
  - exact ExampleFacts.nondegenerate_ok.
Defined.

(* ----------------------------------------------------------------- *)
(** ** The store agrees with the values *)

Section Views.
Context {OF : OrderedField}.

Lemma firstn_tab {A} (n len : nat) (f : nat -> A) :
  n <= len -> firstn n (tab len f) = tab n f.
Proof.
  intros H. unfold tab. rewrite firstn_map. f_equal.
  replace len with (n + (len - n)) by lia.
  rewrite seq_app, firstn_app, length_seq, Nat.sub_diag. cbn [firstn].
  rewrite app_nil_r. rewrite firstn_all2 by (rewrite length_seq; lia). reflexivity.
Qed.

Lemma nth_concat_rows (c : nat) (f : nat -> nat -> scalar) (d : scalar) :
  forall r s i j, i < r -> j < c ->
    nth (i * c + j) (concat (map (fun i => tab c (f i)) (seq s r))) d = f (s + i) j.
Proof.
  induction r as [|r IH]; intros s i j Hi Hj; [lia|].
  cbn [seq map concat]. destruct i as [|i].
  - cbn [Nat.mul Nat.add]. rewrite app_nth1 by (rewrite length_tab; exact Hj).
    rewrite nth_tab by exact Hj. f_equal. lia.
  - rewrite app_nth2 by (rewrite length_tab; cbn; lia).
    rewrite length_tab.
    replace (S i * c + j - c) with (i * c + j) by (cbn; lia).
    rewrite IH by lia. f_equal. lia.
Qed.

Lemma nth_flatten (m : matrix) (i j : nat) :
  i < nrows m -> j < ncols m ->
  nth (i * ncols m + j) (flatten m) (Num 0%F) = mget m i j.
Proof.
  intros Hi Hj. unfold flatten, tab at 1.
  rewrite (nth_concat_rows (ncols m) (mget m) (Num 0%F) (nrows m) 0 i j Hi Hj).
  reflexivity.
Qed.

Lemma load_new (h : heap) (s : storage) (off : nat) :
  load (h ++ [s]) (length h) off = nth off s (Num 0%F).
Proof. unfold load. rewrite nth_middle. reflexivity. Qed.

Lemma read1_extend (h fresh : heap) (t : view1) :
  v1_stor t < length h -> read1 (h ++ fresh) t = read1 h t.
Proof.
  intros H. unfold read1. apply tab_ext. intros i Hi. apply load_extend, H.
Qed.

Lemma denotes2_extend (fresh h : heap) (t : view2) (m : matrix) :
  denotes2 h t m -> denotes2 (h ++ fresh) t m.
Proof.
  intros [H1 H2]. split; [rewrite length_app; lia|].
  rewrite read2_extend by exact H1. exact H2.
Qed.

Lemma denotes1_extend (fresh h : heap) (t : view1) (v : vector) :
  denotes1 h t v -> denotes1 (h ++ fresh) t v.
Proof.
  intros [H1 H2]. split; [rewrite length_app; lia|].
  rewrite read1_extend by exact H1. exact H2.
Qed.

(** ** The views denote the slices *)

Lemma read2_transpose (h : heap) (t : view2) :
  read2 h (h_transpose t) = mT (read2 h t).
Proof.
  unfold read2, h_transpose, mT. cbn [v2_rows v2_cols v2_stor v2_off v2_rstride v2_cstride].
  autorewrite with shape. apply mtab_ext. intros i j Hi Hj.
  rewrite mget_mtab by assumption. f_equal. lia.
Qed.

Lemma read2_cols_to (h : heap) (t : view2) (k : Z) :
  read2 h (h_cols_to t k) = mcols_to (read2 h t) k.
Proof.
  pose proof (slice_index_le k (v2_cols t)) as Hle.
  unfold read2, h_cols_to, mcols_to. cbn [v2_rows v2_cols v2_stor v2_off v2_rstride v2_cstride].
  autorewrite with shape. apply mtab_ext. intros i j Hi Hj.
  rewrite mget_mtab by lia. reflexivity.
Qed.

Lemma read2_cols_from (h : heap) (t : view2) (k : Z) :
  read2 h (h_cols_from t k) = mcols_from (read2 h t) k.
Proof.
  pose proof (slice_index_le k (v2_cols t)) as Hle.
  unfold read2, h_cols_from, mcols_from.
  cbn [v2_rows v2_cols v2_stor v2_off v2_rstride v2_cstride].
  autorewrite with shape. cbv zeta. apply mtab_ext. intros i j Hi Hj.
  rewrite mget_mtab by lia. f_equal. lia.
Qed.

Lemma read1_take (h : heap) (t : view1) (k : Z) :
  read1 h (h_take t k) = vtake (read1 h t) k.
Proof.
  unfold read1, h_take, vtake. cbn [v1_len v1_stor v1_off v1_stride].
  rewrite length_tab. rewrite firstn_tab by apply slice_index_le. reflexivity.
Qed.

Lemma denotes2_transpose (h : heap) (t : view2) (m : matrix) :
  denotes2 h t m -> denotes2 h (h_transpose t) (mT m).
Proof. intros [H1 H2]. split; [exact H1|]. rewrite read2_transpose, H2. reflexivity. Qed.

Lemma denotes2_cols_to (h : heap) (t : view2) (m : matrix) (k : Z) :
  denotes2 h t m -> denotes2 h (h_cols_to t k) (mcols_to m k).
Proof. intros [H1 H2]. split; [exact H1|]. rewrite read2_cols_to, H2. reflexivity. Qed.

Lemma denotes2_cols_from (h : heap) (t : view2) (m : matrix) (k : Z) :
  denotes2 h t m -> denotes2 h (h_cols_from t k) (mcols_from m k).
Proof. intros [H1 H2]. split; [exact H1|]. rewrite read2_cols_from, H2. reflexivity. Qed.

Lemma denotes1_take (h : heap) (t : view1) (v : vector) (k : Z) :
  denotes1 h t v -> denotes1 h (h_take t k) (vtake v k).
Proof. intros [H1 H2]. split; [exact H1|]. rewrite read1_take, H2. reflexivity. Qed.

Lemma denotes2_rows (h : heap) (t : view2) (m : matrix) :
  denotes2 h t m -> v2_rows t = nrows m.
Proof. intros [_ <-]. reflexivity. Qed.

(** ** New tensors *)

(** The matrix a new contiguous tensor denotes: the entries of [m] within
    its shape. *)
Lemma read2_new (h : heap) (m : matrix) :
  read2 (h ++ [flatten m]) (View2 (length h) 0 (nrows m) (ncols m) (ncols m) 1) =
  mtab (nrows m) (ncols m) (mget m).
Proof.
  unfold read2. cbn [v2_rows v2_cols v2_stor v2_off v2_rstride v2_cstride].
  apply mtab_ext. intros i j Hi Hj. rewrite load_new.
  replace (0 + i * ncols m + j * 1) with (i * ncols m + j) by lia.
  apply nth_flatten; assumption.
Qed.

Lemma denotes2_new (h : heap) (m : matrix) :
  wf_matrix m ->
  denotes2 (h ++ [flatten m]) (View2 (length h) 0 (nrows m) (ncols m) (ncols m) 1) m.
Proof.
  intros Hwf. split.
  - cbn [v2_stor]. rewrite length_app. cbn. lia.
  - rewrite read2_new. symmetry. exact Hwf.
Qed.

Lemma denotes1_new (h : heap) (v : vector) :
  denotes1 (h ++ [v]) (View1 (length h) 0 (length v) 1) v.
Proof.
  split.
  - cbn [v1_stor]. rewrite length_app. cbn. lia.
  - unfold read1. cbn [v1_len v1_stor v1_off v1_stride].
    transitivity (tab (length v) (fun i => nth i v (Num 0%F))); [|apply tab_nth].
    apply tab_ext. intros i Hi. rewrite load_new. f_equal. lia.
Qed.

(** ** The operations *)

Lemma wf_matmul_v (a b m : matrix) : matmul_v a b = Ok m -> wf_matrix m.
Proof.
  unfold matmul_v. destruct (ncols a =? nrows b); [|discriminate].
  intros E. injection E as <-. apply wf_mtab.
Qed.

Lemma wf_mzip (op : scalar -> scalar -> scalar) (a b m : matrix) :
  mzip op a b = Ok m -> wf_matrix m.
Proof.
  unfold mzip. destruct (bdim (nrows a) (nrows b)); [|discriminate].
  destruct (bdim (ncols a) (ncols b)); [|discriminate].
  intros E. injection E as <-. apply wf_mtab.
Qed.

Lemma simulates_ret {A B} (rel : heap -> A -> B -> Prop) (a : A) (b : B) (h : heap) :
  rel h a b -> simulates rel (hret a) (Ok b) h.
Proof.
  intros H. exists a, []. rewrite app_nil_r. split; [reflexivity | exact H].
Qed.

Lemma simulates_bind {A B A' B'} (relA : heap -> A -> A' -> Prop)
      (relB : heap -> B -> B' -> Prop)
      (c : HM A) (f : A -> HM B) (r : result A') (g : A' -> result B') (h : heap) :
  simulates relA c r h ->
  (forall a a' fresh, relA (h ++ fresh) a a' ->
                      simulates relB (f a) (g a') (h ++ fresh)) ->
  simulates relB (hbind c f) (rbind r g) h.
Proof.
  intros Hc Hf. unfold simulates in *. destruct r as [a'|e]; cbn [rbind].
  - destruct Hc as (a & fresh & Ec & Hrel).
    specialize (Hf a a' fresh Hrel). unfold hbind. rewrite Ec.
    destruct (g a') as [b'|e].
    + destruct Hf as (b & fresh' & Ef & Hrel').
      exists b, (fresh ++ fresh'). rewrite app_assoc. split; assumption.
    + destruct Hf as (fresh' & Ef). exists (fresh ++ fresh').
      rewrite app_assoc. exact Ef.
  - destruct Hc as (fresh & Ec). exists fresh. unfold hbind. rewrite Ec. reflexivity.
Qed.

(** An operation on two 2-D tensors whose result is well formed. *)
Lemma simulates_store2 (op : matrix -> matrix -> result matrix)
      (a b : view2) (A B : matrix) (h : heap) :
  (forall m, op A B = Ok m -> wf_matrix m) ->
  denotes2 h a A -> denotes2 h b B ->
  simulates (fun h' t m => denotes2 h' t m /\ length h <= v2_stor t)
            (fun h => store2 (op (read2 h a) (read2 h b)) h) (op A B) h.
Proof.
  intros Hwf [_ Ha] [_ Hb]. unfold simulates. rewrite Ha, Hb.
  destruct (op A B) as [m|e] eqn:E.
  - eexists _, [flatten m]. split; [reflexivity|].
    split; [apply denotes2_new, Hwf; reflexivity | cbn [v2_stor]; lia].
  - exists []. rewrite app_nil_r. reflexivity.
Qed.

Lemma simulates_diag (t : view1) (v : vector) (h : heap) :
  denotes1 h t v ->
  simulates (fun h' t m => denotes2 h' t m /\ length h <= v2_stor t)
            (fun h => alloc2 (mdiag (read1 h t)) h) (Ok (mdiag v)) h.
Proof.
  intros [_ Ht]. unfold simulates. rewrite Ht.
  eexists _, [flatten (mdiag v)]. split; [reflexivity|].
  split; [apply denotes2_new, wf_mtab | cbn [v2_stor]; lia].
Qed.

Lemma simulates_index2 (a : view2) (A : matrix) (idx idx' : list nat) (h : heap) :
  denotes2 h a A ->
  simulates denotes1 (fun h => store1 (index2_v (read2 h a) idx idx') h)
            (index2_v A idx idx') h.
Proof.
  intros [_ Ha]. unfold simulates. rewrite Ha.
  destruct (index2_v A idx idx') as [v|e].
  - eexists _, [v]. split; [reflexivity | apply denotes1_new].
  - exists []. rewrite app_nil_r. reflexivity.
Qed.

Lemma simulates_div (a b : view1) (A B : vector) (h : heap) :
  denotes1 h a A -> denotes1 h b B ->
  simulates denotes1 (fun h => store1 (vdiv_v (read1 h a) (read1 h b)) h)
            (vdiv_v A B) h.
Proof.
  intros [_ Ha] [_ Hb]. unfold simulates. rewrite Ha, Hb.
  destruct (vdiv_v A B) as [v|e].
  - eexists _, [v]. split; [reflexivity | apply denotes1_new].
  - exists []. rewrite app_nil_r. reflexivity.
Qed.

Lemma mcols_to_within (m : matrix) (k : Z) :
  mcols_to (mtab (nrows m) (ncols m) (mget m)) k = mcols_to m k.
Proof.
  pose proof (slice_index_le k (ncols m)) as Hle.
  unfold mcols_to. autorewrite with shape. apply mtab_ext. intros i j Hi Hj.
  apply mget_mtab; lia.
Qed.

Lemma mcols_from_within (m : matrix) (k : Z) :
  mcols_from (mtab (nrows m) (ncols m) (mget m)) k = mcols_from m k.
Proof.
  pose proof (slice_index_le k (ncols m)) as Hle.
  unfold mcols_from. autorewrite with shape. cbv zeta. apply mtab_ext. intros i j Hi Hj.
  apply mget_mtab; lia.
Qed.

Lemma mT_within (m : matrix) :
  mT (mtab (nrows m) (ncols m) (mget m)) = mT m.
Proof.
  unfold mT. autorewrite with shape. apply mtab_ext. intros i j Hi Hj.
  apply mget_mtab; lia.
Qed.

Lemma simulates_svd (svd : svd_oracle) (k : Z) (t : view2) (m : matrix) (h : heap) :
  denotes2 h t m ->
  simulates (denotes_svd k) (h_svd svd t) (svd m) h.
Proof.
  intros [_ Ht]. unfold simulates, h_svd. rewrite Ht.
  destruct (svd m) as [[[U S] Vh]|e].
  - exists (View2 (length h) 0 (nrows U) (ncols U) (ncols U) 1,
            View1 (length (h ++ [flatten U])) 0 (length S) 1,
            View2 (length ((h ++ [flatten U]) ++ [S])) 0 (nrows Vh) (ncols Vh) (ncols Vh) 1),
           [flatten U; S; flatten Vh].
    split.
    + unfold hbind, alloc2, alloc1, hret. cbn [fst snd].
      rewrite <- !app_assoc. cbn [app]. reflexivity.
    + unfold denotes_svd.
      replace (h ++ [flatten U; S; flatten Vh])
        with (((h ++ [flatten U]) ++ [S]) ++ [flatten Vh])
        by (rewrite <- !app_assoc; reflexivity).
      split; [|split; [|split]].
      * do 2 apply denotes2_extend. split.
        -- cbn [h_cols_to v2_stor]. rewrite length_app. cbn. lia.
        -- rewrite read2_cols_to, read2_new. apply mcols_to_within.
      * do 2 apply denotes2_extend. split.
        -- cbn [h_cols_from v2_stor]. rewrite length_app. cbn. lia.
        -- rewrite read2_cols_from, read2_new. apply mcols_from_within.
      * apply denotes1_extend.
        apply (denotes1_new (h ++ [flatten U]) S).
      * split.
        -- cbn [h_transpose v2_stor]. rewrite !length_app. cbn. lia.
        -- rewrite read2_transpose.
           rewrite (read2_new ((h ++ [flatten U]) ++ [S]) Vh). apply mT_within.
  - exists []. rewrite app_nil_r. reflexivity.
Qed.

End Views.

Create HintDb views.
#[export] Hint Resolve denotes2_transpose denotes2_cols_to denotes2_cols_from
  denotes1_take : views.

(** After an allocation, every view that denoted a value still denotes
    it. *)
Ltac lift_views fr :=
  repeat match goal with
  | H : denotes2 ?h0 _ _ |- simulates _ _ _ (?h0 ++ fr) =>
      apply (denotes2_extend fr) in H
  | H : denotes1 ?h0 _ _ |- simulates _ _ _ (?h0 ++ fr) =>
      apply (denotes1_extend fr) in H
  | H : length ?a <= length ?h0 |- simulates _ _ _ (?h0 ++ fr) =>
      let H' := fresh in
      assert (H' : length a <= length (h0 ++ fr)) by (rewrite length_app; lia);
      clear H; rename H' into H
  end;
  match goal with
  | |- simulates _ _ _ (?h0 ++ fr) =>
      let h1 := fresh "h" in
      let E := fresh "E" in
      remember (h0 ++ fr) as h1 eqn:E; clear E
  end.

(** One operation of [lip], on the store and on values. *)
Ltac sim_step :=
  eapply simulates_bind;
  [ first [ apply simulates_store2;
            [ let E := fresh in
              intros ? E; first [ exact (wf_matmul_v _ _ _ E) | exact (wf_mzip _ _ _ _ E) ]
            | eauto with views | eauto with views ]
          | apply simulates_diag; eauto with views
          | apply simulates_index2; eauto with views
          | apply simulates_div; eauto with views ]
  | let t := fresh "t" in
    let m := fresh "m" in
    let fr := fresh "fr" in
    let H := fresh "Hd" in
    intros t m fr H; cbv beta in H;
    lazymatch type of H with
    | _ /\ _ => destruct H as [H _]
    | _ => idtac
    end;
    lift_views fr ].

Section Simulation.
Context {OF : OrderedField}.

Lemma simulates_bind_ret {A B B'} (rel : heap -> B -> B' -> Prop)
      (x : A) (f : A -> HM B) (g : A -> result B') (h : heap) :
  simulates rel (f x) (g x) h ->
  simulates rel (hbind (hret x) f) (rbind (Ok x) g) h.
Proof. intros H. exact H. Qed.

Lemma lip_simulation (svd : svd_oracle) (W X Y : view2) (k : Z) (h0 h : heap)
      (Wv Xv Yv : matrix) :
  length h0 <= length h ->
  denotes2 h W Wv -> denotes2 h X Xv -> denotes2 h Y Yv ->
  simulates (fun h' t m => denotes2 h' t m /\ length h0 <= v2_stor t)
            (lip_h svd W X Y k) (lip_v svd Wv Xv Yv k) h.
Proof.
  intros Hge HW HX HY.
  unfold lip_h, lip_v, lip, lip_body.
  cbn [bind ret heap_backend value_backend linalg_svd transpose cols_to cols_from
       take shape0 diag matmul sub add div arange index2 M tensor2 tensor1 itensor].
  apply simulates_bind with
    (relA := fun h' (lh : locals view2 view1 (list nat)) (lv : locals matrix vector (list nat)) =>
               denotes2 h' (l_W_refined lh) (l_W_refined lv)
               /\ length h0 <= v2_stor (l_W_refined lh));
    [ | intros lh lv fr Hrel; apply simulates_ret; exact Hrel ].
  eapply simulates_bind; [ apply (simulates_svd svd k W Wv h HW) | ].
  intros [[u s] vh] [[U S] Vh] fr (HUk & HUl & HS & HV).
  lift_views fr.
  do 11 sim_step.
  match goal with
  | |- context [v2_rows ?a] =>
      match goal with
      | H : denotes2 _ a _ |- _ => rewrite (denotes2_rows _ _ _ H)
      end
  end.
  apply simulates_bind_ret.
  do 6 sim_step.
  eapply simulates_bind;
    [ apply simulates_store2;
      [ intros ? E; exact (wf_mzip _ _ _ _ E) | eauto with views | eauto with views ]
    | intros t' m' fr' [Hd' Hfresh]; apply simulates_ret; cbn [l_W_refined];
      split; [exact Hd' | lia] ].
Qed.

End Simulation.

(** X12 (the store agrees with the values).  On a store where the three
    arguments are allocated (views of any offsets and strides, possibly
    sharing storage), [lip] raises exactly when [lip] on the values the
    views denote raises, with the same exception; otherwise it returns a
    tensor that denotes the matrix computed on values and that lives in a
    storage allocated by the call: the result never aliases an
    argument. *)
Theorem lip_result_is_fresh {OF : OrderedField}
        (svd : svd_oracle) (W X Y : view2) (k : Z) (h : heap) :
  v2_stor W < length h -> v2_stor X < length h -> v2_stor Y < length h ->
  match lip_v svd (read2 h W) (read2 h X) (read2 h Y) k with
  | Ok W_refined =>
      exists t, fst (lip_h svd W X Y k h) = Ok t /\
                read2 (snd (lip_h svd W X Y k h)) t = W_refined /\
                length h <= v2_stor t /\
                v2_stor t < length (snd (lip_h svd W X Y k h))
  | Raise e => fst (lip_h svd W X Y k h) = Raise e
  end.
Proof.
  intros HW HX HY.
  pose proof (@lip_simulation _ svd W X Y k h h (read2 h W) (read2 h X) (read2 h Y)
                (Nat.le_refl _) (conj HW eq_refl) (conj HX eq_refl) (conj HY eq_refl))
    as Hsim.
  unfold simulates in Hsim.
  destruct (lip_v svd (read2 h W) (read2 h X) (read2 h Y) k) as [m|e].
  - destruct Hsim as (t & fr & E & [Hs Hr] & Hge).
    exists t. rewrite E. cbn [fst snd]. repeat split; assumption.
  - destruct Hsim as (fr & E). rewrite E. reflexivity.
Qed.

Lemma lip_result_is_fresh_witness :
  match lip_v Example.svd (read2 Variations.h1 Variations.Wview)
              (read2 Variations.h1 Variations.Xview)
              (read2 Variations.h1 Variations.Yview) 1 with
  | Ok W_refined =>
      exists t,
        fst (lip_h Example.svd Variations.Wview Variations.Xview Variations.Yview 1
                   Variations.h1) = Ok t /\
        read2 (snd (lip_h Example.svd Variations.Wview Variations.Xview
                          Variations.Yview 1 Variations.h1)) t = W_refined /\
        length Variations.h1 <= v2_stor t /\
        v2_stor t < length (snd (lip_h Example.svd Variations.Wview Variations.Xview
                                       Variations.Yview 1 Variations.h1))
  | Raise e =>
      fst (lip_h Example.svd Variations.Wview Variations.Xview Variations.Yview 1
                 Variations.h1) = Raise e
  end.
Proof.
  apply (@lip_result_is_fresh Qc_field Example.svd Variations.Wview Variations.Xview
           Variations.Yview 1 Variations.h1); vm_compute; lia.
Defined.
